(** * veri-text: detection and arbitration engine

    A shallow embedding of the arbitration pipeline
    ([services/result_arbitrator.py]), the text preprocessor
    ([services/text_processor.py]), the word-list loading paths
    ([services/yaml_config_reader.py], [services/rule_detector.py],
    [services/rule_engine.py]) and the request orchestrator
    ([services/enhanced_detection_service.py]).

    Conventions of the embedding:
    - a Python [str] is the list of its code points;
    - a Python [int] is a [Z];
    - a Python [float] is the rational number it denotes; sums, products
      and quotients of floats and the decimal literals of the source are
      rounded to binary64 by [b64] (nearest, ties to even); infinities,
      overflow and NaN are not modelled;
    - a Python [dict] is an association list in insertion order;
    - code that can raise returns a [result]. *)

From Stdlib Require Import String Ascii ZArith QArith Qminmax List Bool Lia Lqa.
From Stdlib Require Import Qround Qpower Qreduction.
From Stdlib Require Import Permutation Sorted.
Import ListNotations.
Open Scope Z_scope.

(* ================================================================== *)
(** * Python values *)

(** A Python string: the sequence of its code points. *)
Definition str := list N.

Definition str_eq_dec : forall a b : str, {a = b} + {a <> b} :=
  list_eq_dec N.eq_dec.

Definition str_eqb (a b : str) : bool :=
  if str_eq_dec a b then true else false.

(** Literals: every character of the Rocq string is one code point. *)
Fixpoint lit (s : string) : str :=
  match s with
  | EmptyString => []
  | String c s' => N_of_ascii c :: lit s'
  end.

Definition len {A : Type} (l : list A) : Z := Z.of_nat (List.length l).

(** Exceptions raised by the modelled code.  [DetectionError] carries the
    message it was built from. *)
Inductive exn : Type :=
| ValueError
| PydanticValidationError
| AttributeError
| IndexError
| OtherException (tag : N)
| DetectionError (msg : error_message)
with error_message : Type :=
| TextTooLong (length_ limit : Z)
| DetectFailed (cause : exn).

Inductive result (A : Type) : Type :=
| Ok (a : A)
| Raise (e : exn).
Arguments Ok {A} a.
Arguments Raise {A} e.

Definition bind {A B : Type} (m : result A) (k : A -> result B) : result B :=
  match m with
  | Ok a => k a
  | Raise e => Raise e
  end.

Notation "x <- m ;; k" := (bind m (fun x => k))
  (at level 61, m at next level, right associativity).

(** A [for] loop that appends one value per element and stops at the first
    exception. *)
Fixpoint mapM {A B : Type} (f : A -> result B) (l : list A) : result (list B) :=
  match l with
  | [] => Ok []
  | x :: t => y <- f x ;; ys <- mapM f t ;; Ok (y :: ys)
  end.

(** ** Dictionaries *)

Definition dict (V : Type) := list (str * V).

Fixpoint dict_get {V : Type} (d : dict V) (k : str) : option V :=
  match d with
  | [] => None
  | (k', v) :: d' => if str_eq_dec k' k then Some v else dict_get d' k
  end.

(** [d.get(k, default)] *)
Definition dict_get_default {V : Type} (d : dict V) (k : str) (default : V) : V :=
  match dict_get d k with
  | Some v => v
  | None => default
  end.

(** [d[k] = v]: an existing key keeps its position, a new key goes last. *)
Fixpoint dict_set {V : Type} (d : dict V) (k : str) (v : V) : dict V :=
  match d with
  | [] => [(k, v)]
  | (k', v') :: d' =>
      if str_eq_dec k' k then (k', v) :: d' else (k', v') :: dict_set d' k v
  end.

Definition dict_keys {V : Type} (d : dict V) : list str := map fst d.
Definition dict_values {V : Type} (d : dict V) : list V := map snd d.

(** ** Floats as rationals *)

Definition Qlt_bool (x y : Q) : bool := negb (Qle_bool y x).

(** [2 ** e] for an integer exponent. *)
Definition pow2 (e : Z) : Q := (2 ^ e)%Q.

(** The magnitude of a positive rational: the [e] with
    [2 ** (e - 1) <= x < 2 ** e]. *)
Definition mag (x : Q) : Z :=
  let k := Z.log2 (Qnum x) - Z.log2 (Zpos (Qden x)) in
  if Qle_bool (pow2 k) x then k + 1 else k.

(** Rounding to the nearest integer, ties to the even one. *)
Definition rne (s : Q) : Z :=
  let f := Qfloor s in
  match (s - inject_Z f ?= 1 # 2)%Q with
  | Lt => f
  | Gt => f + 1
  | Eq => if Z.even f then f else f + 1
  end.

(** The exponent of the last place of the binary64 values around [x]:
    53 significant bits, and [2 ** -1074] as the least place. *)
Definition cexp (x : Q) : Z := Z.max (mag x - 53) (-1074).

(** Rounding to a multiple of [2 ** c]. *)
Definition round_at (c : Z) (x : Q) : Q :=
  (inject_Z (rne (x * pow2 (- c))) * pow2 c)%Q.

Definition round_pos (x : Q) : Q := round_at (cexp x) x.

(** The binary64 value nearest to [x], ties to even, as a reduced
    fraction.  A decimal literal of the source, such as [0.1], is
    [b64 (1 # 10)]. *)
Definition b64 (x : Q) : Q :=
  if Qle_bool x 0 then
    if Qle_bool 0 x then 0%Q else Qred (- round_pos (- x))
  else Qred (round_pos x).

(** The rationals that are binary64 values. *)
Definition binary64 (x : Q) : Prop := b64 x = x.

(** [x + y], [x * y] and [x / y] on floats: the exact result, rounded. *)
Definition fadd (x y : Q) : Q := b64 (x + y).
Definition fmul (x y : Q) : Q := b64 (x * y).
Definition fdiv (x y : Q) : Q := b64 (x / y).

Arguments b64 : simpl never.
Arguments fadd : simpl never.
Arguments fmul : simpl never.
Arguments fdiv : simpl never.

(** [min(a, b)]: the first argument unless the second is strictly smaller. *)
Definition py_min (a b : Q) : Q := if Qlt_bool b a then b else a.

(** [max(xs)] over a non-empty sequence [x :: xs]: a later element replaces
    the current maximum only when strictly larger. *)
Definition py_max (x : Q) (xs : list Q) : Q :=
  fold_left (fun m y => if Qlt_bool m y then y else m) xs x.

(** ** [sorted(l, key=...)]

    Python's sort is stable and compares keys with [<] only. *)
Section Sorted.
Context {A K : Type} (lt : K -> K -> bool) (key : A -> K).

Fixpoint insert_sorted (x : A) (l : list A) : list A :=
  match l with
  | [] => [x]
  | y :: l' =>
      if lt (key y) (key x) then y :: insert_sorted x l' else x :: y :: l'
  end.

Definition sorted (l : list A) : list A := fold_right insert_sorted [] l.
End Sorted.

(** In a list sorted by [key], [x] may stand before [y]: [y]'s key is not
    smaller. *)
Definition not_after {A K : Type} (lt : K -> K -> bool) (key : A -> K)
    (x y : A) : Prop :=
  lt (key y) (key x) = false.

(** Tuple comparison [(a1, a2) < (b1, b2)]: the first components decide
    unless they are equal. *)
Definition tupleZ_lt (a b : Z * Z) : bool :=
  if fst a =? fst b then snd a <? snd b else fst a <? fst b.

Definition tupleQ_lt (a b : Q * Q) : bool :=
  if Qeq_bool (fst a) (fst b) then Qlt_bool (snd a) (snd b)
  else Qlt_bool (fst a) (fst b).

(* ================================================================== *)
(** * models/common.py, models/detection.py *)

Inductive DetectionMode := RULE_MODE | HYBRID.
Inductive MatchType := EXACT | FUZZY.
Inductive DetectionMethod := RULE.
Inductive RiskLevel := LOW | MEDIUM | HIGH | CRITICAL.

Record Position := mkPosition { pos_start : Z; pos_end : Z }.

(** [Position(start=s, end=e)]: both fields are validated [ge=0], then
    [model_post_init] raises [ValueError] when [start >= end]. *)
Definition new_Position (s e : Z) : result Position :=
  if (0 <=? s) && (0 <=? e) then
    if e <=? s then Raise ValueError else Ok (mkPosition s e)
  else Raise PydanticValidationError.

Record DetectionConfig := mkDetectionConfig {
  detection_mode : DetectionMode;
  categories : list str;
  return_positions : bool;
  return_suggestions : bool
}.

Record DetectionRequest := mkDetectionRequest {
  text : str;
  config : DetectionConfig
}.

Record DetectionResultItem := mkDetectionResultItem {
  matched_word : str;
  r_category : str;
  r_match_type : MatchType;
  r_confidence : Q;
  r_positions : list Position;
  r_detection_method : DetectionMethod;
  r_suggestion : option str
}.

(** [DetectionResultItem(...)]: [confidence] is validated [ge=0.0, le=1.0]. *)
Definition new_DetectionResultItem (w c : str) (mt : MatchType) (conf : Q)
    (ps : list Position) (dm : DetectionMethod) (sug : option str)
  : result DetectionResultItem :=
  if Qle_bool 0 conf && Qle_bool conf 1
  then Ok (mkDetectionResultItem w c mt conf ps dm sug)
  else Raise PydanticValidationError.

Record DetectionSummary := mkDetectionSummary {
  total_matches : Z;
  categories_found : list str;
  highest_risk_category : option str
}.

Record DetectionResponse := mkDetectionResponse {
  is_sensitive : bool;
  risk_level : RiskLevel;
  overall_score : Q;
  detection_time_ms : Z;
  detection_mode_used : DetectionMode;
  results : list DetectionResultItem;
  summary : DetectionSummary
}.

(** [DetectionResponse(...)]: [overall_score] in [[0,1]] and
    [detection_time_ms >= 0] are validated. *)
Definition new_DetectionResponse (sens : bool) (rl : RiskLevel) (score : Q)
    (ms : Z) (mode : DetectionMode) (rs : list DetectionResultItem)
    (sm : DetectionSummary) : result DetectionResponse :=
  if Qle_bool 0 score && Qle_bool score 1 && (0 <=? ms)
  then Ok (mkDetectionResponse sens rl score ms mode rs sm)
  else Raise PydanticValidationError.

(* ================================================================== *)
(** * services/result_arbitrator.py *)

Record Hit := mkHit {
  word : str;
  start : Z;
  end_ : Z;
  category : str;
  source : str;
  confidence : Q;
  match_type : MatchType;
  detection_method : DetectionMethod;
  suggestion : option str;
  positions : list Position
}.

(** [Hit(...)] without [positions]: [__post_init__] builds
    [[Position(start, end)]], which validates the span. *)
Definition new_Hit (w : str) (s e : Z) (c src : str) (conf : Q)
    (mt : MatchType) (dm : DetectionMethod) (sug : option str) : result Hit :=
  pos <- new_Position s e ;;
  Ok (mkHit w s e c src conf mt dm sug [pos]).

(** The two weight tables default to [None], modelled as the empty
    table. *)
Record ArbitrationConfig := mkArbitrationConfig {
  enable_max_matching : bool;
  confidence_threshold : Q;
  confidence_boost_factor : Q;
  category_weights : dict Q;
  engine_weights : dict Q
}.

Definition default_engine_weights : dict Q :=
  [ (lit "ExactMatchRule", 1%Q);
    (lit "JiebaRule", b64 (9 # 10));
    (lit "RegexRule", b64 (85 # 100));
    (lit "SemanticRule", b64 (8 # 10));
    (lit "ACAutomatonRule", b64 (95 # 100)) ].

(** [ArbitrationConfig()] *)
Definition default_ArbitrationConfig : ArbitrationConfig :=
  mkArbitrationConfig true (5 # 10) (b64 (1 # 10)) [] [].

(** [DetectionResultArbitrator.__init__]: category weights come from the
    YAML reader when the configuration has none; an empty table of engine
    weights is replaced by the default one. *)
Definition DetectionResultArbitrator_init (cfg : option ArbitrationConfig)
    (yaml_category_weights : option (dict Q)) : ArbitrationConfig :=
  let c := match cfg with Some c => c | None => default_ArbitrationConfig end in
  let cw :=
    match category_weights c, yaml_category_weights with
    | [], Some w => w
    | cw, _ => cw
    end in
  let ew :=
    match engine_weights c with
    | [] => default_engine_weights
    | ew => ew
    end in
  mkArbitrationConfig (enable_max_matching c) (confidence_threshold c)
    (confidence_boost_factor c) cw ew.

Section Arbitrator.
Variable self : ArbitrationConfig.

(** One iteration of the inner loop of [_convert_to_hits]. *)
Definition hits_of_result (rule_name : str) (r : DetectionResultItem)
  : result (list Hit) :=
  let engine_weight := dict_get_default (engine_weights self) rule_name 1%Q in
  let adjusted_confidence := py_min 1 (fmul (r_confidence r) engine_weight) in
  match r_positions r with
  | [] =>
      hit <- new_Hit (matched_word r) 0 (len (matched_word r)) (r_category r)
               rule_name adjusted_confidence (r_match_type r)
               (r_detection_method r) (r_suggestion r) ;;
      Ok [hit]
  | ps =>
      mapM (fun pos =>
              new_Hit (matched_word r) (pos_start pos) (pos_end pos)
                (r_category r) rule_name adjusted_confidence (r_match_type r)
                (r_detection_method r) (r_suggestion r)) ps
  end.

Definition _convert_to_hits (results_by_rule : dict (list DetectionResultItem))
  : result (list Hit) :=
  per_rule <- mapM (fun '(rule_name, rs) =>
                      hs <- mapM (hits_of_result rule_name) rs ;;
                      Ok (concat hs)) results_by_rule ;;
  Ok (concat per_rule).

(** The sort key [(x.start, -x.end)]. *)
Definition merge_key (x : Hit) : Z * Z := (start x, - end_ x).

(** The loop body of [_merge_hits_greedy]; the state is
    [(final_hits, last_accepted_end)]. *)
Definition merge_step (st : list Hit * Z) (hit : Hit) : list Hit * Z :=
  let '(final_hits, last_accepted_end) := st in
  if last_accepted_end <=? start hit
  then (final_hits ++ [hit], end_ hit)
  else (final_hits, last_accepted_end).

Definition _merge_hits_greedy (all_hits : list Hit) : list Hit :=
  match all_hits with
  | [] => []
  | _ =>
      let sorted_hits := sorted tupleZ_lt merge_key all_hits in
      fst (fold_left merge_step sorted_hits ([], -1))
  end.

(** Whether one rule's results count for [hit]: only the first result with
    the hit's word and category is looked at (the loop breaks after it). *)
Definition rule_matches (hit : Hit) (rule_results : list DetectionResultItem)
  : bool :=
  match find (fun rr => str_eqb (matched_word rr) (word hit)
                        && str_eqb (r_category rr) (category hit))
             rule_results with
  | None => false
  | Some rr =>
      match r_positions rr with
      | [] => true
      | ps => existsb (fun pos => Z.abs (pos_start pos - start hit) <=? 2) ps
      end
  end.

Definition match_count (hit : Hit)
    (results_by_rule : dict (list DetectionResultItem)) : Z :=
  fold_left (fun n rule_results =>
               if rule_matches hit rule_results then n + 1 else n)
            (dict_values results_by_rule) 0.

Definition enhance_hit (results_by_rule : dict (list DetectionResultItem))
    (hit : Hit) : result Hit :=
  let n := match_count hit results_by_rule in
  if 1 <? n then
    let boost := fmul (confidence_boost_factor self) (inject_Z (n - 1)) in
    let enhanced_confidence := py_min 1 (fadd (confidence hit) boost) in
    new_Hit (word hit) (start hit) (end_ hit) (category hit) (source hit)
      enhanced_confidence (match_type hit) (detection_method hit)
      (suggestion hit)
  else Ok hit.

Definition _enhance_multi_engine_matches (hits : list Hit)
    (results_by_rule : dict (list DetectionResultItem)) : result (list Hit) :=
  mapM (enhance_hit results_by_rule) hits.

Definition _filter_by_confidence (hits : list Hit) : list Hit :=
  filter (fun hit => Qle_bool (confidence_threshold self) (confidence hit)) hits.

Definition weight_hit (hit : Hit) : result Hit :=
  let weight := dict_get_default (category_weights self) (category hit) 1%Q in
  let weighted_confidence := py_min 1 (fmul (confidence hit) weight) in
  new_Hit (word hit) (start hit) (end_ hit) (category hit) (source hit)
    weighted_confidence (match_type hit) (detection_method hit)
    (suggestion hit).

Definition _apply_category_weights (hits : list Hit) : result (list Hit) :=
  mapM weight_hit hits.

Definition result_of_hit (hit : Hit) : result DetectionResultItem :=
  new_DetectionResultItem (word hit) (category hit) (match_type hit)
    (confidence hit) (positions hit) (detection_method hit) (suggestion hit).

Definition _convert_to_detection_results (hits : list Hit)
  : result (list DetectionResultItem) :=
  mapM result_of_hit hits.

Definition sort_key (r : DetectionResultItem) : Q * Q :=
  let category_weight :=
    dict_get_default (category_weights self) (r_category r) 1%Q in
  (- r_confidence r, - category_weight)%Q.

Definition _sort_results (rs : list DetectionResultItem)
  : list DetectionResultItem :=
  sorted tupleQ_lt sort_key rs.

(** [list(set(...))]: the distinct categories (a Python set fixes no
    order; first occurrences are kept here). *)
Fixpoint distinct (l : list str) : list str :=
  match l with
  | [] => []
  | x :: t => if in_dec str_eq_dec x t then distinct t else x :: distinct t
  end.

Definition _generate_summary (rs : list DetectionResultItem)
  : DetectionSummary :=
  match rs with
  | [] => mkDetectionSummary 0 [] None
  | first :: _ =>
      mkDetectionSummary (len rs) (distinct (map r_category rs))
        (Some (r_category first))
  end.

Definition arbitrate (results_by_rule : dict (list DetectionResultItem))
  : result (list DetectionResultItem * DetectionSummary) :=
  all_hits <- _convert_to_hits results_by_rule ;;
  let merged_hits :=
    if enable_max_matching self then _merge_hits_greedy all_hits
    else all_hits in
  enhanced_hits <- _enhance_multi_engine_matches merged_hits results_by_rule ;;
  let filtered_hits := _filter_by_confidence enhanced_hits in
  weighted_hits <- _apply_category_weights filtered_hits ;;
  final_results <- _convert_to_detection_results weighted_hits ;;
  let final_results := _sort_results final_results in
  let summary := _generate_summary final_results in
  Ok (final_results, summary).

(** [calculate_overall_risk_level]: the score is a float, and every
    [+=] rounds its sum. *)
Definition calculate_overall_risk_level (rs : list DetectionResultItem)
  : RiskLevel :=
  match rs with
  | [] => LOW
  | first :: rest =>
      let max_confidence := py_max (r_confidence first) (map r_confidence rest) in
      let match_count := len rs in
      let weighted_score :=
        fold_left
          (fun score r =>
             let category_weight :=
               dict_get_default (category_weights self) (r_category r) 1%Q in
             if Qle_bool (b64 (9 # 10)) category_weight
             then fadd score (b64 (1 # 10)) else score)
          rs max_confidence in
      let weighted_score :=
        if 5 <=? match_count then fadd weighted_score (b64 (2 # 10))
        else if 3 <=? match_count then fadd weighted_score (b64 (1 # 10))
        else weighted_score in
      if Qle_bool (b64 (9 # 10)) weighted_score then CRITICAL
      else if Qle_bool (b64 (7 # 10)) weighted_score then HIGH
      else if Qle_bool (b64 (5 # 10)) weighted_score then MEDIUM
      else LOW
  end.
End Arbitrator.

(* ================================================================== *)
(** * services/text_processor.py *)

(** [str.isspace] on one code point; the regular expression class [\s]
    uses the same predicate. *)
Definition py_isspace (c : N) : bool :=
  (((9 <=? c) && (c <=? 13)) || ((28 <=? c) && (c <=? 32))
   || (c =? 133) || (c =? 160) || (c =? 5760)
   || ((8192 <=? c) && (c <=? 8202))
   || (c =? 8232) || (c =? 8233) || (c =? 8239) || (c =? 8287)
   || (c =? 12288))%N.

Fixpoint lstrip (s : str) : str :=
  match s with
  | [] => []
  | c :: t => if py_isspace c then lstrip t else s
  end.

Definition rstrip (s : str) : str := rev (lstrip (rev s)).

(** [s.strip()] *)
Definition strip (s : str) : str := rstrip (lstrip s).

(** [re.sub(r'\s+', ' ', s)]; [in_run] tells that the previous code point
    was whitespace already replaced. *)
Fixpoint sub_spaces (in_run : bool) (s : str) : str :=
  match s with
  | [] => []
  | c :: t =>
      if py_isspace c
      then if in_run then sub_spaces true t else 32%N :: sub_spaces true t
      else c :: sub_spaces false t
  end.

Section TextPreprocessor.
(** The OpenCC converter ([opencc.OpenCC('t2s').convert]), [str.lower]
    and the class [\w] are not part of the repository. *)
Variable convert : str -> result str.
Variable lower : str -> str.
Variable isword : N -> bool.

(** The characters kept by the noise filter besides [\w] and [\s]. *)
Definition kept_punctuation (c : N) : bool :=
  (((19968 <=? c) && (c <=? 40959))
   || existsb (N.eqb c)
        [65292; 12290; 65281; 65311; 65307; 65306; 34;
         65288; 65289; 12304; 12305; 12298; 12299])%N.

Definition normalize (text : str) (remove_noise : bool) : str :=
  match text with
  | [] => []
  | _ =>
      match convert text with
      | Raise _ => text
      | Ok text =>
          let text := lower text in
          let text := strip (sub_spaces false text) in
          if remove_noise
          then filter (fun c => isword c || py_isspace c || kept_punctuation c)
                      text
          else text
      end
  end.
End TextPreprocessor.

(** [text[i]] *)
Definition py_getitem (s : str) (i : Z) : result N :=
  let j := if i <? 0 then i + len s else i in
  if (j <? 0) || (len s <=? j) then Raise IndexError
  else match nth_error s (Z.to_nat j) with
       | Some c => Ok c
       | None => Raise IndexError
       end.

(** A slice bound brought into [0 .. len s]. *)
Definition slice_bound (s : str) (i : Z) : Z :=
  if i <? 0 then Z.max (i + len s) 0 else Z.min i (len s).

(** [text[lo:hi]] *)
Definition py_slice (s : str) (lo hi : Z) : str :=
  let lo' := slice_bound s lo in
  let hi' := slice_bound s hi in
  firstn (Z.to_nat (hi' - lo')) (skipn (Z.to_nat lo') s).

(** Membership in the string of U+3002, U+FF01, U+FF1F and the newline. *)
Definition sentence_end (c : N) : bool :=
  ((c =? 12290) || (c =? 65281) || (c =? 65311) || (c =? 10))%N.

(** [for i in range(i, i - steps, -1)]: the new [end] when a sentence end is
    found. *)
Fixpoint find_split (text : str) (i : Z) (steps : nat) : result (option Z) :=
  match steps with
  | O => Ok None
  | S n =>
      c <- py_getitem text i ;;
      if sentence_end c then Ok (Some (i + 1)) else find_split text (i - 1) n
  end.

(** The [while] loop of [split_text]; [None] when the fuel runs out. *)
Fixpoint split_loop (fuel : nat) (text : str) (max_length start : Z)
    (chunks : list str) : option (result (list str)) :=
  if start <? len text then
    match fuel with
    | O => None
    | S fuel' =>
        let end0 := start + max_length in
        let found :=
          if end0 <? len text
          then find_split text end0
                 (Z.to_nat (end0 - (start + max_length / 2)))
          else Ok None in
        match found with
        | Raise e => Some (Raise e)
        | Ok o =>
            let end1 := match o with Some e => e | None => end0 end in
            split_loop fuel' text max_length end1
              (chunks ++ [py_slice text start end1])
        end
    end
  else Some (Ok chunks).

Definition split_text (fuel : nat) (text : str) (max_length : Z)
  : option (result (list str)) :=
  if len text <=? max_length then Some (Ok [text])
  else split_loop fuel text max_length 0 [].

(* ================================================================== *)
(** * services/yaml_config_reader.py *)

Record WordlistConfig := mkWordlistConfig {
  name : str;
  file : str;
  wl_enabled : bool;
  weight : Z;
  _words : option (list str)
}.

(** What opening a word-list file gives: [None] when the file does not
    exist, an exception when reading fails, otherwise the decoded text. *)
Definition filesystem := str -> option (result str).

(** Iterating a text file: lines keep their terminating newline. *)
Fixpoint file_lines (cur : str) (content : str) : list str :=
  match content with
  | [] => match cur with [] => [] | _ => [rev cur] end
  | c :: t =>
      if (c =? 10)%N then rev (c :: cur) :: file_lines [] t
      else file_lines (c :: cur) t
  end.

(** Truth value of a sequence. *)
Definition nonempty {A : Type} (s : list A) : bool :=
  match s with [] => false | _ => true end.

(** [WordlistConfig.load_words]: the words, and the entry with its cache. *)
Definition load_words (self : WordlistConfig) (fs : filesystem)
  : list str * WordlistConfig :=
  match _words self with
  | Some ws => (ws, self)
  | None =>
      match fs (file self) with
      | None => ([], self)
      | Some (Raise _) => ([], self)
      | Some (Ok content) =>
          let words :=
            map strip
              (filter (fun line => nonempty (strip line))
                 (file_lines [] content)) in
          (words,
           mkWordlistConfig (name self) (file self) (wl_enabled self)
             (weight self) (Some words))
      end
  end.

Definition get_normalized_weight (self : WordlistConfig) : Q :=
  fdiv (inject_Z (weight self)) 100.

Definition get_enabled_wordlists (wordlists : list WordlistConfig)
  : list WordlistConfig :=
  filter wl_enabled wordlists.

Definition get_category_weights (wordlists : list WordlistConfig) : dict Q :=
  fold_left (fun weights wl => dict_set weights (name wl) (get_normalized_weight wl))
    wordlists [].

(** [s.startswith('#')] *)
Definition startswith_hash (s : str) : bool :=
  match s with
  | c :: _ => (c =? 35)%N
  | [] => false
  end.

(* ================================================================== *)
(** * services/rule_detector.py *)

(** The entries [RuleBasedDetector.load_wordlists] adds to its automaton:
    [(normalized_word, (word, category))], in order.  Empty words and words
    starting with ['#'] are skipped. *)
Definition rule_detector_load_wordlists
    (convert : str -> result str) (lower : str -> str)
    (wordlists : list WordlistConfig) (fs : filesystem)
  : list (str * (str * str)) :=
  flat_map
    (fun wordlist_config =>
       let category := name wordlist_config in
       let words := fst (load_words wordlist_config fs) in
       flat_map
         (fun word =>
            if nonempty word && negb (startswith_hash word) then
              let normalized_word :=
                normalize convert lower (fun _ => false) word false in
              if nonempty normalized_word
              then [(normalized_word, (word, category))] else []
            else [])
         words)
    (get_enabled_wordlists wordlists).

(* ================================================================== *)
(** * services/enhanced_detection_service.py *)

(** A detection rule as the service sees it: [rule_config.rule_type],
    [enabled] and [detect]. *)
Record BaseDetectionRule := mkRule {
  rule_type : str;
  enabled : bool;
  detect : str -> DetectionConfig -> result (list DetectionResultItem)
}.

Record EnhancedDetectionService := mkService {
  max_text_length : Z;
  wordlists : list WordlistConfig;
  arbitrator : ArbitrationConfig;
  rules : dict BaseDetectionRule;
  request_count : Z
}.

(** One iteration of the loop over enabled word lists in
    [_load_wordlists_for_rules]. *)
Definition add_wordlist (fs : filesystem) (words_by_category : dict (list str))
    (wordlist_config : WordlistConfig) : dict (list str) :=
  let category := name wordlist_config in
  let words := fst (load_words wordlist_config fs) in
  let words_by_category :=
    match dict_get words_by_category category with
    | None => dict_set words_by_category category []
    | Some _ => words_by_category
    end in
  dict_set words_by_category category
    (dict_get_default words_by_category category [] ++ words).

(** [_load_wordlists_for_rules]: for every rule, the [words_by_category]
    handed to its [load_wordlist].  (The cache of [load_words] only saves
    reading a file again: the words are the same for every rule.) *)
Definition _load_wordlists_for_rules (self : EnhancedDetectionService)
    (fs : filesystem) : list (str * dict (list str)) :=
  map (fun '(rule_name, _) =>
         (rule_name,
          fold_left (add_wordlist fs) (get_enabled_wordlists (wordlists self)) []))
      (rules self).

(** [_get_rules_for_mode].  [DetectionMode] has the members [RULE] and
    [HYBRID] only, so for a mode other than [RULE] the test against
    [DetectionMode.SEMANTIC] raises [AttributeError]. *)
Definition _get_rules_for_mode (self : EnhancedDetectionService)
    (mode : DetectionMode) : result (dict BaseDetectionRule) :=
  match mode with
  | RULE_MODE =>
      Ok (filter (fun '(_, rule) => negb (str_eqb (rule_type rule) (lit "semantic")))
                 (rules self))
  | HYBRID => Raise AttributeError
  end.

(** The record of one call of a rule's [detect]: the rule's name and
    whether the call returned. *)
Definition call := (str * bool)%type.

(** One iteration of the loop of [_execute_multi_rule_detection]; the state
    is [results_by_rule] and the calls made so far. *)
Definition run_rule (request : DetectionRequest)
    (st : dict (list DetectionResultItem) * list call)
    (entry : str * BaseDetectionRule)
  : dict (list DetectionResultItem) * list call :=
  let '(results_by_rule, calls) := st in
  let '(rule_name, rule) := entry in
  if negb (enabled rule) then st
  else
    match detect rule (text request) (config request) with
    | Ok rs => (dict_set results_by_rule rule_name rs, calls ++ [(rule_name, true)])
    | Raise _ => (dict_set results_by_rule rule_name [], calls ++ [(rule_name, false)])
    end.

Definition _execute_multi_rule_detection (self : EnhancedDetectionService)
    (request : DetectionRequest)
  : result (dict (list DetectionResultItem)) * list call :=
  match _get_rules_for_mode self (detection_mode (config request)) with
  | Raise e => (Raise e, [])
  | Ok rules_to_use =>
      let '(results_by_rule, calls) :=
        fold_left (run_rule request) rules_to_use ([], []) in
      (Ok results_by_rule, calls)
  end.

(** The part of [detect] after the rules have run. *)
Definition build_response (self : EnhancedDetectionService)
    (request : DetectionRequest) (elapsed_ms : Z)
    (results_by_rule : dict (list DetectionResultItem))
  : result DetectionResponse :=
  fs <- arbitrate (arbitrator self) results_by_rule ;;
  let '(final_results, summary) := fs in
  let risk_level := calculate_overall_risk_level (arbitrator self) final_results in
  let overall_score :=
    match final_results with
    | [] => 0%Q
    | first :: rest => py_max (r_confidence first) (map r_confidence rest)
    end in
  new_DetectionResponse (nonempty final_results) risk_level overall_score
    elapsed_ms (detection_mode (config request)) final_results summary.

(** [EnhancedDetectionService.detect]: the outcome, the service afterwards
    and the calls of rules made.  [elapsed_ms] is the time the clock
    measures for the request.  Every exception leaves as a
    [DetectionError]. *)
Definition service_detect (self : EnhancedDetectionService)
    (request : DetectionRequest) (elapsed_ms : Z)
  : result DetectionResponse * EnhancedDetectionService * list call :=
  let self' :=
    mkService (max_text_length self) (wordlists self) (arbitrator self)
      (rules self) (request_count self + 1) in
  let '(outcome, calls) :=
    if max_text_length self <? len (text request) then
      (Raise (DetectionError
                (TextTooLong (len (text request)) (max_text_length self))), [])
    else
      let '(rbr, calls) := _execute_multi_rule_detection self request in
      (results_by_rule <- rbr ;;
       build_response self request elapsed_ms results_by_rule, calls) in
  match outcome with
  | Ok response => (Ok response, self', calls)
  | Raise e => (Raise (DetectionError (DetectFailed e)), self', calls)
  end.

(* ================================================================== *)
(** * Reference algorithms, as the specification words them *)

(** "Sort all Hits by (start ascending, end descending)": [a] goes strictly
    before [b]. *)
Definition spec_before (a b : Hit) : bool :=
  (start a <? start b) || ((start a =? start b) && (end_ b <? end_ a)).

(** "Scan left to right keeping last_accepted_end; accept a Hit iff
    hit.start >= last_accepted_end, then set last_accepted_end = hit.end;
    otherwise discard it." *)
Fixpoint spec_scan (last_accepted_end : Z) (hits : list Hit) : list Hit :=
  match hits with
  | [] => []
  | hit :: rest =>
      if last_accepted_end <=? start hit
      then hit :: spec_scan (end_ hit) rest
      else spec_scan last_accepted_end rest
  end.

Definition spec_merge (hits : list Hit) : list Hit :=
  spec_scan (-1) (sorted spec_before (fun h => h) hits).

(** The order of the sort keys: [b] is not smaller than [a]. *)
Definition key_le (a b : Z * Z) : Prop := tupleZ_lt b a = false.

(** Two spans overlap: [a.start < b.end && b.start < a.end]. *)
Definition overlap (a b : Position) : Prop :=
  pos_start a < pos_end b /\ pos_start b < pos_end a.

(** The risk score in the specification's words: the largest confidence,
    plus 0.1 for each result of a category weighing at least 0.9, plus the
    bonus for many matches. *)
Fixpoint Qmax_list (l : list Q) : Q :=
  match l with
  | [] => 0%Q
  | [x] => x
  | x :: t => Qmax x (Qmax_list t)
  end.

Definition spec_max_confidence (rs : list DetectionResultItem) : Q :=
  Qmax_list (map r_confidence rs).

Definition spec_high_weight (cfg : ArbitrationConfig) (r : DetectionResultItem)
  : bool :=
  Qle_bool (9 # 10)
    (match dict_get (category_weights cfg) (r_category r) with
     | Some w => w
     | None => 1%Q
     end).

Definition spec_score (cfg : ArbitrationConfig) (rs : list DetectionResultItem)
  : Q :=
  (spec_max_confidence rs
   + (1 # 10) * inject_Z (len (filter (spec_high_weight cfg) rs))
   + (if 5 <=? len rs then 2 # 10 else if 3 <=? len rs then 1 # 10 else 0))%Q.

Definition spec_level (score : Q) : RiskLevel :=
  if Qle_bool (9 # 10) score then CRITICAL
  else if Qle_bool (7 # 10) score then HIGH
  else if Qle_bool (5 # 10) score then MEDIUM
  else LOW.

Definition spec_risk_level (cfg : ArbitrationConfig)
    (rs : list DetectionResultItem) : RiskLevel :=
  match rs with
  | [] => LOW
  | _ => spec_level (spec_score cfg rs)
  end.

(** The amended wording of the risk score: the same sum carried out in
    floats.  Starting from the largest confidence, 0.1 is added once per
    result of a category weighing at least 0.9 and then the bonus for many
    matches, each sum rounded to binary64; the thresholds are the floats
    0.9, 0.7 and 0.5. *)
Definition spec_float_high_weight (cfg : ArbitrationConfig)
    (r : DetectionResultItem) : bool :=
  Qle_bool (b64 (9 # 10))
    (match dict_get (category_weights cfg) (r_category r) with
     | Some w => w
     | None => 1%Q
     end).

Definition spec_float_score (cfg : ArbitrationConfig)
    (rs : list DetectionResultItem) : Q :=
  let heavy := List.length (filter (spec_float_high_weight cfg) rs) in
  let score :=
    Nat.iter heavy (fun s => fadd s (b64 (1 # 10))) (spec_max_confidence rs) in
  if 5 <=? len rs then fadd score (b64 (2 # 10))
  else if 3 <=? len rs then fadd score (b64 (1 # 10))
  else score.

Definition spec_float_level (score : Q) : RiskLevel :=
  if Qle_bool (b64 (9 # 10)) score then CRITICAL
  else if Qle_bool (b64 (7 # 10)) score then HIGH
  else if Qle_bool (b64 (5 # 10)) score then MEDIUM
  else LOW.

Definition spec_float_risk_level (cfg : ArbitrationConfig)
    (rs : list DetectionResultItem) : RiskLevel :=
  match rs with
  | [] => LOW
  | _ => spec_float_level (spec_float_score cfg rs)
  end.

(** Scenario C of the specification: ["abc"] at [[0,3)] with confidence 0.6
    and ["abcd"] at [[0,4)] with confidence 0.5, from different rules. *)
Definition scenario_C_abc : Hit :=
  mkHit (lit "abc") 0 3 (lit "test") (lit "rule_a") (6 # 10) EXACT RULE None
    [mkPosition 0 3].

Definition scenario_C_abcd : Hit :=
  mkHit (lit "abcd") 0 4 (lit "test") (lit "rule_b") (5 # 10) EXACT RULE None
    [mkPosition 0 4].

(** A hit carries the one position its constructor derived from its span. *)
Definition hit_wf (h : Hit) : Prop :=
  positions h = [mkPosition (start h) (end_ h)].

(** Two hits with well-formed positions, the first ending before the
    second starts. *)
Definition ordered_hits (a b : Hit) : Prop :=
  hit_wf a /\ hit_wf b /\ end_ a <= start b.

(** The hits that enter the later stages: the flattened hits, merged when
    merging is enabled. *)
Definition merged_hits_of (cfg : ArbitrationConfig) (all_hits : list Hit)
  : list Hit :=
  if enable_max_matching cfg then _merge_hits_greedy all_hits else all_hits.

(** Two result items overlap when some span of one overlaps some span of
    the other. *)
Definition item_overlap (a b : DetectionResultItem) : Prop :=
  exists pa pb,
    In pa (r_positions a) /\ In pb (r_positions b) /\ overlap pa pb.

(* ================================================================== *)
(** * Sample inputs *)

(** An item of category ["test"] with one span; its confidence is the
    float written as the decimal [conf]. *)
Definition sample_item (w : string) (conf : Q) (s e : Z) : DetectionResultItem :=
  mkDetectionResultItem (lit w) (lit "test") EXACT (b64 conf) [mkPosition s e]
    RULE None.

(** The configuration the service uses: defaults, no YAML weights. *)
Definition sample_config : ArbitrationConfig :=
  DetectionResultArbitrator_init None None.

(** Two rules; the first two hits overlap, the third stands apart. *)
Definition sample_results_by_rule : dict (list DetectionResultItem) :=
  [ (lit "rule_a", [sample_item "abc" (6 # 10) 0 3]);
    (lit "rule_b", [sample_item "abcd" (5 # 10) 0 4;
                    sample_item "xyz" (9 # 10) 10 13]) ].

Definition sample_final_results : list DetectionResultItem :=
  [ sample_item "xyz" (9 # 10) 10 13; sample_item "abcd" (5 # 10) 0 4 ].

Definition sample_summary : DetectionSummary :=
  mkDetectionSummary 2 [lit "test"] (Some (lit "test")).

(** Three results of confidence 0.5, a value that binary64 holds
    exactly, in a category without a configured weight. *)
Definition three_at_half : list DetectionResultItem :=
  [ sample_item "abc" (5 # 10) 0 3; sample_item "def" (5 # 10) 4 7;
    sample_item "xyz" (5 # 10) 10 13 ].

(** Two results of confidence 0.7. *)
Definition two_at_0_7 : list DetectionResultItem :=
  [ sample_item "abc" (7 # 10) 0 3; sample_item "xyz" (7 # 10) 10 13 ].

(** A configuration with the threshold 0.8, and one in which the sample
    category weighs 0.5. *)
Definition strict_config : ArbitrationConfig :=
  mkArbitrationConfig true (b64 (8 # 10)) (b64 (1 # 10)) [] [].

Definition light_config : ArbitrationConfig :=
  mkArbitrationConfig true (5 # 10) (b64 (1 # 10)) [(lit "test", 1 # 2)] [].

(** The same word and category at the same span, reported by two rules
    with confidence 0.7 each. *)
Definition two_rules_at_0_7 : dict (list DetectionResultItem) :=
  [ (lit "rule_a", [sample_item "abc" (7 # 10) 0 3]);
    (lit "rule_b", [sample_item "abc" (7 # 10) 0 3]) ].

(** A confidence within the closed interval [[0, 1]]. *)
Definition in_unit (q : Q) : Prop := (0 <= q <= 1)%Q.

(** Every weight a table holds is non-negative. *)
Definition nonneg_weights (d : dict Q) : Prop :=
  forall k v, dict_get d k = Some v -> (0 <= v)%Q.

(** The per-rule input as the rules build it: confidences within [[0,1]],
    spans [0 <= start < end], and a word for every item without spans. *)
Definition valid_item (r : DetectionResultItem) : Prop :=
  in_unit (r_confidence r)
  /\ Forall (fun p => 0 <= pos_start p < pos_end p) (r_positions r)
  /\ (r_positions r = [] -> matched_word r <> []).

Definition valid_input (rbr : dict (list DetectionResultItem)) : Prop :=
  Forall (fun entry => Forall valid_item (snd entry)) rbr.

(** Every item of the per-rule input has its confidence within [[0,1]]. *)
Definition unit_confidences (rbr : dict (list DetectionResultItem)) : Prop :=
  Forall (fun entry => Forall (fun r => in_unit (r_confidence r)) (snd entry)) rbr.

(** What the stages after the merge make of one surviving hit: boosted,
    dropped below the threshold ([None]) or weighted and converted. *)
Definition hit_outcome (cfg : ArbitrationConfig)
    (rbr : dict (list DetectionResultItem)) (h : Hit)
  : result (option DetectionResultItem) :=
  enhanced <- enhance_hit cfg rbr h ;;
  if Qle_bool (confidence_threshold cfg) (confidence enhanced) then
    weighted <- weight_hit cfg enhanced ;;
    r <- result_of_hit weighted ;;
    Ok (Some r)
  else Ok None.

(** The same word and category at the same span, reported by two rules
    with confidences 0.6 and 0.9. *)
Definition corroborated_results_by_rule : dict (list DetectionResultItem) :=
  [ (lit "rule_a", [sample_item "abc" (6 # 10) 0 3]);
    (lit "rule_b", [sample_item "abc" (9 # 10) 0 3]) ].

Definition rule_a_alone : dict (list DetectionResultItem) :=
  [ (lit "rule_a", [sample_item "abc" (6 # 10) 0 3]) ].

Definition rule_b_alone : dict (list DetectionResultItem) :=
  [ (lit "rule_b", [sample_item "abc" (9 # 10) 0 3]) ].

(** The hit of [rule_a] in the two inputs above that contain it. *)
Definition rule_a_hit : Hit :=
  mkHit (lit "abc") 0 3 (lit "test") (lit "rule_a") (b64 (6 # 10)) EXACT RULE
    None [mkPosition 0 3].

(** A text with two sentence ends: ["ab"], U+3002, ["cdefg"], a newline,
    ["hi"]. *)
Definition sample_text : str :=
  lit "ab" ++ [12290%N] ++ lit "cdefg" ++ [10%N] ++ lit "hi".

(** ** Whitespace normal form *)

(** Whitespace occurs only as single spaces; [prev_space] tells that the
    code point before the list was a space. *)
Fixpoint single_spaced (prev_space : bool) (l : str) : Prop :=
  match l with
  | [] => True
  | c :: t =>
      if py_isspace c
      then c = 32%N /\ prev_space = false /\ single_spaced true t
      else single_spaced false t
  end.

(** The list does not begin with whitespace. *)
Definition no_lead (l : str) : Prop :=
  match l with
  | [] => True
  | c :: _ => py_isspace c = false
  end.

(** ** Stand-ins for the external string functions *)

(** Lower-casing of the ASCII letters. *)
Definition ascii_lower (s : str) : str :=
  map (fun c => if ((65 <=? c) && (c <=? 90))%N then (c + 32)%N else c) s.

(** A converter that replaces code points one by one according to a
    table. *)
Definition table_convert (table : list (N * N)) (s : str) : result str :=
  Ok (map (fun c =>
             match find (fun p => (fst p =? c)%N) table with
             | Some p => snd p
             | None => c
             end) s).

(** U+570B to U+56FD. *)
Definition one_entry_table : list (N * N) := [(22283, 22269)]%N.

(** A table with a chain: U+85B4 to U+82E7 and U+82E7 to U+82CE. *)
Definition chain_table : list (N * N) := [(34228, 33511); (33511, 33486)]%N.

(** ** A sample service *)

(** A word-list file with a comment line, a word and a blank line. *)
Definition sample_wordlist_text : str :=
  lit "# comment" ++ [10%N] ++ lit "badword" ++ [10%N] ++ [10%N].

Definition sample_filesystem : filesystem :=
  fun path =>
    if str_eq_dec path (lit "wordlists/test.txt")
    then Some (Ok sample_wordlist_text) else None.

Definition sample_wordlist : WordlistConfig :=
  mkWordlistConfig (lit "test") (lit "wordlists/test.txt") true 100 None.

Definition rule_returning (rs : list DetectionResultItem) : BaseDetectionRule :=
  mkRule (lit "exact") true (fun _ _ => Ok rs).

Definition rule_raising : BaseDetectionRule :=
  mkRule (lit "regex") true (fun _ _ => Raise (OtherException 1)).

(** Two healthy rules around one whose [detect] raises. *)
Definition sample_service : EnhancedDetectionService :=
  mkService 10000 [sample_wordlist] sample_config
    [ (lit "default_exact", rule_returning [sample_item "abc" (6 # 10) 0 3]);
      (lit "broken", rule_raising);
      (lit "default_jieba", rule_returning [sample_item "xyz" (9 # 10) 10 13]) ]
    0.

Definition sample_request : DetectionRequest :=
  mkDetectionRequest (lit "abc and then xyz")
    (mkDetectionConfig RULE_MODE [] true false).

(** The same service with a limit of five characters. *)
Definition strict_service : EnhancedDetectionService :=
  mkService 5 [sample_wordlist] sample_config (rules sample_service) 0.

(** The service after one more request. *)
Definition counted (self : EnhancedDetectionService) : EnhancedDetectionService :=
  mkService (max_text_length self) (wordlists self) (arbitrator self)
    (rules self) (request_count self + 1).

(** What a rule contributes to [results_by_rule]: its results, or nothing
    when its [detect] raises. *)
Definition contribution (request : DetectionRequest) (rule : BaseDetectionRule)
  : list DetectionResultItem :=
  match detect rule (text request) (config request) with
  | Ok rs => rs
  | Raise _ => []
  end.

Definition returned (request : DetectionRequest) (rule : BaseDetectionRule)
  : bool :=
  match detect rule (text request) (config request) with
  | Ok _ => true
  | Raise _ => false
  end.

(* ================================================================== *)
(** * Further functions of the cited files *)

(** ** services/text_processor.py, services/rule_engine.py *)

(** The class of noise characters
    [[\s\.\*_\-\+\|\\\/\[\]{}()...]]: whitespace, the ASCII punctuation
    [. * _ - + | \ / [ ] { } ( )], the double quote, and the full-width
    brackets U+FF08, U+FF09, U+3010, U+3011, U+300A, U+300B.  (The
    pattern is written as two adjacent string literals, so the single
    quote is not part of the class.) *)
Definition is_noise (c : N) : bool :=
  py_isspace c
  || existsb (N.eqb c)
       [46; 42; 95; 45; 43; 124; 92; 47; 91; 93; 123; 125; 40; 41;
        65288; 65289; 12304; 12305; 12298; 12299; 34]%N.

(** [re.sub(noise_chars, '', text)] *)
Definition remove_noise_chars (text : str) : str :=
  filter (fun c => negb (is_noise c)) text.

(** [TextPreprocessor.clean_for_matching] *)
Definition clean_for_matching (text : str) : str :=
  match text with
  | [] => []
  | _ => remove_noise_chars text
  end.

(** [s.startswith(p)] *)
Fixpoint startswith (s p : str) : bool :=
  match p, s with
  | [], _ => true
  | _ :: _, [] => false
  | a :: p', b :: s' => (a =? b)%N && startswith s' p'
  end.

(** The lowest index, counted from [i], at which [sub] starts in [l];
    [-1] when there is none. *)
Fixpoint find_from (l sub : str) (i : Z) : Z :=
  if startswith l sub then i
  else match l with
       | [] => -1
       | _ :: t => find_from t sub (i + 1)
       end.

(** [s.find(sub, start)] *)
Definition py_find (s sub : str) (start : Z) : Z :=
  let start := if start <? 0 then Z.max (start + len s) 0 else start in
  if len s <? start then -1
  else find_from (skipn (Z.to_nat start) s) sub start.

(** The categories a rule checks: [config.categories or list(keys)]. *)
Definition categories_to_check {V : Type} (config : DetectionConfig)
    (d : dict V) : list str :=
  match categories config with
  | [] => dict_keys d
  | cs => cs
  end.

Section JiebaRule.
(** [str.lower] and the segmenter [jieba.cut(text, cut_all, HMM)] are not
    part of the repository. *)
Variable lower : str -> str.
Variable cut : str -> bool -> bool -> list str.

(** The state of a [JiebaRule]: its word sets and its three options. *)
Record JiebaRule := mkJiebaRule {
  word_sets : dict (list str);
  use_hmm : bool;
  cut_all : bool;
  jieba_case_sensitive : bool
}.

(** [JiebaRule.preprocess_text] *)
Definition jieba_preprocess_text (self : JiebaRule) (text : str) : str :=
  if jieba_case_sensitive self then text else lower text.

(** The body of the loop over [categories_to_check] for one token: the
    results it appends. *)
Definition jieba_check_category (self : JiebaRule) (config : DetectionConfig)
    (processed_text word : str) (current_pos : Z) (category : str)
  : result (list DetectionResultItem) :=
  match dict_get (word_sets self) category with
  | None => Ok []
  | Some word_set =>
      if in_dec str_eq_dec word word_set then
        let start_pos := py_find processed_text word current_pos in
        if start_pos =? -1 then Ok []
        else
          let end_pos := start_pos + len word - 1 in
          ps <- (if return_positions config
                 then p <- new_Position start_pos (end_pos + 1) ;; Ok [p]
                 else Ok []) ;;
          r <- new_DetectionResultItem word category EXACT (b64 (9 # 10)) ps RULE
                 (if return_suggestions config then Some (lit "***") else None) ;;
          Ok [r]
      else Ok []
  end.

(** The loop over the tokens; the state is [current_pos] and [results]. *)
Fixpoint jieba_scan (self : JiebaRule) (config : DetectionConfig)
    (processed_text : str) (categories_to_check : list str)
    (word_list : list str) (current_pos : Z)
  : result (list DetectionResultItem) :=
  match word_list with
  | [] => Ok []
  | word :: rest =>
      if nonempty (strip word) then
        found <- mapM (jieba_check_category self config processed_text word
                         current_pos) categories_to_check ;;
        later <- jieba_scan self config processed_text categories_to_check
                   rest (current_pos + len word) ;;
        Ok (concat found ++ later)
      else
        jieba_scan self config processed_text categories_to_check rest
          (current_pos + len word)
  end.

(** [JiebaRule.detect] *)
Definition jieba_detect (self : JiebaRule) (text : str)
    (config : DetectionConfig) : result (list DetectionResultItem) :=
  if nonempty (strip text) then
    let processed_text := jieba_preprocess_text self text in
    let word_list := cut processed_text (cut_all self) (use_hmm self) in
    jieba_scan self config processed_text
      (categories_to_check config (word_sets self)) word_list 0
  else Ok [].
End JiebaRule.

Section RegexRule.
(** Compiled patterns and [pattern.finditer] belong to the [re] module;
    a match is its [group()], [start()] and [end()]. *)
Variable Pattern : Type.
Variable finditer : Pattern -> str -> list (str * Z * Z).
Variable lower : str -> str.

(** The body of the loop over the matches.  Building the result item
    evaluates [MatchType.REGEX]; [MatchType] has the members [EXACT] and
    [FUZZY] only, so this raises [AttributeError]. *)
Definition regex_result_of_match (category : str) (m : str * Z * Z)
  : result DetectionResultItem :=
  Raise AttributeError.

(** [RegexRule.detect]; [patterns] maps a category to its compiled
    patterns. *)
Definition regex_detect (patterns : dict (list Pattern))
    (case_sensitive : bool) (text : str) (config : DetectionConfig)
  : result (list DetectionResultItem) :=
  if nonempty (strip text) then
    let processed_text := if case_sensitive then text else lower text in
    per_category <-
      mapM (fun category =>
              match dict_get patterns category with
              | None => Ok []
              | Some pattern_list =>
                  per_pattern <-
                    mapM (fun pattern =>
                            mapM (regex_result_of_match category)
                                 (finditer pattern processed_text))
                         pattern_list ;;
                  Ok (concat per_pattern)
              end) (categories_to_check config patterns) ;;
    Ok (concat per_category)
  else Ok [].
(** Whether some pattern of a checked category has a match in the
    processed text. *)
Definition regex_has_match (patterns : dict (list Pattern))
    (cats : list str) (processed_text : str) : bool :=
  existsb (fun category =>
             match dict_get patterns category with
             | None => false
             | Some pattern_list =>
                 existsb (fun pattern =>
                            nonempty (finditer pattern processed_text))
                         pattern_list
             end) cats.
End RegexRule.

(** ** services/yaml_config_reader.py *)

(** [WordlistConfig.reload_words] *)
Definition reload_words (self : WordlistConfig) (fs : filesystem)
  : list str * WordlistConfig :=
  load_words
    (mkWordlistConfig (name self) (file self) (wl_enabled self) (weight self)
       None) fs.

(** [YamlConfigReader.get_wordlist_by_name] *)
Definition get_wordlist_by_name (wordlists : list WordlistConfig) (n : str)
  : option WordlistConfig :=
  find (fun wl => str_eqb (name wl) n) wordlists.

(** [YamlConfigReader.get_all_words] *)
Definition get_all_words (wordlists : list WordlistConfig) (fs : filesystem)
  : dict (list str) :=
  fold_left (fun all_words wordlist =>
               dict_set all_words (name wordlist) (fst (load_words wordlist fs)))
    (get_enabled_wordlists wordlists) [].

(** [list(dict.fromkeys(l))]: duplicates dropped, first occurrences kept
    in order; [seen] holds the keys already met. *)
Fixpoint fromkeys (seen : list str) (l : list str) : list str :=
  match l with
  | [] => []
  | x :: t =>
      if in_dec str_eq_dec x seen then fromkeys seen t
      else x :: fromkeys (x :: seen) t
  end.

(** [YamlConfigReader.get_flattened_words] *)
Definition get_flattened_words (wordlists : list WordlistConfig)
    (fs : filesystem) : list str :=
  fromkeys []
    (flat_map (fun wordlist => fst (load_words wordlist fs))
       (get_enabled_wordlists wordlists)).

(** ** services/detection_service.py *)

(** The key [(result.matched_word, result.category)]. *)
Definition result_key (r : DetectionResultItem) : str * str :=
  (matched_word r, r_category r).

Definition key_eq_dec : forall a b : str * str, {a = b} + {a <> b}.
Proof. decide equality; apply str_eq_dec. Defined.

(** The inner loop over [unique_results] for a repeated key: the first
    entry with the key is replaced when the new result is more confident. *)
Fixpoint replace_if_better (result : DetectionResultItem)
    (unique_results : list DetectionResultItem) : list DetectionResultItem :=
  match unique_results with
  | [] => []
  | existing :: rest =>
      if key_eq_dec (result_key existing) (result_key result) then
        if Qlt_bool (r_confidence existing) (r_confidence result)
        then result :: rest else existing :: rest
      else existing :: replace_if_better result rest
  end.

(** The loop body of [_merge_and_deduplicate_results]; the state is
    [(seen, unique_results)]. *)
Definition dedup_step (st : list (str * str) * list DetectionResultItem)
    (result : DetectionResultItem)
  : list (str * str) * list DetectionResultItem :=
  let '(seen, unique_results) := st in
  let key := result_key result in
  if in_dec key_eq_dec key seen
  then (seen, replace_if_better result unique_results)
  else (key :: seen, unique_results ++ [result]).

(** [SensitiveWordDetectionService._merge_and_deduplicate_results]; the
    final [sort(key=confidence, reverse=True)] is stable. *)
Definition _merge_and_deduplicate_results (rs : list DetectionResultItem)
  : list DetectionResultItem :=
  match rs with
  | [] => []
  | _ =>
      let unique_results := snd (fold_left dedup_step rs ([], [])) in
      sorted (fun a b => Qlt_bool b a) r_confidence unique_results
  end.

(** [SensitiveWordDetectionService._calculate_risk_level] *)
Definition _calculate_risk_level (overall_score : Q)
    (rs : list DetectionResultItem) : RiskLevel :=
  match rs with
  | [] => LOW
  | _ =>
      if Qle_bool (b64 (9 # 10)) overall_score || (5 <=? len rs) then CRITICAL
      else if Qle_bool (b64 (7 # 10)) overall_score || (3 <=? len rs) then HIGH
      else if Qle_bool (b64 (5 # 10)) overall_score || (1 <=? len rs) then MEDIUM
      else LOW
  end.

(** ** Orders and relations used in the statements below *)

(** [a] may stand before [b] in the sorted results: more confident, or as
    confident with a category that weighs at least as much. *)
Definition ranked_before (cfg : ArbitrationConfig) (a b : DetectionResultItem)
  : Prop :=
  (r_confidence b < r_confidence a)%Q
  \/ ((r_confidence a == r_confidence b)%Q
      /\ (dict_get_default (category_weights cfg) (r_category b) 1
          <= dict_get_default (category_weights cfg) (r_category a) 1)%Q).

(** A word-list table whose weights lie within 0 .. 100, as the
    configuration format has them. *)
Definition weights_in_range (wordlists : list WordlistConfig) : Prop :=
  Forall (fun wl => 0 <= weight wl <= 100) wordlists.


(** A second sample word list, disabled, and one with surrounding blanks. *)
Definition disabled_wordlist : WordlistConfig :=
  mkWordlistConfig (lit "off") (lit "wordlists/off.txt") false 50 None.

Definition padded_wordlist_text : str :=
  lit "  spaced word  " ++ [10%N] ++ [9%N; 10%N] ++ lit "last".

Definition padded_filesystem : filesystem :=
  fun path =>
    if str_eq_dec path (lit "wordlists/test.txt")
    then Some (Ok padded_wordlist_text) else None.

(** The rules a RULE-mode request runs: enabled and not semantic. *)
Definition runs_in_rule_mode (entry : str * BaseDetectionRule) : bool :=
  enabled (snd entry) && negb (str_eqb (rule_type (snd entry)) (lit "semantic")).

(** A service with a disabled rule and a semantic rule beside a healthy
    one. *)
Definition mixed_service : EnhancedDetectionService :=
  mkService 10000 [sample_wordlist] sample_config
    [ (lit "default_exact", rule_returning [sample_item "abc" (6 # 10) 0 3]);
      (lit "switched_off",
       mkRule (lit "exact") false (fun _ _ => Ok [sample_item "abc" (9 # 10) 0 3]));
      (lit "meaning",
       mkRule (lit "semantic") true (fun _ _ => Ok [sample_item "abc" (9 # 10) 0 3])) ]
    0.

(** A service whose rules find nothing. *)
Definition quiet_service : EnhancedDetectionService :=
  mkService 10000 [sample_wordlist] sample_config
    [ (lit "default_exact", rule_returning []); (lit "broken", rule_raising) ]
    0.

(** The invariant of the deduplication loop: [seen] holds the keys of
    [unique], which are distinct; every entry of [unique] was among the
    results [done] so far, and every such result has an entry with its
    key that is at least as confident. *)
Definition dedup_inv (seen : list (str * str))
    (unique done : list DetectionResultItem) : Prop :=
  (forall k, In k seen <-> In k (map result_key unique))
  /\ NoDup (map result_key unique)
  /\ (forall r, In r unique -> In r done)
  /\ (forall r, In r done ->
                exists r', In r' unique /\ result_key r' = result_key r
                           /\ (r_confidence r <= r_confidence r')%Q).

(** Sample input of the deduplication: the same word reported twice. *)
Definition repeated_results : list DetectionResultItem :=
  [ sample_item "abc" (6 # 10) 0 3; sample_item "xyz" (7 # 10) 10 13;
    sample_item "abc" (9 # 10) 20 23 ].

(** A [JiebaRule] with one word set, and a segmenter standing in for
    [jieba.cut] that cuts at every space. *)
Definition sample_jieba_rule : JiebaRule :=
  mkJiebaRule [(lit "test", [lit "badword"; lit "xyz"])] true false false.

Fixpoint cut_at_spaces (cur : str) (s : str) : list str :=
  match s with
  | [] => match cur with [] => [] | _ => [rev cur] end
  | c :: t =>
      if (c =? 32)%N
      then match cur with
           | [] => [c] :: cut_at_spaces [] t
           | _ => rev cur :: [c] :: cut_at_spaces [] t
           end
      else cut_at_spaces (c :: cur) t
  end.

(** What [JiebaRule.detect] reports about one token: the token is a word
    of the result's category, the fixed match type, confidence and method,
    and, when positions are returned, one span at which the token is read
    in the processed text. *)
Definition jieba_item (self : JiebaRule) (config : DetectionConfig)
    (processed_text : str) (r : DetectionResultItem) : Prop :=
  (exists word_set, dict_get (word_sets self) (r_category r) = Some word_set
                    /\ In (matched_word r) word_set)
  /\ r_match_type r = EXACT
  /\ r_confidence r = b64 (9 # 10)
  /\ r_detection_method r = RULE
  /\ (if return_positions config
      then exists s,
             r_positions r = [mkPosition s (s + len (matched_word r))]
             /\ 0 <= s
             /\ py_slice processed_text s (s + len (matched_word r))
                = matched_word r
      else r_positions r = []).

(** A request configuration that asks for positions, and sample inputs of
    the two rules. *)
Definition positions_config : DetectionConfig :=
  mkDetectionConfig RULE_MODE [] true false.

Definition space_cut (s : str) (cut_all_ hmm : bool) : list str :=
  cut_at_spaces [] s.

Definition jieba_sample_text : str := lit "a badword xyz".

(** A stand-in for compiled patterns: a pattern is a word, and
    [finditer] yields its occurrence at the start of the text, if any. *)
Definition prefix_finditer (p : str) (s : str) : list (str * Z * Z) :=
  if startswith s p then [(p, 0, len p)] else [].

(* ================================================================== *)
(** * General lemmas *)

Lemma mapM_Forall2 {A B : Type} (f : A -> result B) (l : list A) (l' : list B) :
  mapM f l = Ok l' -> Forall2 (fun x y => f x = Ok y) l l'.
Proof.
  revert l'. induction l as [|x t IH]; simpl; intros l' H.
  - injection H as <-. constructor.
  - destruct (f x) as [y|e] eqn:Hx; simpl in H; [|discriminate].
    destruct (mapM f t) as [ys|e] eqn:Ht; simpl in H; [|discriminate].
    injection H as <-. constructor; auto.
Qed.

Lemma mapM_total {A B : Type} (f : A -> result B) (l : list A) :
  Forall (fun x => exists y, f x = Ok y) l -> exists l', mapM f l = Ok l'.
Proof.
  induction 1 as [|x t [y Hy] _ [ys IH]]; simpl.
  - eexists; reflexivity.
  - rewrite Hy, IH. eexists; reflexivity.
Qed.

(** ** Ordered pairs of a list *)

Lemma FOP_Forall2 {A B : Type} (P : A -> A -> Prop) (Q : B -> B -> Prop)
    (R : A -> B -> Prop) (l : list A) (l' : list B) :
  (forall a b a' b', R a a' -> R b b' -> P a b -> Q a' b') ->
  Forall2 R l l' -> ForallOrdPairs P l -> ForallOrdPairs Q l'.
Proof.
  intros HPQ H2. induction H2 as [|x y t t' Hxy Ht IH]; intros HP.
  - constructor.
  - inversion HP as [|? ? Hx Hrest]; subst. constructor; [|auto].
    clear IH Hrest HP. induction Ht as [|x' y' t t' Hxy' _ IH']; constructor.
    + inversion Hx; subst. eauto.
    + inversion Hx; subst. auto.
Qed.

Lemma FOP_filter {A : Type} (P : A -> A -> Prop) (f : A -> bool) (l : list A) :
  ForallOrdPairs P l -> ForallOrdPairs P (filter f l).
Proof.
  induction 1 as [|x t Hx _ IH]; simpl; [constructor|].
  destruct (f x); [|assumption].
  constructor; [|assumption].
  rewrite Forall_forall in *. intros y Hy. apply filter_In in Hy. apply Hx, Hy.
Qed.

Lemma FOP_Permutation {A : Type} (P : A -> A -> Prop) (l l' : list A) :
  (forall a b, P a b -> P b a) ->
  Permutation l l' -> ForallOrdPairs P l -> ForallOrdPairs P l'.
Proof.
  intros Hsym. induction 1 as [|x l l' Hp IH|x y l|l1 l2 l3 _ IH1 _ IH2]; intros H.
  - constructor.
  - inversion H; subst. constructor; [|auto].
    eapply Permutation_Forall; eauto.
  - inversion H as [|? ? Hy Hr]; subst. inversion Hr as [|? ? Hx Hl]; subst.
    inversion Hy; subst.
    constructor; [constructor; auto|constructor; auto].
  - auto.
Qed.

Lemma FOP_nth {A : Type} (P : A -> A -> Prop) (l : list A) :
  ForallOrdPairs P l ->
  forall i j a b, (i < j)%nat ->
    nth_error l i = Some a -> nth_error l j = Some b -> P a b.
Proof.
  induction 1 as [|x t Hx _ IH]; intros i j a b Hij Hi Hj.
  - destruct i; discriminate.
  - destruct j as [|j]; [lia|]. simpl in Hj.
    destruct i as [|i]; simpl in Hi.
    + injection Hi as <-. rewrite Forall_forall in Hx.
      apply Hx. eapply nth_error_In; eauto.
    + eapply IH; [|eauto|eauto]. lia.
Qed.

(** ** [sorted] *)

Section SortedFacts.
Context {A K : Type} (lt : K -> K -> bool) (key : A -> K).

Lemma insert_sorted_Permutation (x : A) (l : list A) :
  Permutation (insert_sorted lt key x l) (x :: l).
Proof.
  induction l as [|y t IH]; simpl; [reflexivity|].
  destruct (lt (key y) (key x)); [|reflexivity].
  rewrite IH. apply perm_swap.
Qed.

Lemma sorted_Permutation (l : list A) : Permutation (sorted lt key l) l.
Proof.
  induction l as [|x t IH]; simpl; [reflexivity|].
  rewrite insert_sorted_Permutation. auto.
Qed.

Hypothesis lt_asym : forall a b, lt a b = true -> lt b a = false.
Hypothesis not_after_trans :
  forall x y z,
  not_after lt key x y -> not_after lt key y z -> not_after lt key x z.

Lemma insert_sorted_StronglySorted (x : A) (l : list A) :
  StronglySorted (not_after lt key) l ->
  StronglySorted (not_after lt key) (insert_sorted lt key x l).
Proof.
  induction 1 as [|y t Ht IH Hy]; simpl.
  - repeat constructor.
  - destruct (lt (key y) (key x)) eqn:Hlt.
    + constructor; [assumption|].
      eapply Permutation_Forall;
        [symmetry; apply insert_sorted_Permutation|].
      constructor; [apply lt_asym, Hlt|assumption].
    + constructor; [constructor; assumption|].
      constructor; [exact Hlt|].
      eapply Forall_impl; [|exact Hy].
      intros z Hz. eapply not_after_trans; eauto.
Qed.

Lemma sorted_StronglySorted (l : list A) :
  StronglySorted (not_after lt key) (sorted lt key l).
Proof.
  induction l as [|x t IH]; simpl; [constructor|].
  apply insert_sorted_StronglySorted, IH.
Qed.
End SortedFacts.

(* ================================================================== *)
(** * Rounding to binary64 *)


Lemma pow2_pos (e : Z) : (0 < pow2 e)%Q.
Proof. apply Qpower_0_lt. reflexivity. Qed.

Lemma pow2_add (a b : Z) : (pow2 (a + b) == pow2 a * pow2 b)%Q.
Proof. apply Qpower_plus. discriminate. Qed.

Lemma pow2_le (a b : Z) : a <= b -> (pow2 a <= pow2 b)%Q.
Proof. intros H. apply Qpower_le_compat_l; [exact H|discriminate]. Qed.

Lemma pow2_lt_inv (a b : Z) : (pow2 a < pow2 b)%Q -> a < b.
Proof. intros H. apply (Qpower_lt_compat_l_inv 2); [exact H|reflexivity]. Qed.

Lemma pow2_Z (e : Z) : 0 <= e -> (pow2 e == inject_Z (2 ^ e))%Q.
Proof. intros H. symmetry. apply (Zpower_Qpower 2 e H). Qed.

Lemma pow2_cancel (e : Z) : (pow2 (- e) * pow2 e == 1)%Q.
Proof. rewrite <- pow2_add. replace (- e + e) with 0 by lia. reflexivity. Qed.

Lemma mag_bounds (x : Q) :
  (0 < x)%Q ->
  let k := Z.log2 (Qnum x) - Z.log2 (Zpos (Qden x)) in
  (pow2 (k - 1) < x < pow2 (k + 1))%Q.
Proof.
  destruct x as [n d]. intros Hx k. cbn [Qnum Qden] in k.
  assert (Hn : 0 < n) by (unfold Qlt in Hx; simpl in Hx; lia).
  pose proof (Z.log2_spec n Hn) as [Hn1 Hn2].
  pose proof (Z.log2_spec (Zpos d) ltac:(lia)) as [Hd1 Hd2].
  pose proof (Z.log2_nonneg n) as Ha. pose proof (Z.log2_nonneg (Zpos d)) as Hb.
  set (a := Z.log2 n) in *. set (b := Z.log2 (Zpos d)) in *.
  assert (Qn1 : (pow2 a <= inject_Z n)%Q)
    by (rewrite pow2_Z by lia; rewrite <- Zle_Qle; exact Hn1).
  assert (Qn2 : (inject_Z n < pow2 (a + 1))%Q)
    by (rewrite pow2_Z by lia; rewrite <- Zlt_Qlt; exact Hn2).
  assert (Qd1 : (pow2 b <= inject_Z (Zpos d))%Q)
    by (rewrite pow2_Z by lia; rewrite <- Zle_Qle; exact Hd1).
  assert (Qd2 : (inject_Z (Zpos d) < pow2 (b + 1))%Q)
    by (rewrite pow2_Z by lia; rewrite <- Zlt_Qlt; exact Hd2).
  assert (Hdpos : (0 < inject_Z (Zpos d))%Q) by reflexivity.
  rewrite (Qmake_Qdiv n d). split.
  - apply Qlt_shift_div_l; [exact Hdpos|].
    apply Qlt_le_trans with (pow2 (k - 1) * pow2 (b + 1))%Q.
    + apply Qmult_lt_l; [apply pow2_pos|exact Qd2].
    + rewrite <- pow2_add. replace (k - 1 + (b + 1)) with a by (unfold k; lia).
      exact Qn1.
  - apply Qlt_shift_div_r; [exact Hdpos|].
    apply Qlt_le_trans with (pow2 (a + 1)); [exact Qn2|].
    replace (a + 1) with (k + 1 + b) by (unfold k; lia). rewrite pow2_add.
    apply Qmult_le_l; [apply pow2_pos|exact Qd1].
Qed.

Lemma mag_spec (x : Q) :
  (0 < x)%Q -> (pow2 (mag x - 1) <= x < pow2 (mag x))%Q.
Proof.
  intros Hx. pose proof (mag_bounds x Hx) as [H1 H2]. unfold mag.
  set (k := Z.log2 (Qnum x) - Z.log2 (Zpos (Qden x))) in *.
  destruct (Qle_bool (pow2 k) x) eqn:E.
  - apply Qle_bool_iff in E. replace (k + 1 - 1) with k by lia. auto.
  - assert (Hlt : (x < pow2 k)%Q).
    { apply Qnot_le_lt. intros H. apply Qle_bool_iff in H. congruence. }
    split; [apply Qlt_le_weak; exact H1|exact Hlt].
Qed.

Lemma mag_unique (x : Q) (e : Z) :
  (pow2 (e - 1) <= x < pow2 e)%Q -> mag x = e.
Proof.
  intros [H1 H2].
  assert (Hx : (0 < x)%Q)
    by (apply Qlt_le_trans with (pow2 (e - 1)); [apply pow2_pos|exact H1]).
  destruct (mag_spec x Hx) as [M1 M2].
  assert (e - 1 < mag x)
    by (apply pow2_lt_inv; apply Qle_lt_trans with x; assumption).
  assert (mag x - 1 < e)
    by (apply pow2_lt_inv; apply Qle_lt_trans with x; assumption).
  lia.
Qed.

Lemma mag_le (x y : Q) : (0 < x)%Q -> (x <= y)%Q -> mag x <= mag y.
Proof.
  intros Hx Hxy.
  assert (Hy : (0 < y)%Q) by (apply Qlt_le_trans with x; assumption).
  destruct (mag_spec x Hx) as [M1 _]. destruct (mag_spec y Hy) as [_ M2].
  assert (mag x - 1 < mag y).
  { apply pow2_lt_inv. apply Qle_lt_trans with x; [exact M1|].
    apply Qle_lt_trans with y; assumption. }
  lia.
Qed.

Lemma mag_comp (x y : Q) : (0 < x)%Q -> (x == y)%Q -> mag x = mag y.
Proof.
  intros Hx Hxy. symmetry. apply mag_unique. rewrite <- Hxy.
  apply mag_spec, Hx.
Qed.

Lemma rne_comp (s t : Q) : (s == t)%Q -> rne s = rne t.
Proof.
  intros H. unfold rne. rewrite (Qfloor_comp _ _ H).
  assert (E : (s - inject_Z (Qfloor t) ?= 1 # 2)%Q
              = (t - inject_Z (Qfloor t) ?= 1 # 2)%Q)
    by (apply Qcompare_comp; [rewrite H|]; reflexivity).
  rewrite E. reflexivity.
Qed.

Lemma rne_floor (s : Q) : Qfloor s <= rne s <= Qfloor s + 1.
Proof.
  unfold rne. destruct (s - inject_Z (Qfloor s) ?= 1 # 2)%Q;
    [destruct (Z.even (Qfloor s))|..]; lia.
Qed.

Lemma rne_Z (z : Z) : rne (inject_Z z) = z.
Proof.
  unfold rne. rewrite Qfloor_Z.
  assert (E : (inject_Z z - inject_Z z ?= 1 # 2)%Q = Lt)
    by (apply (proj1 (Qlt_alt _ _)); generalize (inject_Z z); intros q; lra).
  rewrite E. reflexivity.
Qed.

Lemma rne_mono (s t : Q) : (s <= t)%Q -> rne s <= rne t.
Proof.
  intros H. pose proof (Qfloor_resp_le _ _ H) as Hf.
  pose proof (rne_floor s) as Hs. pose proof (rne_floor t) as Ht.
  destruct (Z.eq_dec (Qfloor s) (Qfloor t)) as [E|E]; [|lia].
  unfold rne. rewrite <- E.
  destruct (s - inject_Z (Qfloor s) ?= 1 # 2)%Q eqn:Cs;
    destruct (t - inject_Z (Qfloor s) ?= 1 # 2)%Q eqn:Ct;
    try (destruct (Z.even (Qfloor s))); try lia;
    try apply (proj2 (Qeq_alt _ _)) in Cs; try apply (proj2 (Qlt_alt _ _)) in Cs;
    try apply (proj2 (Qgt_alt _ _)) in Cs;
    try apply (proj2 (Qeq_alt _ _)) in Ct; try apply (proj2 (Qlt_alt _ _)) in Ct;
    try apply (proj2 (Qgt_alt _ _)) in Ct;
    exfalso; revert Cs Ct H; generalize (inject_Z (Qfloor s)); intros q Cs Ct H;
    lra.
Qed.

Lemma Qfloor_eq (s : Q) (z : Z) :
  (inject_Z z <= s < inject_Z (z + 1))%Q -> Qfloor s = z.
Proof.
  intros [H1 H2]. pose proof (Qfloor_le s) as F1. pose proof (Qlt_floor s) as F2.
  assert (z < Qfloor s + 1).
  { rewrite Zlt_Qlt. apply Qle_lt_trans with s; assumption. }
  assert (Qfloor s < z + 1).
  { rewrite Zlt_Qlt. apply Qle_lt_trans with s; assumption. }
  lia.
Qed.

Lemma rne_small (s : Q) : (0 <= s < 1 # 2)%Q -> rne s = 0.
Proof.
  intros [H0 H1]. assert (F : Qfloor s = 0).
  { apply Qfloor_eq. split; [exact H0|]. change (inject_Z (0 + 1)) with 1%Q. lra. }
  unfold rne. rewrite F.
  assert (E : (s - inject_Z 0 ?= 1 # 2)%Q = Lt).
  { apply (proj1 (Qlt_alt _ _)). unfold inject_Z. lra. }
  rewrite E. reflexivity.
Qed.

Lemma rne_nonneg (s : Q) : (0 <= s)%Q -> 0 <= rne s.
Proof.
  intros H. change 0 with (rne (inject_Z 0)) at 1. apply rne_mono. exact H.
Qed.

Lemma pow2_scaled (e c : Z) :
  c <= e -> (pow2 e * pow2 (- c) == inject_Z (2 ^ (e - c)))%Q.
Proof.
  intros H. rewrite <- pow2_add. replace (e + - c) with (e - c) by lia.
  apply pow2_Z. lia.
Qed.

Lemma round_at_mono (c : Z) (x y : Q) :
  (x <= y)%Q -> (round_at c x <= round_at c y)%Q.
Proof.
  intros H. unfold round_at.
  apply Qmult_le_compat_r; [|apply Qlt_le_weak, pow2_pos].
  rewrite <- Zle_Qle. apply rne_mono.
  apply Qmult_le_compat_r; [exact H|apply Qlt_le_weak, pow2_pos].
Qed.

Lemma round_at_comp (c : Z) (x y : Q) :
  (x == y)%Q -> (round_at c x == round_at c y)%Q.
Proof.
  intros H. unfold round_at.
  rewrite (rne_comp (x * pow2 (- c)) (y * pow2 (- c))); [reflexivity|].
  rewrite H. reflexivity.
Qed.

(** A multiple of [2 ** c] is left unchanged. *)
Lemma round_at_multiple (c z : Z) :
  (round_at c (inject_Z z * pow2 c) == inject_Z z * pow2 c)%Q.
Proof.
  unfold round_at.
  rewrite (rne_comp (inject_Z z * pow2 c * pow2 (- c)) (inject_Z z)).
  - rewrite rne_Z. reflexivity.
  - rewrite <- Qmult_assoc, (Qmult_comm (pow2 c)), pow2_cancel. ring.
Qed.

Lemma round_at_pow2 (c e : Z) : c <= e -> (round_at c (pow2 e) == pow2 e)%Q.
Proof.
  intros H.
  assert (E : (pow2 e == inject_Z (2 ^ (e - c)) * pow2 c)%Q).
  { rewrite <- pow2_Z by lia. rewrite <- pow2_add.
    replace (e - c + c) with e by lia. reflexivity. }
  rewrite (round_at_comp c _ _ E), round_at_multiple. symmetry. exact E.
Qed.

Lemma round_at_nonneg (c : Z) (x : Q) : (0 <= x)%Q -> (0 <= round_at c x)%Q.
Proof.
  intros H. unfold round_at. apply Qmult_le_0_compat.
  - change 0%Q with (inject_Z 0). rewrite <- Zle_Qle. apply rne_nonneg.
    apply Qmult_le_0_compat; [exact H|apply Qlt_le_weak, pow2_pos].
  - apply Qlt_le_weak, pow2_pos.
Qed.

Lemma cexp_le (x y : Q) : (0 < x)%Q -> (x <= y)%Q -> cexp x <= cexp y.
Proof. intros Hx Hxy. pose proof (mag_le x y Hx Hxy). unfold cexp. lia. Qed.

Lemma round_pos_nonneg (x : Q) : (0 < x)%Q -> (0 <= round_pos x)%Q.
Proof. intros H. apply round_at_nonneg, Qlt_le_weak, H. Qed.

Lemma round_pos_comp (x y : Q) :
  (0 < x)%Q -> (x == y)%Q -> (round_pos x == round_pos y)%Q.
Proof.
  intros Hx H. unfold round_pos, cexp. rewrite (mag_comp x y Hx H).
  apply round_at_comp, H.
Qed.

Lemma round_pos_mono (x y : Q) :
  (0 < x)%Q -> (x <= y)%Q -> (round_pos x <= round_pos y)%Q.
Proof.
  intros Hx Hxy.
  assert (Hy : (0 < y)%Q) by (apply Qlt_le_trans with x; assumption).
  pose proof (mag_le x y Hx Hxy) as Hm.
  destruct (mag_spec x Hx) as [_ Mx]. destruct (mag_spec y Hy) as [My _].
  unfold round_pos.
  destruct (Z.eq_dec (cexp x) (cexp y)) as [E|E].
  - rewrite E. apply round_at_mono, Hxy.
  - assert (Hc : mag x < mag y /\ cexp y = mag y - 53 /\ cexp x < cexp y)
      by (unfold cexp in *; lia).
    destruct Hc as (Hlt & Ecy & Hcx).
    apply Qle_trans with (pow2 (mag y - 1)).
    + rewrite <- (round_at_pow2 (cexp x) (mag y - 1)) by lia.
      apply round_at_mono. apply Qle_trans with (pow2 (mag x)).
      * apply Qlt_le_weak, Mx.
      * apply pow2_le. lia.
    + rewrite <- (round_at_pow2 (cexp y) (mag y - 1)) at 1 by lia.
      apply round_at_mono, My.
Qed.

(** A value whose last place is not below its own [cexp] is unchanged. *)
Lemma round_pos_fix (c z : Z) :
  (0 < inject_Z z * pow2 c)%Q -> cexp (inject_Z z * pow2 c) <= c ->
  (round_pos (inject_Z z * pow2 c) == inject_Z z * pow2 c)%Q.
Proof.
  intros Hpos Hc. unfold round_pos.
  set (c' := cexp (inject_Z z * pow2 c)) in *.
  assert (E : (inject_Z z * pow2 c == inject_Z (z * 2 ^ (c - c')) * pow2 c')%Q).
  { rewrite inject_Z_mult, <- pow2_Z by lia. rewrite <- Qmult_assoc, <- pow2_add.
    replace (c - c' + c') with c by lia. reflexivity. }
  rewrite (round_at_comp c' _ _ E), round_at_multiple. symmetry. exact E.
Qed.

Lemma round_pos_idem (x : Q) :
  (0 < x)%Q -> (0 < round_pos x)%Q ->
  (round_pos (round_pos x) == round_pos x)%Q.
Proof.
  intros Hx Hr. destruct (mag_spec x Hx) as [_ Mx].
  assert (Hce : cexp x <= mag x).
  { destruct (Z_le_gt_dec (cexp x) (mag x)) as [H|H]; [exact H|exfalso].
    assert (Hs : rne (x * pow2 (- cexp x)) = 0).
    { apply rne_small. split.
      - apply Qmult_le_0_compat; apply Qlt_le_weak; [exact Hx|apply pow2_pos].
      - apply Qlt_le_trans with (pow2 (mag x) * pow2 (- cexp x))%Q.
        + apply Qmult_lt_r; [apply pow2_pos|exact Mx].
        + rewrite <- pow2_add. change (1 # 2)%Q with (pow2 (-1)).
          apply pow2_le. lia. }
    unfold round_pos, round_at in Hr. rewrite Hs in Hr.
    revert Hr. generalize (pow2 (cexp x)). intros q Hr.
    change (inject_Z 0) with 0%Q in Hr. lra. }
  assert (Hle : (round_pos x <= pow2 (mag x))%Q).
  { unfold round_pos. rewrite <- (round_at_pow2 (cexp x) (mag x) Hce).
    apply round_at_mono, Qlt_le_weak, Mx. }
  destruct (Qlt_le_dec (round_pos x) (pow2 (mag x))) as [Hlt|Hge].
  - apply round_pos_fix; [exact Hr|].
    change (cexp (round_pos x) <= cexp x).
    destruct (mag_spec _ Hr) as [Mr _].
    assert (mag (round_pos x) - 1 < mag x).
    { apply pow2_lt_inv. apply Qle_lt_trans with (round_pos x); assumption. }
    unfold cexp. lia.
  - assert (E : (round_pos x == inject_Z 1 * pow2 (mag x))%Q).
    { change (inject_Z 1) with 1%Q. rewrite Qmult_1_l.
      apply Qle_antisym; assumption. }
    rewrite (round_pos_comp _ _ Hr E), E. apply round_pos_fix.
    + change (inject_Z 1) with 1%Q. rewrite Qmult_1_l. apply pow2_pos.
    + assert (M : mag (inject_Z 1 * pow2 (mag x)) = mag x + 1).
      { apply mag_unique. change (inject_Z 1) with 1%Q. rewrite Qmult_1_l.
        replace (mag x + 1 - 1) with (mag x) by lia. split; [apply Qle_refl|].
        apply Qpower_lt_compat_l; [lia|reflexivity]. }
      unfold cexp in *. rewrite M. lia.
Qed.

Lemma b64_pos (x : Q) : (0 < x)%Q -> b64 x = Qred (round_pos x).
Proof.
  intros H. unfold b64.
  destruct (Qle_bool x 0) eqn:E; [|reflexivity].
  apply Qle_bool_iff in E. lra.
Qed.

Lemma b64_neg (x : Q) : (x < 0)%Q -> b64 x = Qred (- round_pos (- x)).
Proof.
  intros H. unfold b64.
  destruct (Qle_bool x 0) eqn:E.
  - destruct (Qle_bool 0 x) eqn:E0; [|reflexivity].
    apply Qle_bool_iff in E0. lra.
  - assert (Hle : (x <= 0)%Q) by lra. apply Qle_bool_iff in Hle. congruence.
Qed.

Lemma b64_zero (x : Q) : (x == 0)%Q -> b64 x = 0%Q.
Proof.
  intros H. unfold b64.
  assert (H1 : Qle_bool x 0 = true) by (apply Qle_bool_iff; lra).
  assert (H2 : Qle_bool 0 x = true) by (apply Qle_bool_iff; lra).
  rewrite H1, H2. reflexivity.
Qed.

Lemma Qsign_cases (x : Q) : (x < 0)%Q \/ (x == 0)%Q \/ (0 < x)%Q.
Proof.
  destruct (Qlt_le_dec x 0) as [H|H]; [auto|].
  destruct (Qlt_le_dec 0 x) as [H'|H']; [auto|].
  right. left. lra.
Qed.

(** Equal rationals round to the same value, whatever fraction denotes
    them. *)
Lemma b64_comp (x y : Q) : (x == y)%Q -> b64 x = b64 y.
Proof.
  intros H. destruct (Qsign_cases x) as [Hx|[Hx|Hx]].
  - rewrite (b64_neg x Hx), (b64_neg y) by lra. apply Qred_complete.
    assert (Hn : (- x == - y)%Q) by lra.
    rewrite (round_pos_comp (- x) (- y)); [reflexivity|lra|exact Hn].
  - rewrite (b64_zero x Hx), (b64_zero y) by lra. reflexivity.
  - rewrite (b64_pos x Hx), (b64_pos y) by lra. apply Qred_complete.
    apply round_pos_comp; assumption.
Qed.

Lemma b64_sign (x : Q) :
  ((0 <= x)%Q -> (0 <= b64 x)%Q) /\ ((x <= 0)%Q -> (b64 x <= 0)%Q).
Proof.
  destruct (Qsign_cases x) as [Hx|[Hx|Hx]].
  - rewrite (b64_neg x Hx), Qred_correct. split; [lra|]. intros _.
    assert (0 <= round_pos (- x))%Q by (apply round_pos_nonneg; lra). lra.
  - rewrite (b64_zero x Hx). split; lra.
  - rewrite (b64_pos x Hx), Qred_correct. split; [|lra]. intros _.
    apply round_pos_nonneg, Hx.
Qed.

(** Rounding is monotone. *)
Lemma b64_mono (x y : Q) : (x <= y)%Q -> (b64 x <= b64 y)%Q.
Proof.
  intros H. destruct (Qsign_cases x) as [Hx|[Hx|Hx]].
  - destruct (Qlt_le_dec y 0) as [Hy|Hy].
    + rewrite (b64_neg x Hx), (b64_neg y Hy), !Qred_correct.
      assert (round_pos (- y) <= round_pos (- x))%Q
        by (apply round_pos_mono; lra).
      lra.
    + apply Qle_trans with 0%Q; [apply b64_sign; lra|apply b64_sign, Hy].
  - rewrite (b64_zero x Hx). apply b64_sign. lra.
  - rewrite (b64_pos x Hx), (b64_pos y) by lra. rewrite !Qred_correct.
    apply round_pos_mono; assumption.
Qed.

(** A binary64 value rounds to itself. *)
Lemma b64_idem (x : Q) : b64 (b64 x) = b64 x.
Proof.
  destruct (Qsign_cases x) as [Hx|[Hx|Hx]].
  - rewrite (b64_neg x Hx).
    assert (Hr : (0 <= round_pos (- x))%Q) by (apply round_pos_nonneg; lra).
    destruct (Qlt_le_dec 0 (round_pos (- x))) as [Hp|Hz].
    + rewrite b64_neg by (rewrite Qred_correct; lra).
      apply Qred_complete.
      assert (E : (- Qred (- round_pos (- x)) == round_pos (- x))%Q)
        by (rewrite Qred_correct; ring).
      assert (E1 : (round_pos (- Qred (- round_pos (- x)))
                    == round_pos (round_pos (- x)))%Q)
        by (apply round_pos_comp; [rewrite E; exact Hp|exact E]).
      rewrite E1, round_pos_idem by lra. reflexivity.
    + assert (E0 : (round_pos (- x) == 0)%Q) by lra.
      assert (E : Qred (- round_pos (- x)) = 0%Q).
      { change 0%Q with (Qred 0). apply Qred_complete. rewrite E0. reflexivity. }
      rewrite E. reflexivity.
  - rewrite (b64_zero x Hx). reflexivity.
  - rewrite (b64_pos x Hx).
    assert (Hr : (0 <= round_pos x)%Q) by (apply round_pos_nonneg, Hx).
    destruct (Qlt_le_dec 0 (round_pos x)) as [Hp|Hz].
    + rewrite b64_pos by (rewrite Qred_correct; exact Hp).
      apply Qred_complete.
      assert (E1 : (round_pos (Qred (round_pos x))
                    == round_pos (round_pos x))%Q)
        by (apply round_pos_comp;
            [rewrite Qred_correct; exact Hp|apply Qred_correct]).
      rewrite E1. apply round_pos_idem; assumption.
    + assert (E0 : (round_pos x == 0)%Q) by lra.
      assert (E : Qred (round_pos x) = 0%Q).
      { change 0%Q with (Qred 0). apply Qred_complete. exact E0. }
      rewrite E. reflexivity.
Qed.

Lemma b64_0 : b64 0 = 0%Q.
Proof. reflexivity. Qed.

Lemma b64_1 : b64 1 = 1%Q.
Proof. vm_compute. reflexivity. Qed.

(** ** Float operations *)

Lemma b64_nonneg (x : Q) : (0 <= x)%Q -> (0 <= b64 x)%Q.
Proof. apply b64_sign. Qed.

Lemma b64_le_1 (x : Q) : (x <= 1)%Q -> (b64 x <= 1)%Q.
Proof. intros H. rewrite <- b64_1. apply b64_mono, H. Qed.

Lemma b64_ge_1 (x : Q) : (1 <= x)%Q -> (1 <= b64 x)%Q.
Proof. intros H. rewrite <- b64_1 at 1. apply b64_mono, H. Qed.

Lemma fmul_nonneg (x y : Q) : (0 <= x)%Q -> (0 <= y)%Q -> (0 <= fmul x y)%Q.
Proof. intros Hx Hy. apply b64_nonneg, Qmult_le_0_compat; assumption. Qed.

Lemma fmul_mono_l (x x' y : Q) :
  (x <= x')%Q -> (0 <= y)%Q -> (fmul x y <= fmul x' y)%Q.
Proof. intros Hx Hy. apply b64_mono, Qmult_le_compat_r; assumption. Qed.

Lemma fmul_mono_r (x y y' : Q) :
  (0 <= x)%Q -> (y <= y')%Q -> (fmul x y <= fmul x y')%Q.
Proof.
  intros Hx Hy. apply b64_mono. rewrite !(Qmult_comm x).
  apply Qmult_le_compat_r; assumption.
Qed.

Lemma fadd_mono (x x' y y' : Q) :
  (x <= x')%Q -> (y <= y')%Q -> (fadd x y <= fadd x' y')%Q.
Proof. intros Hx Hy. apply b64_mono. lra. Qed.

Lemma fadd_nonneg (x y : Q) : (0 <= x)%Q -> (0 <= y)%Q -> (0 <= fadd x y)%Q.
Proof. intros Hx Hy. apply b64_nonneg. lra. Qed.

(** Adding a non-negative float does not lower a binary64 value. *)
Lemma fadd_ge_l (x y : Q) : binary64 x -> (0 <= y)%Q -> (x <= fadd x y)%Q.
Proof.
  intros Hx Hy. unfold binary64 in Hx. rewrite <- Hx at 1.
  apply b64_mono. lra.
Qed.

Lemma fmul_1_r (x : Q) : fmul x 1 = b64 x.
Proof. apply b64_comp. ring. Qed.

Lemma binary64_b64 (x : Q) : binary64 (b64 x).
Proof. apply b64_idem. Qed.

Lemma binary64_1 : binary64 1.
Proof. exact b64_1. Qed.

Lemma binary64_py_min (x : Q) : binary64 x -> binary64 (py_min 1 x).
Proof.
  intros H. unfold py_min. destruct (Qlt_bool x 1); [exact H|exact binary64_1].
Qed.

(** Sums and products as the interpreter computes them: [0.7 + 0.1] stays
    below [0.8], [0.2 + 0.1] exceeds 3/10, [0.7 * 0.7] stays below 49/100,
    and [0.6 + 0.1] is [0.7]. *)
Example float_arithmetic_samples :
  (fadd (b64 (7 # 10)) (b64 (1 # 10)) < b64 (8 # 10))%Q
  /\ (3 # 10 < fadd (b64 (2 # 10)) (b64 (1 # 10)))%Q
  /\ (fmul (b64 (7 # 10)) (b64 (7 # 10)) < 49 # 100)%Q
  /\ fadd (b64 (6 # 10)) (b64 (1 # 10)) = b64 (7 # 10)
  /\ b64 (1 # 10) = (3602879701896397 # 36028797018963968)%Q.
Proof. repeat split; vm_compute; reflexivity. Qed.

(* ================================================================== *)
(** * The greedy merge *)

Lemma sorted_ext {A K1 K2 : Type} (lt1 : K1 -> K1 -> bool) (key1 : A -> K1)
    (lt2 : K2 -> K2 -> bool) (key2 : A -> K2) (l : list A) :
  (forall a b, lt1 (key1 a) (key1 b) = lt2 (key2 a) (key2 b)) ->
  sorted lt1 key1 l = sorted lt2 key2 l.
Proof.
  intros Hext. induction l as [|x t IH]; simpl; [reflexivity|].
  rewrite IH. generalize (sorted lt2 key2 t) as s.
  induction s as [|y s IHs]; simpl; [reflexivity|].
  rewrite Hext, IHs. reflexivity.
Qed.

Lemma merge_key_spec_before (a b : Hit) :
  tupleZ_lt (merge_key a) (merge_key b) = spec_before a b.
Proof.
  unfold tupleZ_lt, merge_key, spec_before; simpl.
  destruct (start a =? start b) eqn:He.
  - apply Z.eqb_eq in He.
    replace (start a <? start b) with false by (symmetry; apply Z.ltb_ge; lia).
    simpl. destruct (end_ b <? end_ a) eqn:Hl.
    + apply Z.ltb_lt in Hl. apply Z.ltb_lt. lia.
    + apply Z.ltb_ge in Hl. apply Z.ltb_ge. lia.
  - rewrite andb_false_l, orb_false_r. reflexivity.
Qed.

(** The loop with its two mutable variables computes the recursive scan. *)
Lemma fold_merge_step (l : list Hit) (acc : list Hit) (last : Z) :
  fst (fold_left merge_step l (acc, last)) = acc ++ spec_scan last l.
Proof.
  revert acc last. induction l as [|h t IH]; intros acc last; simpl.
  - now rewrite app_nil_r.
  - destruct (last <=? start h).
    + rewrite IH, <- app_assoc. reflexivity.
    + apply IH.
Qed.

Lemma merge_hits_greedy_scan (hits : list Hit) :
  _merge_hits_greedy hits = spec_scan (-1) (sorted tupleZ_lt merge_key hits).
Proof.
  unfold _merge_hits_greedy. destruct hits as [|h t]; [reflexivity|].
  apply (fold_merge_step _ [] (-1)).
Qed.

(** ** The survivors of the scan are ordered and disjoint *)

Lemma tupleZ_lt_asym (a b : Z * Z) : tupleZ_lt a b = true -> tupleZ_lt b a = false.
Proof.
  unfold tupleZ_lt. destruct a as [a1 a2], b as [b1 b2]; simpl.
  destruct (a1 =? b1) eqn:E1; destruct (b1 =? a1) eqn:E2;
    rewrite ?Z.eqb_eq, ?Z.eqb_neq, ?Z.ltb_lt, ?Z.ltb_ge in *; lia.
Qed.

Lemma not_after_merge_key_trans (x y z : Hit) :
  not_after tupleZ_lt merge_key x y -> not_after tupleZ_lt merge_key y z ->
  not_after tupleZ_lt merge_key x z.
Proof.
  unfold not_after, tupleZ_lt, merge_key; simpl.
  destruct (start y =? start x) eqn:E1; destruct (start z =? start y) eqn:E2;
    destruct (start z =? start x) eqn:E3;
    rewrite ?Z.eqb_eq, ?Z.eqb_neq, ?Z.ltb_lt, ?Z.ltb_ge in *; lia.
Qed.

Lemma not_after_merge_key_start (x y : Hit) :
  not_after tupleZ_lt merge_key x y -> start x <= start y.
Proof.
  unfold not_after, tupleZ_lt, merge_key; simpl.
  destruct (start y =? start x) eqn:E1;
    rewrite ?Z.eqb_eq, ?Z.eqb_neq, ?Z.ltb_lt, ?Z.ltb_ge in *; lia.
Qed.

Lemma sorted_hits_by_start (hits : list Hit) :
  StronglySorted (fun a b => start a <= start b)
    (sorted tupleZ_lt merge_key hits).
Proof.
  pose proof (sorted_StronglySorted tupleZ_lt merge_key
                (fun a b => tupleZ_lt_asym a b)
                not_after_merge_key_trans hits) as H.
  induction H as [|x t _ IH Hx]; constructor; [assumption|].
  eapply Forall_impl; [|exact Hx]. intros y. apply not_after_merge_key_start.
Qed.

Lemma spec_scan_incl (last : Z) (l : list Hit) (x : Hit) :
  In x (spec_scan last l) -> In x l.
Proof.
  revert last. induction l as [|h t IH]; intros last; simpl; [tauto|].
  destruct (last <=? start h); simpl; intros H.
  - destruct H; [auto|eauto].
  - eauto.
Qed.

Lemma spec_scan_start (last : Z) (l : list Hit) :
  StronglySorted (fun a b => start a <= start b) l ->
  Forall (fun x => last <= start x) (spec_scan last l).
Proof.
  intros Hs. revert last. induction Hs as [|h t _ IH Hh]; intros last; simpl.
  - constructor.
  - destruct (last <=? start h) eqn:Hle; [|apply IH].
    apply Z.leb_le in Hle. constructor; [assumption|].
    rewrite Forall_forall in *. intros x Hx.
    apply spec_scan_incl in Hx. specialize (Hh x Hx). lia.
Qed.

(** Every survivor ends before any later survivor starts. *)
Lemma spec_scan_ordered (last : Z) (l : list Hit) :
  StronglySorted (fun a b => start a <= start b) l ->
  ForallOrdPairs (fun a b => end_ a <= start b) (spec_scan last l).
Proof.
  intros Hs. revert last. induction Hs as [|h t Ht IH Hh]; intros last; simpl.
  - constructor.
  - destruct (last <=? start h); [|apply IH].
    constructor; [|apply IH]. apply spec_scan_start, Ht.
Qed.

Lemma merge_hits_greedy_ordered (hits : list Hit) :
  ForallOrdPairs (fun a b => end_ a <= start b) (_merge_hits_greedy hits).
Proof.
  rewrite merge_hits_greedy_scan. apply spec_scan_ordered, sorted_hits_by_start.
Qed.

Lemma merge_hits_greedy_incl (hits : list Hit) (x : Hit) :
  In x (_merge_hits_greedy hits) -> In x hits.
Proof.
  rewrite merge_hits_greedy_scan. intros H. apply spec_scan_incl in H.
  eapply Permutation_in; [apply (sorted_Permutation tupleZ_lt merge_key)|exact H].
Qed.

(** ** Any sort in the specified order keeps the same spans *)

Lemma key_le_antisym (a b : Z * Z) : key_le a b -> key_le b a -> a = b.
Proof.
  unfold key_le, tupleZ_lt. destruct a as [a1 a2], b as [b1 b2]; simpl.
  destruct (b1 =? a1) eqn:E1; destruct (a1 =? b1) eqn:E2;
    rewrite ?Z.eqb_eq, ?Z.eqb_neq, ?Z.ltb_lt, ?Z.ltb_ge in *;
    intros; f_equal; lia.
Qed.

Lemma key_le_refl (a : Z * Z) : key_le a a.
Proof.
  unfold key_le, tupleZ_lt. rewrite Z.eqb_refl. apply Z.ltb_irrefl.
Qed.

(** A list of keys has one sorted arrangement. *)
Lemma sorted_keys_unique (k1 k2 : list (Z * Z)) :
  Permutation k1 k2 ->
  StronglySorted key_le k1 -> StronglySorted key_le k2 -> k1 = k2.
Proof.
  revert k2. induction k1 as [|x t1 IH]; intros k2 Hp H1 H2.
  - apply Permutation_nil in Hp. congruence.
  - destruct k2 as [|y t2].
    { symmetry in Hp. apply Permutation_nil in Hp. discriminate. }
    inversion H1 as [|? ? Ht1 Hx]; subst. inversion H2 as [|? ? Ht2 Hy]; subst.
    rewrite Forall_forall in Hx, Hy.
    assert (Hxy : key_le x y).
    { assert (Hin : In y (x :: t1))
        by (eapply Permutation_in; [symmetry; exact Hp|left; reflexivity]).
      destruct Hin as [<-|Hin]; [apply key_le_refl|auto]. }
    assert (Hyx : key_le y x).
    { assert (Hin : In x (y :: t2))
        by (eapply Permutation_in; [exact Hp|left; reflexivity]).
      destruct Hin as [<-|Hin]; [apply key_le_refl|auto]. }
    pose proof (key_le_antisym _ _ Hxy Hyx) as <-.
    f_equal. apply IH; [|assumption|assumption].
    eapply Permutation_cons_inv; exact Hp.
Qed.

Lemma StronglySorted_map_key (l : list Hit) :
  StronglySorted (fun a b => spec_before b a = false) l ->
  StronglySorted key_le (map merge_key l).
Proof.
  induction 1 as [|x t _ IH Hx]; simpl; constructor; [assumption|].
  apply Forall_forall. intros k Hk. apply in_map_iff in Hk as (y & <- & Hy).
  rewrite Forall_forall in Hx. unfold key_le.
  rewrite merge_key_spec_before. auto.
Qed.

(** The scan looks at the keys only. *)
Lemma spec_scan_keys (l1 l2 : list Hit) (last : Z) :
  map merge_key l1 = map merge_key l2 ->
  map merge_key (spec_scan last l1) = map merge_key (spec_scan last l2).
Proof.
  revert l2 last. induction l1 as [|h1 t1 IH]; intros [|h2 t2] last Hk;
    simpl in Hk; try discriminate; [reflexivity|].
  injection Hk as Hs He Ht.
  simpl. rewrite <- Hs.
  destruct (last <=? start h1).
  - simpl. unfold merge_key at 1 3. rewrite Hs, He. f_equal.
    replace (end_ h1) with (end_ h2) by lia. apply IH, Ht.
  - apply IH, Ht.
Qed.

(** C2. The merge stage is the reference algorithm of the specification:
    sort by start ascending and, among equal starts, end descending, then
    scan with [last_accepted_end] starting at -1, keeping a hit exactly when
    its start is at least [last_accepted_end].  Whatever arrangement in
    that order the scan is run on, it keeps the same spans.  On scenario C
    (["abc"] at [[0,3)] and ["abcd"] at [[0,4)], in either order) the merge
    keeps ["abcd"] alone. *)
Theorem merge_hits_greedy_is_spec_merge :
  (forall hits, _merge_hits_greedy hits = spec_merge hits)
  /\ (forall hits arranged,
         Permutation arranged hits ->
         StronglySorted (fun a b => spec_before b a = false) arranged ->
         map merge_key (spec_scan (-1) arranged)
         = map merge_key (_merge_hits_greedy hits))
  /\ _merge_hits_greedy [scenario_C_abc; scenario_C_abcd] = [scenario_C_abcd]
  /\ _merge_hits_greedy [scenario_C_abcd; scenario_C_abc] = [scenario_C_abcd].
Proof.
  split; [|split; [|split; reflexivity]].
  - intros hits. rewrite merge_hits_greedy_scan. unfold spec_merge.
    f_equal. apply sorted_ext. intros a b. apply merge_key_spec_before.
  - intros hits arranged Hp Hs. rewrite merge_hits_greedy_scan.
    apply spec_scan_keys. apply sorted_keys_unique.
    + apply Permutation_map. rewrite Hp. symmetry.
      apply (sorted_Permutation tupleZ_lt merge_key).
    + apply StronglySorted_map_key, Hs.
    + apply StronglySorted_map_key.
      pose proof (sorted_StronglySorted tupleZ_lt merge_key
                    (fun a b => tupleZ_lt_asym a b)
                    not_after_merge_key_trans hits) as H.
      clear -H. induction H as [|x t _ IH Hx]; constructor; [assumption|].
      eapply Forall_impl; [|exact Hx]. intros y Hy.
      rewrite <- merge_key_spec_before. exact Hy.
Qed.

Lemma merge_hits_greedy_is_spec_merge_witness :
  map merge_key (spec_scan (-1) [scenario_C_abcd; scenario_C_abc])
  = map merge_key (_merge_hits_greedy [scenario_C_abc; scenario_C_abcd]).
Proof.
  apply (proj1 (proj2 merge_hits_greedy_is_spec_merge)
           [scenario_C_abc; scenario_C_abcd] [scenario_C_abcd; scenario_C_abc]).
  - apply perm_swap.
  - repeat constructor.
Defined.

(* ================================================================== *)
(** * The stages of [arbitrate] *)

Lemma new_Position_Ok (s e : Z) (p : Position) :
  new_Position s e = Ok p -> p = mkPosition s e /\ 0 <= s < e.
Proof.
  unfold new_Position.
  destruct ((0 <=? s) && (0 <=? e)) eqn:H0; [|discriminate].
  destruct (e <=? s) eqn:H1; [discriminate|].
  intros [= <-]. apply andb_prop in H0 as [Hs He].
  apply Z.leb_le in Hs. apply Z.leb_gt in H1. auto.
Qed.

Lemma new_Position_valid (s e : Z) :
  0 <= s < e -> new_Position s e = Ok (mkPosition s e).
Proof.
  intros H. unfold new_Position.
  replace (0 <=? s) with true by (symmetry; apply Z.leb_le; lia).
  replace (0 <=? e) with true by (symmetry; apply Z.leb_le; lia).
  replace (e <=? s) with false by (symmetry; apply Z.leb_gt; lia).
  reflexivity.
Qed.

Lemma new_Hit_Ok w s e c src conf mt dm sug (h : Hit) :
  new_Hit w s e c src conf mt dm sug = Ok h ->
  h = mkHit w s e c src conf mt dm sug [mkPosition s e] /\ 0 <= s < e.
Proof.
  unfold new_Hit. destruct (new_Position s e) as [p|] eqn:Hp; simpl; [|discriminate].
  apply new_Position_Ok in Hp as [-> Hse]. intros [= <-]. auto.
Qed.

Lemma new_Hit_valid w s e c src conf mt dm sug :
  0 <= s < e ->
  new_Hit w s e c src conf mt dm sug
  = Ok (mkHit w s e c src conf mt dm sug [mkPosition s e]).
Proof.
  intros H. unfold new_Hit. rewrite new_Position_valid by assumption. reflexivity.
Qed.

Lemma in_concat_Forall {A : Type} (P : A -> Prop) (ll : list (list A)) :
  Forall (Forall P) ll -> Forall P (concat ll).
Proof.
  induction 1; simpl; [constructor|]. apply Forall_app; auto.
Qed.

(** A property that holds of every hit a result yields holds of every
    flattened hit. *)
Lemma convert_to_hits_Forall (cfg : ArbitrationConfig) (P : Hit -> Prop)
    (rbr : dict (list DetectionResultItem)) (hs : list Hit) :
  (forall rule_name r l h, hits_of_result cfg rule_name r = Ok l -> In h l -> P h) ->
  _convert_to_hits cfg rbr = Ok hs -> Forall P hs.
Proof.
  intros HP. unfold _convert_to_hits.
  destruct (mapM _ rbr) as [per_rule|] eqn:Hm; simpl; [|discriminate].
  intros [= <-]. apply in_concat_Forall.
  apply mapM_Forall2 in Hm.
  induction Hm as [|[rule_name rs] hl t t' Hx _ IH]; constructor; [|assumption].
  destruct (mapM (hits_of_result cfg rule_name) rs) as [hss|] eqn:Hr;
    simpl in Hx; [|discriminate].
  injection Hx as <-. apply in_concat_Forall.
  apply mapM_Forall2 in Hr. clear -Hr HP.
  induction Hr as [|r l ? ? Hl _ IH]; constructor; [|assumption].
  apply Forall_forall. intros h Hh. eapply HP; eauto.
Qed.

Lemma hits_of_result_inv (cfg : ArbitrationConfig) rule_name r l h :
  hits_of_result cfg rule_name r = Ok l -> In h l ->
  hit_wf h /\ 0 <= start h < end_ h
  /\ source h = rule_name
  /\ confidence h
     = py_min 1 (fmul (r_confidence r)
                   (dict_get_default (engine_weights cfg) rule_name 1%Q)).
Proof.
  unfold hits_of_result. destruct (r_positions r) as [|p ps].
  - destruct (new_Hit _ _ _ _ _ _ _ _ _) as [h0|] eqn:Hn; simpl; [|discriminate].
    intros [= <-] [<-|[]]. apply new_Hit_Ok in Hn as [-> Hse].
    unfold hit_wf; simpl. auto.
  - intros Hm Hin. apply mapM_Forall2 in Hm.
    remember (p :: ps) as pl eqn:Epl. clear Epl.
    induction Hm as [|pos h0 ? ? Hn _ IH]; [destruct Hin|].
    destruct Hin as [<-|Hin]; [|auto].
    apply new_Hit_Ok in Hn as [-> Hse]. unfold hit_wf; simpl. auto.
Qed.

Lemma convert_to_hits_wf cfg rbr hs :
  _convert_to_hits cfg rbr = Ok hs ->
  Forall (fun h => hit_wf h /\ 0 <= start h < end_ h) hs.
Proof.
  apply convert_to_hits_Forall. intros rn r l h Hl Hin.
  destruct (hits_of_result_inv cfg rn r l h Hl Hin) as (? & ? & _); auto.
Qed.

Lemma enhance_hit_inv cfg rbr h h' :
  enhance_hit cfg rbr h = Ok h' ->
  word h' = word h /\ start h' = start h /\ end_ h' = end_ h
  /\ category h' = category h /\ source h' = source h
  /\ (hit_wf h -> hit_wf h').
Proof.
  unfold enhance_hit. destruct (1 <? match_count h rbr).
  - intros Hn. apply new_Hit_Ok in Hn as [-> _]. unfold hit_wf; simpl. tauto.
  - intros [= <-]. tauto.
Qed.

Lemma weight_hit_inv cfg h h' :
  weight_hit cfg h = Ok h' ->
  word h' = word h /\ start h' = start h /\ end_ h' = end_ h
  /\ category h' = category h /\ source h' = source h /\ hit_wf h'
  /\ confidence h'
     = py_min 1 (fmul (confidence h)
                   (dict_get_default (category_weights cfg) (category h) 1%Q)).
Proof.
  unfold weight_hit. intros Hn. apply new_Hit_Ok in Hn as [-> _].
  unfold hit_wf; simpl. tauto.
Qed.

Lemma new_DetectionResultItem_Ok w c mt conf ps dm sug r :
  new_DetectionResultItem w c mt conf ps dm sug = Ok r ->
  r = mkDetectionResultItem w c mt conf ps dm sug /\ (0 <= conf <= 1)%Q.
Proof.
  unfold new_DetectionResultItem.
  destruct (Qle_bool 0 conf && Qle_bool conf 1) eqn:Hb; [|discriminate].
  intros [= <-]. apply andb_prop in Hb as [H0 H1].
  apply Qle_bool_iff in H0, H1. auto.
Qed.

Lemma new_DetectionResultItem_valid w c mt conf ps dm sug :
  (0 <= conf <= 1)%Q ->
  new_DetectionResultItem w c mt conf ps dm sug
  = Ok (mkDetectionResultItem w c mt conf ps dm sug).
Proof.
  intros [H0 H1]. unfold new_DetectionResultItem.
  apply Qle_bool_iff in H0, H1. rewrite H0, H1. reflexivity.
Qed.

Lemma result_of_hit_inv h r :
  result_of_hit h = Ok r ->
  matched_word r = word h /\ r_category r = category h
  /\ r_positions r = positions h /\ r_confidence r = confidence h
  /\ (0 <= r_confidence r <= 1)%Q.
Proof.
  unfold result_of_hit. intros Hn.
  apply new_DetectionResultItem_Ok in Hn as [-> Hc]. simpl. tauto.
Qed.

(** [arbitrate] returns exactly when every stage does; the stages then
    chain as in the source. *)
Lemma arbitrate_Ok cfg rbr final summ :
  arbitrate cfg rbr = Ok (final, summ) ->
  exists all_hits enhanced weighted items,
    _convert_to_hits cfg rbr = Ok all_hits
    /\ mapM (enhance_hit cfg rbr) (merged_hits_of cfg all_hits) = Ok enhanced
    /\ mapM (weight_hit cfg) (_filter_by_confidence cfg enhanced) = Ok weighted
    /\ mapM result_of_hit weighted = Ok items
    /\ final = _sort_results cfg items
    /\ summ = _generate_summary final.
Proof.
  unfold arbitrate, _enhance_multi_engine_matches, _apply_category_weights,
    _convert_to_detection_results.
  destruct (_convert_to_hits cfg rbr) as [all_hits|] eqn:H1; simpl; [|discriminate].
  fold (merged_hits_of cfg all_hits).
  destruct (mapM (enhance_hit cfg rbr) _) as [enhanced|] eqn:H2; simpl; [|discriminate].
  destruct (mapM (weight_hit cfg) _) as [weighted|] eqn:H3; simpl; [|discriminate].
  destruct (mapM result_of_hit weighted) as [items|] eqn:H4; simpl; [|discriminate].
  intros [= <- <-]. exists all_hits, enhanced, weighted, items. tauto.
Qed.

Lemma arbitrate_stages cfg rbr all_hits enhanced weighted items :
  _convert_to_hits cfg rbr = Ok all_hits ->
  mapM (enhance_hit cfg rbr) (merged_hits_of cfg all_hits) = Ok enhanced ->
  mapM (weight_hit cfg) (_filter_by_confidence cfg enhanced) = Ok weighted ->
  mapM result_of_hit weighted = Ok items ->
  arbitrate cfg rbr
  = Ok (_sort_results cfg items, _generate_summary (_sort_results cfg items)).
Proof.
  intros H1 H2 H3 H4.
  unfold arbitrate, _enhance_multi_engine_matches, _apply_category_weights,
    _convert_to_detection_results.
  rewrite H1; simpl. fold (merged_hits_of cfg all_hits).
  rewrite H2; simpl. rewrite H3; simpl. rewrite H4; simpl. reflexivity.
Qed.

(* ================================================================== *)
(** * No two final results overlap *)

Lemma FOP_with_Forall {A : Type} (P : A -> A -> Prop) (Q : A -> Prop) (l : list A) :
  Forall Q l -> ForallOrdPairs P l ->
  ForallOrdPairs (fun a b => Q a /\ Q b /\ P a b) l.
Proof.
  intros HQ HP. induction HP as [|x t Hx _ IH]; [constructor|].
  inversion HQ as [|? ? Qx Qt]; subst. constructor; [|auto].
  rewrite Forall_forall in *. intros y Hy. auto.
Qed.

Lemma merged_hits_ordered cfg rbr all_hits :
  enable_max_matching cfg = true ->
  _convert_to_hits cfg rbr = Ok all_hits ->
  ForallOrdPairs ordered_hits (merged_hits_of cfg all_hits).
Proof.
  intros Hen Hc. unfold merged_hits_of. rewrite Hen.
  apply FOP_with_Forall; [|apply merge_hits_greedy_ordered].
  apply convert_to_hits_wf in Hc. rewrite Forall_forall in *.
  intros h Hh. apply merge_hits_greedy_incl in Hh. apply Hc, Hh.
Qed.

Lemma ordered_hits_items (h1 h2 : Hit) (r1 r2 : DetectionResultItem) :
  result_of_hit h1 = Ok r1 -> result_of_hit h2 = Ok r2 ->
  ordered_hits h1 h2 -> ~ item_overlap r1 r2 /\ ~ item_overlap r2 r1.
Proof.
  intros H1 H2 (W1 & W2 & Hle).
  apply result_of_hit_inv in H1 as (_ & _ & P1 & _).
  apply result_of_hit_inv in H2 as (_ & _ & P2 & _).
  unfold hit_wf in W1, W2. rewrite W1 in P1. rewrite W2 in P2.
  unfold item_overlap, overlap. rewrite P1, P2.
  split; intros (pa & pb & Ha & Hb & Hlt1 & Hlt2);
    destruct Ha as [<-|[]]; destruct Hb as [<-|[]]; simpl in *; lia.
Qed.

(** C1. With merging enabled, no two distinct items of the list
    [arbitrate] returns have overlapping spans: never
    [a.start < b.end] together with [b.start < a.end]. *)
Theorem arbitrate_no_overlap :
  forall (cfg : ArbitrationConfig) (rbr : dict (list DetectionResultItem))
         (final : list DetectionResultItem) (summ : DetectionSummary),
    enable_max_matching cfg = true ->
    arbitrate cfg rbr = Ok (final, summ) ->
    forall (i j : nat) (a b : DetectionResultItem),
      i <> j ->
      nth_error final i = Some a -> nth_error final j = Some b ->
      ~ item_overlap a b.
Proof.
  intros cfg rbr final summ Hen Harb.
  apply arbitrate_Ok in Harb
    as (all_hits & enhanced & weighted & items & Hc & He & Hw & Hi & -> & _).
  assert (Hfop : ForallOrdPairs
                   (fun a b => ~ item_overlap a b /\ ~ item_overlap b a)
                   (_sort_results cfg items)).
  { apply FOP_Permutation with (l := items).
    - tauto.
    - symmetry. apply (sorted_Permutation tupleQ_lt (sort_key cfg)).
    - apply mapM_Forall2 in Hi.
      eapply FOP_Forall2; [|exact Hi|].
      { intros h1 h2 r1 r2 H1 H2 Ho. exact (ordered_hits_items _ _ _ _ H1 H2 Ho). }
      apply mapM_Forall2 in Hw.
      eapply FOP_Forall2 with (P := ordered_hits); [|exact Hw|].
      { intros h1 h2 h1' h2' H1 H2 (_ & _ & Hle).
        apply weight_hit_inv in H1 as (_ & S1 & E1 & _ & _ & W1 & _).
        apply weight_hit_inv in H2 as (_ & S2 & E2 & _ & _ & W2 & _).
        unfold ordered_hits. rewrite E1, S2. auto. }
      apply FOP_filter.
      apply mapM_Forall2 in He.
      eapply FOP_Forall2 with (P := ordered_hits); [|exact He|].
      { intros h1 h2 h1' h2' H1 H2 (W1 & W2 & Hle).
        apply enhance_hit_inv in H1 as (_ & S1 & E1 & _ & _ & W1').
        apply enhance_hit_inv in H2 as (_ & S2 & E2 & _ & _ & W2').
        unfold ordered_hits. rewrite E1, S2. auto. }
      eapply merged_hits_ordered; eauto. }
  intros i j a b Hij Ha Hb.
  destruct (Nat.lt_total i j) as [Hlt|[Heq|Hgt]]; [|contradiction|].
  - exact (proj1 (FOP_nth _ _ Hfop i j a b Hlt Ha Hb)).
  - exact (proj2 (FOP_nth _ _ Hfop j i b a Hgt Hb Ha)).
Qed.

Lemma arbitrate_no_overlap_witness :
  ~ item_overlap (sample_item "xyz" (9 # 10) 10 13)
                 (sample_item "abcd" (5 # 10) 0 4).
Proof.
  apply (arbitrate_no_overlap sample_config sample_results_by_rule
           sample_final_results sample_summary eq_refl eq_refl 0%nat 1%nat).
  - discriminate.
  - reflexivity.
  - reflexivity.
Defined.

(* ================================================================== *)
(** * The risk level *)

Lemma Qlt_bool_iff (x y : Q) : Qlt_bool x y = true <-> (x < y)%Q.
Proof.
  unfold Qlt_bool. rewrite negb_true_iff.
  split; intros H.
  - apply Qnot_le_lt. intros Hle. apply Qle_bool_iff in Hle. congruence.
  - destruct (Qle_bool y x) eqn:E; [|reflexivity].
    apply Qle_bool_iff in E. lra.
Qed.

Lemma Qlt_bool_false_iff (x y : Q) : Qlt_bool x y = false <-> (y <= x)%Q.
Proof.
  unfold Qlt_bool. rewrite negb_false_iff. apply Qle_bool_iff.
Qed.

Lemma py_max_step_Qmax (m y : Q) : ((if Qlt_bool m y then y else m) == Qmax m y)%Q.
Proof.
  destruct (Qlt_bool m y) eqn:E.
  - apply Qlt_bool_iff in E. symmetry. apply Q.max_r. lra.
  - apply Qlt_bool_false_iff in E. symmetry. apply Q.max_l. assumption.
Qed.

Lemma py_max_Qmax_list (xs : list Q) (m m' : Q) :
  (m == m')%Q -> (py_max m xs == Qmax_list (m' :: xs))%Q.
Proof.
  unfold py_max. revert m m'. induction xs as [|y t IH]; intros m m' Hm.
  - simpl. exact Hm.
  - cbn [fold_left]. rewrite (IH _ (Qmax m' y)).
    + change (Qmax_list (Qmax m' y :: t))
        with (match t with [] => Qmax m' y | _ => Qmax (Qmax m' y) (Qmax_list t) end).
      change (Qmax_list (m' :: y :: t)) with (Qmax m' (Qmax_list (y :: t))).
      destruct t as [|z t']; [reflexivity|].
      change (Qmax_list (y :: z :: t')) with (Qmax y (Qmax_list (z :: t'))).
      symmetry. apply Q.max_assoc.
    + rewrite py_max_step_Qmax. rewrite Hm. reflexivity.
Qed.

Lemma len_cons {A : Type} (x : A) (l : list A) : len (x :: l) = len l + 1.
Proof. unfold len. simpl List.length. lia. Qed.

Lemma fadd_comp_l (x x' y : Q) : (x == x')%Q -> fadd x y = fadd x' y.
Proof. intros H. apply b64_comp. rewrite H. reflexivity. Qed.

(** The accumulating loop adds one tenth, rounding the sum, once per result
    of a heavy category. *)
Lemma risk_loop_iter (cfg : ArbitrationConfig) (rs : list DetectionResultItem)
    (m m' : Q) :
  (m == m')%Q ->
  (fold_left
     (fun score r =>
        if Qle_bool (b64 (9 # 10))
             (dict_get_default (category_weights cfg) (r_category r) 1%Q)
        then fadd score (b64 (1 # 10)) else score) rs m
   == Nat.iter (List.length (filter (spec_float_high_weight cfg) rs))
        (fun s => fadd s (b64 (1 # 10))) m')%Q.
Proof.
  revert m m'. induction rs as [|r t IH]; intros m m' Hm.
  - exact Hm.
  - cbn [fold_left filter].
    change (Qle_bool (b64 (9 # 10))
              (dict_get_default (category_weights cfg) (r_category r) 1%Q))
      with (spec_float_high_weight cfg r).
    destruct (spec_float_high_weight cfg r).
    + cbn [List.length]. rewrite Nat.iter_succ_r. apply IH.
      rewrite (fadd_comp_l _ _ _ Hm). reflexivity.
    + apply IH, Hm.
Qed.

Lemma spec_float_level_Qeq (x y : Q) :
  (x == y)%Q -> spec_float_level x = spec_float_level y.
Proof.
  intros H. unfold spec_float_level.
  rewrite (Qleb_comp _ _ (Qeq_refl (b64 (9 # 10))) _ _ H).
  rewrite (Qleb_comp _ _ (Qeq_refl (b64 (7 # 10))) _ _ H).
  rewrite (Qleb_comp _ _ (Qeq_refl (b64 (5 # 10))) _ _ H).
  reflexivity.
Qed.

(** C3, amended. [calculate_overall_risk_level] is LOW on the empty list
    and otherwise the level of the score summed in floats: the largest
    confidence, plus 0.1 once per result whose category weight (1.0 when
    unspecified) is at least 0.9, plus 0.2 for five or more results or
    else 0.1 for three or more, every sum rounded to binary64; at least
    0.9 is CRITICAL, at least 0.7 HIGH, at least 0.5 MEDIUM, anything
    lower LOW. *)
Theorem calculate_overall_risk_level_spec :
  forall (cfg : ArbitrationConfig) (rs : list DetectionResultItem),
    calculate_overall_risk_level cfg rs = spec_float_risk_level cfg rs.
Proof.
  intros cfg [|first rest]; [reflexivity|].
  unfold spec_float_risk_level. set (rs := first :: rest).
  change (calculate_overall_risk_level cfg rs)
    with (spec_float_level
            (let score :=
               fold_left
                 (fun score r =>
                    if Qle_bool (b64 (9 # 10))
                         (dict_get_default (category_weights cfg) (r_category r)
                            1%Q)
                    then fadd score (b64 (1 # 10)) else score) rs
                 (py_max (r_confidence first) (map r_confidence rest)) in
             if 5 <=? len rs then fadd score (b64 (2 # 10))
             else if 3 <=? len rs then fadd score (b64 (1 # 10)) else score)).
  apply spec_float_level_Qeq. unfold spec_float_score. cbv zeta.
  pose proof (risk_loop_iter cfg rs _ (spec_max_confidence rs)
                (py_max_Qmax_list (map r_confidence rest) _ _
                   (Qeq_refl (r_confidence first)))) as Hscore.
  destruct (5 <=? len rs); [rewrite (fadd_comp_l _ _ _ Hscore); reflexivity|].
  destruct (3 <=? len rs); [rewrite (fadd_comp_l _ _ _ Hscore); reflexivity|].
  exact Hscore.
Qed.

(** C3 as stated fails: for three results of confidence 0.5 the exact sum
    is 0.5 + 3 * 0.1 + 0.1 = 0.9, which is CRITICAL, while the floats give
    0.8999999999999999 and HIGH. *)
Lemma risk_level_differs_from_exact_sum :
  calculate_overall_risk_level sample_config three_at_half = HIGH
  /\ spec_risk_level sample_config three_at_half = CRITICAL
  /\ Forall (fun r => r_confidence r = (1 # 2)%Q) three_at_half.
Proof.
  split; [vm_compute; reflexivity|]. split; [vm_compute; reflexivity|].
  repeat constructor.
Qed.

(** Two results of confidence 0.7 add up to 0.8999999999999999 and give
    HIGH as well. *)
Example risk_level_two_at_0_7 :
  calculate_overall_risk_level sample_config two_at_0_7 = HIGH.
Proof. vm_compute. reflexivity. Qed.

(* ================================================================== *)
(** * Confidence bounds *)

Lemma py_min_le_1 (x : Q) : (py_min 1 x <= 1)%Q.
Proof.
  unfold py_min. destruct (Qlt_bool x 1) eqn:E; [|lra].
  apply Qlt_bool_iff in E. lra.
Qed.

Lemma py_min_nonneg (x : Q) : (0 <= x)%Q -> (0 <= py_min 1 x)%Q.
Proof. intros H. unfold py_min. destruct (Qlt_bool x 1); lra. Qed.

Lemma py_min_mono (x y : Q) : (x <= y)%Q -> (py_min 1 x <= py_min 1 y)%Q.
Proof.
  intros H. unfold py_min.
  destruct (Qlt_bool x 1) eqn:Ex; destruct (Qlt_bool y 1) eqn:Ey;
    rewrite ?Qlt_bool_iff, ?Qlt_bool_false_iff in *; lra.
Qed.

Lemma py_min_ge (x y : Q) : (x <= 1)%Q -> (x <= y)%Q -> (x <= py_min 1 y)%Q.
Proof. intros H1 H2. unfold py_min. destruct (Qlt_bool y 1); lra. Qed.

Lemma dict_get_default_nonneg (d : dict Q) (k : str) :
  nonneg_weights d -> (0 <= dict_get_default d k 1)%Q.
Proof.
  intros H. unfold dict_get_default.
  destruct (dict_get d k) as [v|] eqn:E; [eapply H; eauto|lra].
Qed.

Lemma Qmult_nonneg (x y : Q) : (0 <= x)%Q -> (0 <= y)%Q -> (0 <= x * y)%Q.
Proof. intros. apply Qmult_le_0_compat; assumption. Qed.

Lemma convert_to_hits_le_1 cfg rbr hs :
  _convert_to_hits cfg rbr = Ok hs -> Forall (fun h => (confidence h <= 1)%Q) hs.
Proof.
  apply convert_to_hits_Forall. intros rn r l h Hl Hin.
  destruct (hits_of_result_inv cfg rn r l h Hl Hin) as (_ & _ & _ & ->).
  apply py_min_le_1.
Qed.

Lemma hits_of_result_in cfg (rbr : dict (list DetectionResultItem)) hs h :
  _convert_to_hits cfg rbr = Ok hs -> In h hs ->
  exists rule_name rs r l,
    In (rule_name, rs) rbr /\ In r rs
    /\ hits_of_result cfg rule_name r = Ok l /\ In h l.
Proof.
  unfold _convert_to_hits.
  destruct (mapM _ rbr) as [per_rule|] eqn:Hm; simpl; [|discriminate].
  intros [= <-] Hin. apply in_concat in Hin as (hl & Hhl & Hin).
  apply mapM_Forall2 in Hm.
  induction Hm as [|[rule_name rs] hl' t t' Hx _ IH]; [destruct Hhl|].
  destruct Hhl as [->|Hhl].
  - destruct (mapM (hits_of_result cfg rule_name) rs) as [hss|] eqn:Hr;
      simpl in Hx; [|discriminate].
    injection Hx as <-. apply in_concat in Hin as (l & Hl & Hin).
    apply mapM_Forall2 in Hr.
    assert (exists r, In r rs /\ hits_of_result cfg rule_name r = Ok l)
      as (r & Hr1 & Hr2).
    { clear -Hr Hl. induction Hr as [|r l0 ? ? Hl0 _ IH]; [destruct Hl|].
      destruct Hl as [->|Hl].
      - exists r. split; [left; reflexivity|assumption].
      - destruct (IH Hl) as (r' & ? & ?). exists r'. split; [right|]; assumption. }
    exists rule_name, rs, r, l. repeat split; auto. left; reflexivity.
  - destruct (IH Hhl) as (rn & rs' & r & l & H1 & H2 & H3 & H4).
    exists rn, rs', r, l. repeat split; auto. right; assumption.
Qed.

Lemma sort_results_Forall cfg (P : DetectionResultItem -> Prop) items :
  Forall P items -> Forall P (_sort_results cfg items).
Proof.
  intros H. eapply Permutation_Forall; [|exact H].
  symmetry. apply (sorted_Permutation tupleQ_lt (sort_key cfg)).
Qed.

(** Valid input goes through every constructor when the threshold and the
    category weights are non-negative: [arbitrate] returns. *)
Lemma arbitrate_returns cfg rbr :
  valid_input rbr ->
  (0 <= confidence_threshold cfg)%Q ->
  nonneg_weights (category_weights cfg) ->
  exists final summ, arbitrate cfg rbr = Ok (final, summ).
Proof.
  intros Hv Hth Hcw.
  assert (H1 : exists all_hits, _convert_to_hits cfg rbr = Ok all_hits).
  { unfold _convert_to_hits.
    assert (exists per_rule,
               mapM (fun '(rule_name, rs) =>
                       hs <- mapM (hits_of_result cfg rule_name) rs ;;
                       Ok (concat hs)) rbr = Ok per_rule) as [per_rule ->].
    { apply mapM_total. eapply Forall_impl; [|exact Hv].
      intros [rule_name rs] Hrs. simpl in Hrs.
      assert (exists hss, mapM (hits_of_result cfg rule_name) rs = Ok hss)
        as [hss ->].
      { apply mapM_total. eapply Forall_impl; [|exact Hrs].
        intros r (_ & Hpos & Hword). unfold hits_of_result.
        destruct (r_positions r) as [|p ps] eqn:Ep.
        - rewrite new_Hit_valid; [eexists; reflexivity|].
          specialize (Hword eq_refl). unfold len.
          destruct (matched_word r); [contradiction|simpl; lia].
        - apply mapM_total. eapply Forall_impl; [|exact Hpos].
          intros pos Hp. simpl. rewrite new_Hit_valid by assumption.
          eexists; reflexivity. }
      simpl. eexists; reflexivity. }
    simpl. eexists; reflexivity. }
  destruct H1 as [all_hits H1].
  pose proof (convert_to_hits_wf _ _ _ H1) as Hwf.
  assert (Hm : Forall (fun h => 0 <= start h < end_ h) (merged_hits_of cfg all_hits)).
  { unfold merged_hits_of. rewrite Forall_forall in *.
    destruct (enable_max_matching cfg); intros h Hh.
    - apply merge_hits_greedy_incl in Hh. apply Hwf, Hh.
    - apply Hwf, Hh. }
  assert (H2 : exists enhanced,
             mapM (enhance_hit cfg rbr) (merged_hits_of cfg all_hits) = Ok enhanced).
  { apply mapM_total. eapply Forall_impl; [|exact Hm].
    intros h Hh. unfold enhance_hit. destruct (1 <? match_count h rbr).
    - rewrite new_Hit_valid by assumption. eexists; reflexivity.
    - eexists; reflexivity. }
  destruct H2 as [enhanced H2].
  assert (He : Forall (fun h => 0 <= start h < end_ h) enhanced).
  { apply mapM_Forall2 in H2. clear -H2 Hm.
    induction H2 as [|h h' ? ? Hh _ IH]; [constructor|].
    inversion Hm; subst. constructor; [|auto].
    apply enhance_hit_inv in Hh as (_ & -> & -> & _). assumption. }
  assert (H3 : exists weighted,
             mapM (weight_hit cfg) (_filter_by_confidence cfg enhanced) = Ok weighted).
  { apply mapM_total. rewrite Forall_forall in *. intros h Hh.
    apply filter_In in Hh as [Hh _]. unfold weight_hit.
    rewrite new_Hit_valid by auto. eexists; reflexivity. }
  destruct H3 as [weighted H3].
  assert (H4 : exists items, mapM result_of_hit weighted = Ok items).
  { apply mapM_total. apply mapM_Forall2 in H3.
    remember (_filter_by_confidence cfg enhanced) as filtered eqn:Ef.
    assert (Hf : Forall (fun h => (0 <= confidence h)%Q) filtered).
    { subst filtered. apply Forall_forall. intros h Hh.
      apply filter_In in Hh as [_ Hc]. apply Qle_bool_iff in Hc. lra. }
    clear -H3 Hf Hcw.
    induction H3 as [|h h' ? ? Hh _ IH]; [constructor|].
    inversion Hf; subst. constructor; [|auto].
    apply weight_hit_inv in Hh as (Hw & _ & _ & Hc & _ & _ & Hconf).
    unfold result_of_hit. rewrite new_DetectionResultItem_valid.
    - eexists; reflexivity.
    - rewrite Hconf. split; [|apply py_min_le_1].
      apply py_min_nonneg, fmul_nonneg; [assumption|].
      apply dict_get_default_nonneg, Hcw. }
  destruct H4 as [items H4].
  eexists _, _. eapply arbitrate_stages; eauto.
Qed.

Lemma boost_nonneg cfg (n : Z) :
  (0 <= confidence_boost_factor cfg)%Q -> 1 < n ->
  (0 <= fmul (confidence_boost_factor cfg) (inject_Z (n - 1)))%Q.
Proof.
  intros Hb Hn. apply fmul_nonneg; [assumption|].
  change 0%Q with (inject_Z 0). rewrite <- Zle_Qle. lia.
Qed.

(** A boosted confidence is at most 1.0, stays non-negative, and is not
    below the confidence it was computed from when that is a binary64
    value. *)
Lemma enhance_hit_confidence cfg rbr h h' :
  enhance_hit cfg rbr h = Ok h' ->
  ((confidence h <= 1)%Q -> (confidence h' <= 1)%Q)
  /\ ((0 <= confidence_boost_factor cfg)%Q ->
      ((0 <= confidence h)%Q -> (0 <= confidence h')%Q)
      /\ (binary64 (confidence h) -> (confidence h <= 1)%Q ->
          (confidence h <= confidence h')%Q)).
Proof.
  unfold enhance_hit. destruct (1 <? match_count h rbr) eqn:Hn.
  - apply Z.ltb_lt in Hn. intros Hh. apply new_Hit_Ok in Hh as [-> _]. simpl.
    split; [intros _; apply py_min_le_1|].
    intros Hb. pose proof (boost_nonneg cfg _ Hb Hn) as Hboost.
    split.
    + intros Hc. apply py_min_nonneg, fadd_nonneg; assumption.
    + intros Hd Hc. apply py_min_ge; [assumption|].
      apply fadd_ge_l; assumption.
  - intros [= <-]. split; [tauto|]. intros _. split; [tauto|]. intros _ _. lra.
Qed.

Lemma enhance_hit_binary64 cfg rbr h h' :
  enhance_hit cfg rbr h = Ok h' ->
  binary64 (confidence h) -> binary64 (confidence h').
Proof.
  unfold enhance_hit. destruct (1 <? match_count h rbr).
  - intros Hh _. apply new_Hit_Ok in Hh as [-> _]. simpl.
    apply binary64_py_min, binary64_b64.
  - intros [= <-] H. exact H.
Qed.

(** The confidence of a hit, as [_convert_to_hits] computes it, is a
    binary64 value. *)
Lemma convert_to_hits_binary64 cfg rbr hs :
  _convert_to_hits cfg rbr = Ok hs -> Forall (fun h => binary64 (confidence h)) hs.
Proof.
  apply convert_to_hits_Forall. intros rn r l h Hl Hin.
  destruct (hits_of_result_inv cfg rn r l h Hl Hin) as (_ & _ & _ & ->).
  apply binary64_py_min, binary64_b64.
Qed.

(** C9. Every item of the list [arbitrate] returns has its confidence in
    [[0, 1]].  On the way, engine weighting, corroboration boosting and
    category weighting each leave a confidence of at most 1.0, and each
    keeps it non-negative for a non-negative engine weight, boost factor
    and category weight.  On valid input, with a non-negative threshold and
    non-negative category weights, [arbitrate] does return. *)
Theorem arbitrate_confidence_bounds :
  forall (cfg : ArbitrationConfig) (rbr : dict (list DetectionResultItem)),
    unit_confidences rbr ->
    (forall final summ,
        arbitrate cfg rbr = Ok (final, summ) ->
        Forall (fun r => in_unit (r_confidence r)) final)
    /\ (forall all_hits,
           _convert_to_hits cfg rbr = Ok all_hits ->
           Forall (fun h => (confidence h <= 1)%Q
                            /\ (nonneg_weights (engine_weights cfg) ->
                                (0 <= confidence h)%Q)) all_hits)
    /\ (forall h h',
           enhance_hit cfg rbr h = Ok h' ->
           ((confidence h <= 1)%Q -> (confidence h' <= 1)%Q)
           /\ ((0 <= confidence_boost_factor cfg)%Q ->
               (0 <= confidence h)%Q -> (0 <= confidence h')%Q))
    /\ (forall h h',
           weight_hit cfg h = Ok h' ->
           (confidence h' <= 1)%Q
           /\ (nonneg_weights (category_weights cfg) ->
               (0 <= confidence h)%Q -> (0 <= confidence h')%Q))
    /\ (valid_input rbr ->
        (0 <= confidence_threshold cfg)%Q ->
        nonneg_weights (category_weights cfg) ->
        exists final summ, arbitrate cfg rbr = Ok (final, summ)).
Proof.
  intros cfg rbr Hin. split; [|split; [|split; [|split]]].
  - intros final summ Harb.
    apply arbitrate_Ok in Harb as (? & ? & ? & items & _ & _ & _ & Hi & -> & _).
    apply sort_results_Forall. apply mapM_Forall2 in Hi.
    clear -Hi. induction Hi as [|h r ? ? Hr _ IH]; constructor; [|assumption].
    apply result_of_hit_inv in Hr. unfold in_unit. tauto.
  - intros all_hits Hc. apply Forall_forall. intros h Hh. split.
    + pose proof (convert_to_hits_le_1 _ _ _ Hc) as Hle.
      rewrite Forall_forall in Hle. auto.
    + intros Hew.
      destruct (hits_of_result_in _ _ _ _ Hc Hh)
        as (rule_name & rs & r & l & Hrbr & Hr & Hl & Hhl).
      destruct (hits_of_result_inv _ _ _ _ _ Hl Hhl) as (_ & _ & _ & ->).
      apply py_min_nonneg, fmul_nonneg;
        [|apply dict_get_default_nonneg, Hew].
      unfold unit_confidences in Hin. rewrite Forall_forall in Hin.
      specialize (Hin _ Hrbr). simpl in Hin. rewrite Forall_forall in Hin.
      apply (Hin r Hr).
  - intros h h' He. apply enhance_hit_confidence in He. tauto.
  - intros h h' Hw. apply weight_hit_inv in Hw as (_ & _ & _ & _ & _ & _ & ->).
    split; [apply py_min_le_1|].
    intros Hcw Hc. apply py_min_nonneg, fmul_nonneg; [assumption|].
    apply dict_get_default_nonneg, Hcw.
  - apply arbitrate_returns.
Qed.

Lemma arbitrate_confidence_bounds_witness :
  Forall (fun r => in_unit (r_confidence r)) sample_final_results.
Proof.
  assert (Hin : unit_confidences sample_results_by_rule).
  { unfold unit_confidences, in_unit, sample_results_by_rule. simpl.
    repeat constructor; vm_compute; discriminate. }
  exact (proj1 (arbitrate_confidence_bounds sample_config
                  sample_results_by_rule Hin)
           sample_final_results sample_summary eq_refl).
Defined.

(* ================================================================== *)
(** * Corroboration *)

Lemma Forall2_in_left {A B : Type} (R : A -> B -> Prop) (l : list A) (l' : list B)
    (x : A) :
  Forall2 R l l' -> In x l -> exists y, In y l' /\ R x y.
Proof.
  induction 1 as [|a b t t' Hab _ IH]; intros Hin; [destruct Hin|].
  destruct Hin as [->|Hin].
  - exists b. split; [left; reflexivity|assumption].
  - destruct (IH Hin) as (y & Hy & Hr). exists y. split; [right|]; assumption.
Qed.

(** The items [arbitrate] returns are the outcomes of the merged hits. *)
Lemma arbitrate_hit_outcome cfg rbr all_hits final summ h :
  _convert_to_hits cfg rbr = Ok all_hits ->
  arbitrate cfg rbr = Ok (final, summ) ->
  In h (merged_hits_of cfg all_hits) ->
  exists o, hit_outcome cfg rbr h = Ok o /\ forall r, o = Some r -> In r final.
Proof.
  intros Hc Harb Hin.
  apply arbitrate_Ok in Harb
    as (all_hits' & enhanced & weighted & items & Hc' & He & Hw & Hi & -> & _).
  rewrite Hc in Hc'. injection Hc' as <-.
  apply mapM_Forall2 in He, Hw, Hi.
  destruct (Forall2_in_left _ _ _ _ He Hin) as (h1 & Hin1 & Hh1).
  unfold hit_outcome. rewrite Hh1. simpl.
  destruct (Qle_bool (confidence_threshold cfg) (confidence h1)) eqn:Hth.
  - assert (Hf : In h1 (_filter_by_confidence cfg enhanced)).
    { apply filter_In. auto. }
    destruct (Forall2_in_left _ _ _ _ Hw Hf) as (h2 & Hin2 & Hh2).
    destruct (Forall2_in_left _ _ _ _ Hi Hin2) as (r & Hinr & Hr).
    rewrite Hh2. simpl. rewrite Hr. simpl.
    exists (Some r). split; [reflexivity|]. intros r' [= <-].
    eapply Permutation_in; [|exact Hinr].
    symmetry. apply (sorted_Permutation tupleQ_lt (sort_key cfg)).
  - exists None. split; [reflexivity|]. discriminate.
Qed.

(** A single rule never corroborates itself. *)
Lemma enhance_hit_alone cfg rule_name rs h :
  enhance_hit cfg [(rule_name, rs)] h = Ok h.
Proof.
  unfold enhance_hit, match_count; simpl.
  destruct (rule_matches h rs); reflexivity.
Qed.

(** C4, amended. When a hit survives the merge of the joint input, its
    final confidence is at least the final confidence that the rule it
    comes from obtains for it when run alone, on whatever results [rs] of
    its own keep the hit through the merge and return it; this for a
    non-negative boost factor and non-negative category weights.  The two
    results agree in word, category and span. *)
Theorem corroboration_monotone_for_surviving_rule :
  forall (cfg : ArbitrationConfig) (rbr : dict (list DetectionResultItem))
         (rs : list DetectionResultItem) (h : Hit)
         (all_hits hits_alone : list Hit)
         (final final_alone : list DetectionResultItem)
         (summ summ_alone : DetectionSummary) (r_alone : DetectionResultItem),
    (0 <= confidence_boost_factor cfg)%Q ->
    nonneg_weights (category_weights cfg) ->
    _convert_to_hits cfg rbr = Ok all_hits ->
    In h (merged_hits_of cfg all_hits) ->
    _convert_to_hits cfg [(source h, rs)] = Ok hits_alone ->
    In h (merged_hits_of cfg hits_alone) ->
    arbitrate cfg rbr = Ok (final, summ) ->
    arbitrate cfg [(source h, rs)] = Ok (final_alone, summ_alone) ->
    hit_outcome cfg [(source h, rs)] h = Ok (Some r_alone) ->
    In r_alone final_alone
    /\ exists r,
         hit_outcome cfg rbr h = Ok (Some r) /\ In r final
         /\ matched_word r = matched_word r_alone
         /\ r_category r = r_category r_alone
         /\ r_positions r = r_positions r_alone
         /\ (r_confidence r_alone <= r_confidence r)%Q.
Proof.
  intros cfg rbr rs h all_hits hits_alone final final_alone summ summ_alone
    r_alone Hb Hcw Hc Hin Hca Hina Harb Harba Hout.
  split.
  - destruct (arbitrate_hit_outcome _ _ _ _ _ _ Hca Harba Hina) as (o & Ho & Hfin).
    rewrite Hout in Ho. injection Ho as <-. apply Hfin. reflexivity.
  - destruct (arbitrate_hit_outcome _ _ _ _ _ _ Hc Harb Hin) as (o & Ho & Hfin).
    assert (Hall : In h all_hits).
    { unfold merged_hits_of in Hin. destruct (enable_max_matching cfg); [|assumption].
      apply merge_hits_greedy_incl, Hin. }
    assert (Hle1 : (confidence h <= 1)%Q).
    { pose proof (convert_to_hits_le_1 _ _ _ Hc) as Hle.
      rewrite Forall_forall in Hle. apply Hle, Hall. }
    assert (Hd : binary64 (confidence h)).
    { pose proof (convert_to_hits_binary64 _ _ _ Hc) as Hbin.
      rewrite Forall_forall in Hbin. apply Hbin, Hall. }
    unfold hit_outcome in Hout. rewrite enhance_hit_alone in Hout. simpl in Hout.
    destruct (Qle_bool (confidence_threshold cfg) (confidence h)) eqn:Hth;
      [|discriminate].
    destruct (weight_hit cfg h) as [w0|] eqn:Hw0; simpl in Hout; [|discriminate].
    destruct (result_of_hit w0) as [r0|] eqn:Hr0; simpl in Hout; [|discriminate].
    injection Hout as <-.
    unfold hit_outcome in Ho.
    destruct (enhance_hit cfg rbr h) as [h1|] eqn:Hh1; simpl in Ho; [|discriminate].
    pose proof (enhance_hit_confidence _ _ _ _ Hh1) as (_ & Hmono).
    destruct (Hmono Hb) as (_ & Hge). specialize (Hge Hd Hle1).
    pose proof (enhance_hit_inv _ _ _ _ Hh1) as (Ew & Es & Ee & Ec & _ & _).
    assert (Hth1 : Qle_bool (confidence_threshold cfg) (confidence h1) = true).
    { apply Qle_bool_iff. apply Qle_bool_iff in Hth. lra. }
    rewrite Hth1 in Ho.
    destruct (weight_hit cfg h1) as [w1|] eqn:Hw1; simpl in Ho; [|discriminate].
    destruct (result_of_hit w1) as [r1|] eqn:Hr1; simpl in Ho; [|discriminate].
    injection Ho as <-. exists r1.
    split.
    { unfold hit_outcome. rewrite Hh1. simpl. rewrite Hth1, Hw1. simpl.
      rewrite Hr1. reflexivity. }
    split; [apply Hfin; reflexivity|].
    apply weight_hit_inv in Hw0 as (Ww0 & Ws0 & We0 & Wc0 & _ & Wf0 & Wq0).
    apply weight_hit_inv in Hw1 as (Ww1 & Ws1 & We1 & Wc1 & _ & Wf1 & Wq1).
    apply result_of_hit_inv in Hr0 as (Rw0 & Rc0 & Rp0 & Rq0 & _).
    apply result_of_hit_inv in Hr1 as (Rw1 & Rc1 & Rp1 & Rq1 & _).
    repeat split.
    + congruence.
    + congruence.
    + unfold hit_wf in Wf0, Wf1. congruence.
    + rewrite Rq0, Rq1, Wq0, Wq1, Ec. apply py_min_mono.
      apply fmul_mono_l; [assumption|].
      apply dict_get_default_nonneg, Hcw.
Qed.

Lemma sample_config_nonneg_weights :
  nonneg_weights (category_weights sample_config).
Proof. intros k v H. discriminate H. Qed.

Lemma corroboration_monotone_for_surviving_rule_witness :
  In (sample_item "abc" (6 # 10) 0 3) [sample_item "abc" (6 # 10) 0 3]
  /\ exists r,
       hit_outcome sample_config corroborated_results_by_rule rule_a_hit
       = Ok (Some r)
       /\ In r [sample_item "abc" (70 # 100) 0 3]
       /\ matched_word r = lit "abc"
       /\ r_category r = lit "test"
       /\ r_positions r = [mkPosition 0 3]
       /\ (r_confidence (sample_item "abc" (6 # 10) 0 3) <= r_confidence r)%Q.
Proof.
  apply (corroboration_monotone_for_surviving_rule sample_config
           corroborated_results_by_rule [sample_item "abc" (6 # 10) 0 3]
           rule_a_hit
           [rule_a_hit;
            mkHit (lit "abc") 0 3 (lit "test") (lit "rule_b") (b64 (9 # 10))
              EXACT RULE None [mkPosition 0 3]]
           [rule_a_hit]
           [sample_item "abc" (70 # 100) 0 3]
           [sample_item "abc" (6 # 10) 0 3]
           (mkDetectionSummary 1 [lit "test"] (Some (lit "test")))
           (mkDetectionSummary 1 [lit "test"] (Some (lit "test")))
           (sample_item "abc" (6 # 10) 0 3)).
  - vm_compute. discriminate.
  - exact sample_config_nonneg_weights.
  - vm_compute. reflexivity.
  - left. reflexivity.
  - vm_compute. reflexivity.
  - left. reflexivity.
  - vm_compute. reflexivity.
  - vm_compute. reflexivity.
  - vm_compute. reflexivity.
Defined.

(** C4 as stated fails: two rules report the same word and category at the
    same span with confidences 0.6 and 0.9; the merge keeps the hit of the
    first, and the joint confidence 0.7 is below the 0.9 that the second
    rule obtains alone; no clamping is involved. *)
Lemma corroboration_below_single_rule :
  arbitrate sample_config corroborated_results_by_rule
  = Ok ([sample_item "abc" (70 # 100) 0 3],
        mkDetectionSummary 1 [lit "test"] (Some (lit "test")))
  /\ arbitrate sample_config rule_b_alone
     = Ok ([sample_item "abc" (9 # 10) 0 3],
           mkDetectionSummary 1 [lit "test"] (Some (lit "test")))
  /\ (b64 (70 # 100) < b64 (9 # 10))%Q /\ (b64 (9 # 10) < 1)%Q.
Proof. repeat split; vm_compute; reflexivity. Qed.

(** A hit of the pair need not survive at all: a third rule's longer hit
    at the same start evicts the hits of both rules that report the
    pair. *)
Example corroborated_pair_can_be_evicted :
  arbitrate sample_config
    (corroborated_results_by_rule
     ++ [(lit "rule_c", [sample_item "abcd" (5 # 10) 0 4])])
  = Ok ([sample_item "abcd" (5 # 10) 0 4],
        mkDetectionSummary 1 [lit "test"] (Some (lit "test"))).
Proof. vm_compute. reflexivity. Qed.

(* ================================================================== *)
(** * [split_text] *)

Lemma py_getitem_valid (s : str) (i : Z) :
  0 <= i < len s -> exists c, py_getitem s i = Ok c.
Proof.
  intros H. unfold py_getitem.
  replace (i <? 0) with false by (symmetry; apply Z.ltb_ge; lia).
  replace (i <? 0) with false by (symmetry; apply Z.ltb_ge; lia).
  replace (len s <=? i) with false by (symmetry; apply Z.leb_gt; lia).
  simpl. destruct (nth_error s (Z.to_nat i)) as [c|] eqn:E; [eauto|].
  apply nth_error_None in E. unfold len in H. lia.
Qed.

(** The backward search stays within the text and lands after the lowest
    index it visits. *)
Lemma find_split_spec (text : str) (steps : nat) (i : Z) :
  -1 <= i - Z.of_nat steps -> i < len text ->
  exists o, find_split text i steps = Ok o
            /\ forall e, o = Some e -> i - Z.of_nat steps + 1 < e <= i + 1.
Proof.
  revert i. induction steps as [|n IH]; intros i Hlo Hhi.
  - exists None. split; [reflexivity|discriminate].
  - cbn [find_split].
    destruct (py_getitem_valid text i) as [c ->]; [lia|]. simpl.
    destruct (sentence_end c).
    + exists (Some (i + 1)). split; [reflexivity|]. intros e [= <-]. lia.
    + destruct (IH (i - 1)) as (o & Ho & He); [lia|lia|].
      exists o. split; [assumption|]. intros e Hoe. specialize (He e Hoe). lia.
Qed.

Lemma py_slice_forward (s : str) (lo hi : Z) :
  0 <= lo <= hi -> lo <= len s ->
  py_slice s lo hi
  = firstn (Z.to_nat (Z.min hi (len s) - lo)) (skipn (Z.to_nat lo) s).
Proof.
  intros H Hlo. unfold py_slice, slice_bound.
  replace (lo <? 0) with false by (symmetry; apply Z.ltb_ge; lia).
  replace (hi <? 0) with false by (symmetry; apply Z.ltb_ge; lia).
  replace (Z.min lo (len s)) with lo by lia. reflexivity.
Qed.

(** A chunk followed by the rest of the text is the text from the chunk's
    start. *)
Lemma chunk_then_rest (s : str) (lo hi : Z) :
  0 <= lo < hi -> lo <= len s ->
  py_slice s lo hi ++ skipn (Z.to_nat hi) s = skipn (Z.to_nat lo) s.
Proof.
  intros H Hlo. rewrite py_slice_forward by lia.
  set (k := Z.to_nat (Z.min hi (len s) - lo)).
  rewrite <- (firstn_skipn k (skipn (Z.to_nat lo) s)) at 2.
  f_equal. rewrite skipn_skipn.
  destruct (Z.le_gt_cases hi (len s)) as [Hle|Hgt].
  - f_equal. unfold k. lia.
  - rewrite !skipn_all2; [reflexivity| |]; unfold k, len in *; lia.
Qed.

(** The new [end] of one iteration: after [start], however the search
    ends. *)
Lemma split_end_spec (text : str) (max_length start : Z) :
  1 <= max_length -> 0 <= start ->
  exists o,
    (if start + max_length <? len text
     then find_split text (start + max_length)
            (Z.to_nat (start + max_length - (start + max_length / 2)))
     else Ok None) = Ok o
    /\ start < match o with Some e => e | None => start + max_length end.
Proof.
  intros Hm Hs. destruct (start + max_length <? len text) eqn:Hlt.
  - apply Z.ltb_lt in Hlt.
    assert (Hhalf : 0 <= max_length / 2 < max_length).
    { split; [apply Z.div_pos; lia|apply Z.div_lt; lia]. }
    destruct (find_split_spec text
                (Z.to_nat (start + max_length - (start + max_length / 2)))
                (start + max_length)) as (o & Ho & He); [lia|lia|].
    exists o. split; [assumption|].
    destruct o as [e|]; [specialize (He e eq_refl)|]; lia.
  - exists None. split; [reflexivity|lia].
Qed.

Lemma split_loop_spec (text : str) (max_length : Z) :
  1 <= max_length ->
  forall (fuel : nat) (start : Z) (chunks : list str),
    0 <= start -> len text - start <= Z.of_nat fuel ->
    exists rest,
      split_loop fuel text max_length start chunks = Some (Ok (chunks ++ rest))
      /\ concat rest = skipn (Z.to_nat start) text.
Proof.
  intros Hm. induction fuel as [|fuel IH]; intros start chunks Hs Hfuel.
  - exists []. simpl.
    replace (start <? len text) with false by (symmetry; apply Z.ltb_ge; lia).
    rewrite app_nil_r. split; [reflexivity|].
    rewrite skipn_all2; [reflexivity|unfold len in *; lia].
  - cbn [split_loop]. destruct (start <? len text) eqn:Hlt.
    + apply Z.ltb_lt in Hlt.
      destruct (split_end_spec text max_length start Hm Hs) as (o & -> & Hend).
      set (end1 := match o with Some e => e | None => start + max_length end) in *.
      destruct (IH end1 (chunks ++ [py_slice text start end1]))
        as (rest & Hrest & Hcat); [lia|lia|].
      exists (py_slice text start end1 :: rest). split.
      * rewrite Hrest, <- app_assoc. reflexivity.
      * simpl. rewrite Hcat. apply chunk_then_rest; lia.
    + apply Z.ltb_ge in Hlt. exists []. rewrite app_nil_r.
      split; [reflexivity|].
      rewrite skipn_all2; [reflexivity|unfold len in *; lia].
Qed.

(** More fuel does not change a result already reached. *)
Lemma split_loop_more_fuel (text : str) (max_length : Z) :
  forall (fuel fuel' : nat) (start : Z) (chunks : list str)
         (r : result (list str)),
    (fuel <= fuel')%nat ->
    split_loop fuel text max_length start chunks = Some r ->
    split_loop fuel' text max_length start chunks = Some r.
Proof.
  induction fuel as [|fuel IH]; intros fuel' start chunks r Hle Hrun.
  - simpl in Hrun. destruct (start <? len text) eqn:Hlt; [discriminate|].
    destruct fuel'; simpl; rewrite Hlt; assumption.
  - destruct fuel' as [|fuel']; [lia|].
    cbn [split_loop] in *. destruct (start <? len text); [|assumption].
    destruct (if start + max_length <? len text then _ else _) as [o|e];
      [|assumption].
    apply IH; [lia|assumption].
Qed.

(** C10. For a maximum length of at least 1, [split_text] terminates: with
    fuel for one iteration per character it returns a list of chunks, and
    the chunks concatenated in order are exactly the text. *)
Theorem split_text_concat :
  forall (text : str) (max_length : Z),
    1 <= max_length ->
    exists chunks,
      (forall fuel, (List.length text <= fuel)%nat ->
                    split_text fuel text max_length = Some (Ok chunks))
      /\ concat chunks = text.
Proof.
  intros text max_length Hm. unfold split_text.
  destruct (len text <=? max_length).
  - exists [text]. split; [reflexivity|]. simpl. apply app_nil_r.
  - destruct (split_loop_spec text max_length Hm (List.length text) 0 [])
      as (chunks & Hrun & Hcat); [lia|unfold len; lia|].
    exists chunks. split; [|exact Hcat].
    intros fuel Hfuel.
    apply (split_loop_more_fuel text max_length (List.length text));
      assumption.
Qed.

Lemma split_text_concat_witness :
  exists chunks,
    (forall fuel, (List.length sample_text <= fuel)%nat ->
                  split_text fuel sample_text 4 = Some (Ok chunks))
    /\ concat chunks = sample_text.
Proof. apply (split_text_concat sample_text 4). lia. Defined.

(** The chunks of the sample: a hard cut where the window holds no
    sentence end in its second half, a cut after the newline at the
    window's end otherwise. *)
Example split_text_sample :
  split_text 11 sample_text 4
  = Some (Ok [lit "ab" ++ [12290%N] ++ lit "c"; lit "defg" ++ [10%N]; lit "hi"]).
Proof. reflexivity. Qed.

(** Without the bound on [max_length] the loop does not advance. *)
Example split_text_zero_diverges :
  forall fuel, split_text fuel (lit "abc") 0 = None.
Proof.
  intros fuel. unfold split_text. simpl.
  generalize (@nil str). induction fuel as [|fuel IH]; intros chunks.
  - reflexivity.
  - cbn. apply IH.
Qed.

(* ================================================================== *)
(** * [normalize] *)

Lemma sub_spaces_single_spaced (b : bool) (s : str) :
  single_spaced b (sub_spaces b s).
Proof.
  revert b. induction s as [|c t IH]; intros b; simpl; [exact I|].
  destruct (py_isspace c) eqn:Hc.
  - destruct b; [apply IH|].
    change (32%N = 32%N /\ false = false
            /\ single_spaced true (sub_spaces true t)).
    auto.
  - simpl. rewrite Hc. apply IH.
Qed.

Lemma single_spaced_fixed (b : bool) (l : str) :
  single_spaced b l -> sub_spaces b l = l.
Proof.
  revert b. induction l as [|c t IH]; intros b; simpl; [reflexivity|].
  destruct (py_isspace c).
  - intros (-> & -> & Ht). f_equal. apply IH, Ht.
  - intros Ht. f_equal. apply IH, Ht.
Qed.

Lemma single_spaced_lstrip (b b' : bool) (l : str) :
  single_spaced b l -> single_spaced b' (lstrip l).
Proof.
  revert b. induction l as [|c t IH]; intros b; simpl; [auto|].
  destruct (py_isspace c) eqn:Hc.
  - intros (_ & _ & Ht). eapply IH, Ht.
  - intros Ht. simpl. rewrite Hc. exact Ht.
Qed.

Lemma single_spaced_prefix (b : bool) (l1 l2 : str) :
  single_spaced b (l1 ++ l2) -> single_spaced b l1.
Proof.
  revert b. induction l1 as [|c t IH]; intros b; simpl; [auto|].
  destruct (py_isspace c).
  - intros (H1 & H2 & Ht).
    split; [exact H1|]. split; [exact H2|]. exact (IH _ Ht).
  - apply IH.
Qed.

Lemma lstrip_split (l : str) : exists h, l = h ++ lstrip l.
Proof.
  induction l as [|c t [h IH]]; [exists []; reflexivity|]. simpl.
  destruct (py_isspace c).
  - exists (c :: h). simpl. f_equal. exact IH.
  - exists []. reflexivity.
Qed.

Lemma rstrip_split (l : str) : exists tail, l = rstrip l ++ tail.
Proof.
  destruct (lstrip_split (rev l)) as [h Hh]. exists (rev h).
  unfold rstrip. rewrite <- rev_app_distr, <- Hh. symmetry. apply rev_involutive.
Qed.

Lemma lstrip_no_lead (l : str) : no_lead (lstrip l).
Proof.
  induction l as [|c t IH]; simpl; [exact I|].
  destruct (py_isspace c) eqn:Hc; [exact IH|]. simpl. exact Hc.
Qed.

Lemma no_lead_lstrip (l : str) : no_lead l -> lstrip l = l.
Proof. destruct l as [|c t]; simpl; [reflexivity|]. intros ->. reflexivity. Qed.

Lemma rstrip_rstrip (l : str) : rstrip (rstrip l) = rstrip l.
Proof.
  unfold rstrip. rewrite rev_involutive.
  rewrite (no_lead_lstrip (lstrip (rev l))) by apply lstrip_no_lead.
  reflexivity.
Qed.

Lemma no_lead_rstrip (l : str) : no_lead l -> no_lead (rstrip l).
Proof.
  intros H. destruct (rstrip_split l) as [tail Ht].
  destruct (rstrip l) as [|c t] eqn:E; [exact I|].
  rewrite Ht in H. exact H.
Qed.

Lemma strip_fixed (l : str) : strip (strip l) = strip l.
Proof.
  unfold strip.
  rewrite (no_lead_lstrip (rstrip (lstrip l)))
    by apply no_lead_rstrip, lstrip_no_lead.
  apply rstrip_rstrip.
Qed.

Lemma single_spaced_strip (l : str) :
  single_spaced false l -> single_spaced false (strip l).
Proof.
  intros H. unfold strip.
  destruct (rstrip_split (lstrip l)) as [tail Ht].
  apply (single_spaced_prefix false _ tail). rewrite <- Ht.
  eapply single_spaced_lstrip, H.
Qed.

(** Collapsing and trimming whitespace a second time changes nothing. *)
Lemma whitespace_stage_idempotent (s : str) :
  strip (sub_spaces false (strip (sub_spaces false s)))
  = strip (sub_spaces false s).
Proof.
  rewrite (single_spaced_fixed false (strip (sub_spaces false s))).
  - apply strip_fixed.
  - apply single_spaced_strip, sub_spaces_single_spaced.
Qed.

Lemma normalize_eq (convert : str -> result str) (lower : str -> str)
    (isword : N -> bool) (t : str) :
  normalize convert lower isword t false
  = match t with
    | [] => []
    | _ => match convert t with
           | Raise _ => t
           | Ok t1 => strip (sub_spaces false (lower t1))
           end
    end.
Proof. destruct t; reflexivity. Qed.

(** C5, amended. [normalize] is idempotent at every text whose normalized
    form the converter and the lower-casing leave unchanged (or on which
    the converter raises); the whitespace stage is idempotent by itself. *)
Theorem normalize_idempotent_when_stable :
  forall (convert : str -> result str) (lower : str -> str)
         (isword : N -> bool) (t : str),
    (forall n1,
        convert (normalize convert lower isword t false) = Ok n1 ->
        lower n1 = normalize convert lower isword t false) ->
    normalize convert lower isword (normalize convert lower isword t false) false
    = normalize convert lower isword t false.
Proof.
  intros convert lower isword t Hstable.
  assert (Hshape :
            normalize convert lower isword t false = t
            \/ exists s, normalize convert lower isword t false
                         = strip (sub_spaces false s)).
  { rewrite normalize_eq. destruct t as [|c t']; [auto|].
    destruct (convert (c :: t')) as [t1|e]; [|auto].
    right. eexists. reflexivity. }
  destruct Hshape as [Hsame|[s Hs]].
  - (* the first pass returned its input *)
    rewrite Hsame. exact Hsame.
  - set (n := normalize convert lower isword t false) in *.
    rewrite (normalize_eq convert lower isword n).
    destruct n as [|c n'] eqn:En; [reflexivity|]. rewrite <- En in *.
    destruct (convert n) as [n1|e] eqn:Hc; [|reflexivity].
    rewrite (Hstable n1 eq_refl), Hs.
    apply whitespace_stage_idempotent.
Qed.

Lemma normalize_idempotent_when_stable_witness :
  normalize (table_convert one_entry_table) ascii_lower (fun _ => false)
    (normalize (table_convert one_entry_table) ascii_lower (fun _ => false)
       (lit "  Hello   World " ++ [22283%N]) false) false
  = normalize (table_convert one_entry_table) ascii_lower (fun _ => false)
      (lit "  Hello   World " ++ [22283%N]) false.
Proof.
  apply (normalize_idempotent_when_stable
           (table_convert one_entry_table) ascii_lower (fun _ => false)
           (lit "  Hello   World " ++ [22283%N])).
  intros n1 H. vm_compute in H. injection H as <-. reflexivity.
Defined.

(** What the sample normalizes to: ["hello world"] followed by U+56FD. *)
Example normalize_sample :
  normalize (table_convert one_entry_table) ascii_lower (fun _ => false)
    (lit "  Hello   World " ++ [22283%N]) false
  = lit "hello world " ++ [22269%N].
Proof. reflexivity. Qed.

(** C5 as stated fails for a conversion table with a chain: the first pass
    turns U+85B4 into U+82E7, the second pass turns that into U+82CE. *)
Lemma normalize_not_idempotent_on_chain :
  normalize (table_convert chain_table) ascii_lower (fun _ => false)
    [34228%N] false = [33511%N]
  /\ normalize (table_convert chain_table) ascii_lower (fun _ => false)
       (normalize (table_convert chain_table) ascii_lower (fun _ => false)
          [34228%N] false) false = [33486%N]
  /\ normalize (table_convert chain_table) ascii_lower (fun _ => false)
       (normalize (table_convert chain_table) ascii_lower (fun _ => false)
          [34228%N] false) false
     <> normalize (table_convert chain_table) ascii_lower (fun _ => false)
          [34228%N] false.
Proof. repeat split. discriminate. Qed.

(* ================================================================== *)
(** * The orchestrator *)

Lemma dict_get_set_same {V : Type} (d : dict V) (k : str) (v : V) :
  dict_get (dict_set d k v) k = Some v.
Proof.
  induction d as [|[k' v'] d IH]; simpl.
  - destruct (str_eq_dec k k); [reflexivity|contradiction].
  - destruct (str_eq_dec k' k) as [->|Hne]; simpl.
    + destruct (str_eq_dec k k); [reflexivity|contradiction].
    + destruct (str_eq_dec k' k); [contradiction|exact IH].
Qed.

Lemma dict_get_set_other {V : Type} (d : dict V) (k k0 : str) (v : V) :
  k <> k0 -> dict_get (dict_set d k v) k0 = dict_get d k0.
Proof.
  intros Hne. induction d as [|[k' v'] d IH]; simpl.
  - destruct (str_eq_dec k k0); [contradiction|reflexivity].
  - destruct (str_eq_dec k' k) as [->|Hk]; simpl.
    + destruct (str_eq_dec k k0); [contradiction|reflexivity].
    + destruct (str_eq_dec k' k0); [reflexivity|exact IH].
Qed.

Lemma run_rule_eq (request : DetectionRequest)
    (rbr : dict (list DetectionResultItem)) (calls : list call)
    (rule_name : str) (rule : BaseDetectionRule) :
  run_rule request (rbr, calls) (rule_name, rule)
  = if enabled rule
    then (dict_set rbr rule_name (contribution request rule),
          calls ++ [(rule_name, returned request rule)])
    else (rbr, calls).
Proof.
  unfold run_rule, contribution, returned.
  destruct (enabled rule); simpl; [|reflexivity].
  destruct (detect rule (text request) (config request)); reflexivity.
Qed.



Lemma NoDup_keys_filter {V : Type} (f : str * V -> bool) (d : dict V) :
  NoDup (dict_keys d) -> NoDup (dict_keys (filter f d)).
Proof.
  unfold dict_keys. induction d as [|[k v] d IH]; simpl; intros H; [constructor|].
  inversion H as [|? ? Hnotin Hnd]; subst.
  destruct (f (k, v)); simpl; [|auto].
  constructor; [|auto].
  intros Hin. apply Hnotin. apply in_map_iff in Hin as ([k' v'] & Hk & Hin).
  apply filter_In in Hin as [Hin _]. apply in_map_iff. exists (k', v'). auto.
Qed.


Lemma py_max_in (x : Q) (xs : list Q) : In (py_max x xs) (x :: xs).
Proof.
  unfold py_max. revert x. induction xs as [|y t IH]; intros x; [left; reflexivity|].
  cbn [fold_left]. destruct (Qlt_bool x y).
  - right. apply IH.
  - destruct (IH x) as [H|H]; [left; exact H|right; right; exact H].
Qed.


Lemma service_detect_too_long (self : EnhancedDetectionService)
    (request : DetectionRequest) (elapsed_ms : Z) :
  max_text_length self < len (text request) ->
  service_detect self request elapsed_ms
  = (Raise (DetectionError
              (DetectFailed
                 (DetectionError
                    (TextTooLong (len (text request)) (max_text_length self))))),
     counted self, []).
Proof.
  intros Hlong. unfold service_detect.
  replace (max_text_length self <? len (text request)) with true
    by (symmetry; apply Z.ltb_lt; exact Hlong).
  reflexivity.
Qed.

(** C8. A text longer than [settings.max_text_length] makes [detect] fail
    with the explicit length error before any rule runs: no call of a
    rule's [detect] is made, no result list is produced, the caller gets
    the error (only the request counter advances). *)
Theorem oversized_text_is_rejected :
  forall (self : EnhancedDetectionService) (request : DetectionRequest)
         (elapsed_ms : Z),
    max_text_length self < len (text request) ->
    service_detect self request elapsed_ms
    = (Raise (DetectionError
                (DetectFailed
                   (DetectionError
                      (TextTooLong (len (text request)) (max_text_length self))))),
       counted self, [])
    /\ (forall response,
           fst (fst (service_detect self request elapsed_ms)) <> Ok response)
    /\ snd (service_detect self request elapsed_ms) = [].
Proof.
  intros self request elapsed_ms Hlong.
  rewrite (service_detect_too_long _ _ _ Hlong).
  split; [reflexivity|]. split; [|reflexivity]. intros response. discriminate.
Qed.

Lemma oversized_text_is_rejected_witness :
  service_detect strict_service sample_request 3
  = (Raise (DetectionError
              (DetectFailed (DetectionError (TextTooLong 16 5)))),
     counted strict_service, [])
  /\ (forall response,
         fst (fst (service_detect strict_service sample_request 3))
         <> Ok response)
  /\ snd (service_detect strict_service sample_request 3) = [].
Proof.
  apply (oversized_text_is_rejected strict_service sample_request 3).
  reflexivity.
Defined.

Lemma service_detect_eq (self : EnhancedDetectionService)
    (request : DetectionRequest) (elapsed_ms : Z) :
  (max_text_length self <? len (text request)) = false ->
  service_detect self request elapsed_ms
  = (match bind (fst (_execute_multi_rule_detection self request))
                 (build_response self request elapsed_ms) with
     | Ok response => Ok response
     | Raise e => Raise (DetectionError (DetectFailed e))
     end,
     counted self, snd (_execute_multi_rule_detection self request)).
Proof.
  intros Hshort. unfold service_detect. rewrite Hshort.
  destruct (_execute_multi_rule_detection self request) as [rbr calls]. simpl.
  destruct rbr as [rbr|e]; simpl; [|reflexivity].
  destruct (build_response self request elapsed_ms rbr); reflexivity.
Qed.



(** The response of the sample request: both healthy rules' spans, the
    broken rule ignored. *)
Example sample_service_response :
  fst (fst (service_detect sample_service sample_request 3))
  = Ok (mkDetectionResponse true CRITICAL (b64 (9 # 10)) 3 RULE_MODE
          [sample_item "xyz" (9 # 10) 10 13; sample_item "abc" (6 # 10) 0 3]
          (mkDetectionSummary 2 [lit "test"] (Some (lit "test")))).
Proof. reflexivity. Qed.

(** In HYBRID mode no rule is called at all: the mode selection raises. *)
Example hybrid_mode_calls_no_rule :
  forall self txt cats rp rsugg elapsed_ms,
    snd (service_detect self
           (mkDetectionRequest txt (mkDetectionConfig HYBRID cats rp rsugg))
           elapsed_ms) = [].
Proof.
  intros. unfold service_detect, _execute_multi_rule_detection. simpl.
  destruct (max_text_length self <? len txt); reflexivity.
Qed.

(* ================================================================== *)
(** * Word lists *)

(** [load_words] keeps every non-blank line, whatever it starts with. *)
Lemma load_words_keeps_every_line (self : WordlistConfig) (fs : filesystem)
    (content line : str) :
  _words self = None ->
  fs (file self) = Some (Ok content) ->
  In line (file_lines [] content) ->
  strip line <> [] ->
  In (strip line) (fst (load_words self fs)).
Proof.
  intros Hcache Hfile Hline Hne. unfold load_words. rewrite Hcache, Hfile. simpl.
  apply in_map. apply filter_In. split; [exact Hline|].
  destruct (strip line); [contradiction|reflexivity].
Qed.

(** C6 at a file made of a comment line, a word and a blank line: the blank
    line is skipped, the comment line is loaded as a word and handed to
    every rule's [load_wordlist]; [RuleBasedDetector.load_wordlists] skips
    it on the same file. *)
Theorem comment_line_is_loaded_as_word :
  fst (load_words sample_wordlist sample_filesystem)
  = [lit "# comment"; lit "badword"]
  /\ _load_wordlists_for_rules sample_service sample_filesystem
     = [ (lit "default_exact", [(lit "test", [lit "# comment"; lit "badword"])]);
         (lit "broken", [(lit "test", [lit "# comment"; lit "badword"])]);
         (lit "default_jieba", [(lit "test", [lit "# comment"; lit "badword"])]) ]
  /\ startswith_hash (lit "# comment") = true
  /\ rule_detector_load_wordlists (table_convert one_entry_table) ascii_lower
       [sample_wordlist] sample_filesystem
     = [(lit "badword", (lit "badword", lit "test"))].
Proof. repeat split. Qed.

(* ================================================================== *)
(** * More on the arbitrator *)

(** ** The order of the results *)

Lemma Qeq_bool_false_iff (x y : Q) :
  Qeq_bool x y = false <-> (x < y)%Q \/ (y < x)%Q.
Proof.
  split.
  - intros H. apply Qeq_bool_neq in H.
    destruct (Q_dec x y) as [[Hlt|Hgt]|Heq]; [auto|auto|contradiction].
  - intros H. destruct (Qeq_bool x y) eqn:E; [|reflexivity].
    apply Qeq_bool_iff in E. destruct H; lra.
Qed.

Ltac qprop :=
  repeat match goal with
    | H : Qeq_bool _ _ = true |- _ => apply Qeq_bool_iff in H
    | H : Qeq_bool _ _ = false |- _ => apply Qeq_bool_false_iff in H; destruct H
    | H : Qlt_bool _ _ = true |- _ => apply Qlt_bool_iff in H
    | H : Qlt_bool _ _ = false |- _ => apply Qlt_bool_false_iff in H
    | |- Qlt_bool _ _ = false => apply Qlt_bool_false_iff
    | |- Qlt_bool _ _ = true => apply Qlt_bool_iff
    end.

Lemma tupleQ_lt_asym (a b : Q * Q) : tupleQ_lt a b = true -> tupleQ_lt b a = false.
Proof.
  unfold tupleQ_lt. destruct a as [a1 a2], b as [b1 b2]; simpl.
  destruct (Qeq_bool a1 b1) eqn:E1; destruct (Qeq_bool b1 a1) eqn:E2;
    intros H; qprop; lra.
Qed.

Lemma tupleQ_le_trans (a b c : Q * Q) :
  tupleQ_lt b a = false -> tupleQ_lt c b = false -> tupleQ_lt c a = false.
Proof.
  unfold tupleQ_lt. destruct a as [a1 a2], b as [b1 b2], c as [c1 c2]; simpl.
  destruct (Qeq_bool b1 a1) eqn:E1; destruct (Qeq_bool c1 b1) eqn:E2;
    destruct (Qeq_bool c1 a1) eqn:E3; intros H1 H2; qprop; lra.
Qed.

Lemma sort_results_sorted (cfg : ArbitrationConfig)
    (items : list DetectionResultItem) :
  StronglySorted (ranked_before cfg) (_sort_results cfg items).
Proof.
  pose proof (sorted_StronglySorted tupleQ_lt (sort_key cfg) tupleQ_lt_asym
                (fun x y z => tupleQ_le_trans (sort_key cfg x) (sort_key cfg y)
                                (sort_key cfg z)) items) as H.
  fold (_sort_results cfg items) in H.
  induction H as [|x t _ IH Hx]; constructor; [assumption|].
  eapply Forall_impl; [|exact Hx]. intros y Hy.
  unfold not_after, tupleQ_lt, sort_key in Hy. simpl in Hy.
  unfold ranked_before.
  destruct (Qeq_bool (- r_confidence y) (- r_confidence x)) eqn:E; qprop.
  - right. split; lra.
  - exfalso. lra.
  - left. lra.
Qed.

(** X1. The results [arbitrate] returns are ranked: an item stands before
    every item that is less confident, and before an equally confident
    one only when its category weighs at least as much. *)
Theorem arbitrate_results_ranked :
  forall (cfg : ArbitrationConfig) (rbr : dict (list DetectionResultItem))
         (final : list DetectionResultItem) (summ : DetectionSummary),
    arbitrate cfg rbr = Ok (final, summ) ->
    StronglySorted (ranked_before cfg) final.
Proof.
  intros cfg rbr final summ Harb.
  apply arbitrate_Ok in Harb as (? & ? & ? & items & _ & _ & _ & _ & -> & _).
  apply sort_results_sorted.
Qed.

Lemma arbitrate_results_ranked_witness :
  StronglySorted (ranked_before sample_config) sample_final_results.
Proof.
  exact (arbitrate_results_ranked sample_config sample_results_by_rule
           sample_final_results sample_summary eq_refl).
Defined.

(** ** The summary *)

Lemma distinct_In (l : list str) (x : str) : In x (distinct l) <-> In x l.
Proof.
  induction l as [|y t IH]; simpl; [tauto|].
  destruct (in_dec str_eq_dec y t) as [Hin|Hnin]; simpl; rewrite IH.
  - split; [auto|]. intros [<-|H]; assumption.
  - tauto.
Qed.

Lemma distinct_NoDup (l : list str) : NoDup (distinct l).
Proof.
  induction l as [|y t IH]; simpl; [constructor|].
  destruct (in_dec str_eq_dec y t) as [Hin|Hnin]; [assumption|].
  constructor; [|assumption]. rewrite distinct_In. assumption.
Qed.

Lemma ranked_before_le (cfg : ArbitrationConfig) (a b : DetectionResultItem) :
  ranked_before cfg a b -> (r_confidence b <= r_confidence a)%Q.
Proof. intros [H|[H _]]; lra. Qed.

(** X2. The summary [arbitrate] returns counts the results, lists each
    category found exactly once, and names as highest-risk category the
    category of the first result, whose confidence no other result
    exceeds; without results it names none. *)
Theorem arbitrate_summary_spec :
  forall (cfg : ArbitrationConfig) (rbr : dict (list DetectionResultItem))
         (final : list DetectionResultItem) (summ : DetectionSummary),
    arbitrate cfg rbr = Ok (final, summ) ->
    total_matches summ = len final
    /\ NoDup (categories_found summ)
    /\ (forall c, In c (categories_found summ)
                  <-> exists r, In r final /\ r_category r = c)
    /\ match final with
       | [] => highest_risk_category summ = None
       | first :: _ =>
           highest_risk_category summ = Some (r_category first)
           /\ forall r, In r final ->
                        (r_confidence r <= r_confidence first)%Q
       end.
Proof.
  intros cfg rbr final summ Harb.
  pose proof (arbitrate_Ok _ _ _ _ Harb)
    as (? & ? & ? & items & _ & _ & _ & _ & Hfinal & ->).
  pose proof (sort_results_sorted cfg items) as Hsorted.
  rewrite <- Hfinal in Hsorted. clear Hfinal Harb.
  destruct final as [|first rest]; unfold _generate_summary;
    cbn [total_matches categories_found highest_risk_category].
  - split; [reflexivity|]. split; [constructor|]. split; [|reflexivity].
    intros c. split; [intros []|intros (r & [] & _)].
  - split; [reflexivity|]. split; [apply distinct_NoDup|]. split.
    + intros c. rewrite distinct_In, in_map_iff. split.
      * intros (r & Hc & Hr). exists r. auto.
      * intros (r & Hr & Hc). exists r. auto.
    + split; [reflexivity|]. intros r [<-|Hr]; [lra|].
      inversion Hsorted as [|? ? _ Hfirst]; subst.
      rewrite Forall_forall in Hfirst.
      apply (ranked_before_le cfg), Hfirst, Hr.
Qed.

Lemma arbitrate_summary_spec_witness :
  total_matches sample_summary = len sample_final_results
  /\ NoDup (categories_found sample_summary)
  /\ (forall c, In c (categories_found sample_summary)
                <-> exists r, In r sample_final_results /\ r_category r = c)
  /\ (highest_risk_category sample_summary = Some (lit "test")
      /\ forall r, In r sample_final_results -> (r_confidence r <= b64 (9 # 10))%Q).
Proof.
  exact (arbitrate_summary_spec sample_config sample_results_by_rule
           sample_final_results sample_summary eq_refl).
Defined.

(** ** Where a result comes from *)

Lemma Forall2_in_right {A B : Type} (R : A -> B -> Prop) (l : list A)
    (l' : list B) (y : B) :
  Forall2 R l l' -> In y l' -> exists x, In x l /\ R x y.
Proof.
  induction 1 as [|a b t t' Hab _ IH]; intros Hin; [destruct Hin|].
  destruct Hin as [->|Hin].
  - exists a. split; [left; reflexivity|assumption].
  - destruct (IH Hin) as (x & Hx & Hr). exists x. split; [right|]; assumption.
Qed.

(** Every result is what conversion, weighting, filtering and boosting
    make of one merged hit. *)
Lemma arbitrate_item_origin cfg rbr all_hits final summ r :
  _convert_to_hits cfg rbr = Ok all_hits ->
  arbitrate cfg rbr = Ok (final, summ) ->
  In r final ->
  exists h0 h1 h2,
    In h0 (merged_hits_of cfg all_hits)
    /\ enhance_hit cfg rbr h0 = Ok h1
    /\ (confidence_threshold cfg <= confidence h1)%Q
    /\ weight_hit cfg h1 = Ok h2
    /\ result_of_hit h2 = Ok r.
Proof.
  intros Hc Harb Hin.
  apply arbitrate_Ok in Harb
    as (all_hits' & enhanced & weighted & items & Hc' & He & Hw & Hi & -> & _).
  rewrite Hc in Hc'. injection Hc' as <-.
  apply mapM_Forall2 in He, Hw, Hi.
  assert (Hin' : In r items).
  { eapply Permutation_in; [|exact Hin].
    apply (sorted_Permutation tupleQ_lt (sort_key cfg)). }
  destruct (Forall2_in_right _ _ _ _ Hi Hin') as (h2 & Hin2 & Hr).
  destruct (Forall2_in_right _ _ _ _ Hw Hin2) as (h1 & Hin1 & Hh2).
  apply filter_In in Hin1 as [Hin1 Hth]. apply Qle_bool_iff in Hth.
  destruct (Forall2_in_right _ _ _ _ He Hin1) as (h0 & Hin0 & Hh1).
  exists h0, h1, h2. auto.
Qed.

Lemma hits_of_result_fields (cfg : ArbitrationConfig) rule_name r l h :
  hits_of_result cfg rule_name r = Ok l -> In h l ->
  word h = matched_word r /\ category h = r_category r
  /\ match_type h = r_match_type r
  /\ detection_method h = r_detection_method r
  /\ suggestion h = r_suggestion r
  /\ (In (mkPosition (start h) (end_ h)) (r_positions r)
      \/ (r_positions r = []
          /\ start h = 0 /\ end_ h = len (matched_word r))).
Proof.
  unfold hits_of_result. destruct (r_positions r) as [|p ps].
  - destruct (new_Hit _ _ _ _ _ _ _ _ _) as [h0|] eqn:Hn; simpl; [|discriminate].
    intros [= <-] [<-|[]]. apply new_Hit_Ok in Hn as [-> _]. simpl. tauto.
  - intros Hm Hin. apply mapM_Forall2 in Hm.
    assert (Hleft : word h = matched_word r /\ category h = r_category r
                    /\ match_type h = r_match_type r
                    /\ detection_method h = r_detection_method r
                    /\ suggestion h = r_suggestion r
                    /\ In (mkPosition (start h) (end_ h)) (p :: ps)).
    { remember (p :: ps) as pl eqn:Epl. clear Epl.
      induction Hm as [|pos h0 ? ? Hn _ IH]; [destruct Hin|].
      destruct Hin as [<-|Hin].
      - apply new_Hit_Ok in Hn as [-> _]. simpl. destruct pos; simpl. tauto.
      - destruct (IH Hin) as (? & ? & ? & ? & ? & ?). simpl. tauto. }
    tauto.
Qed.

Lemma enhance_hit_fields cfg rbr h h' :
  enhance_hit cfg rbr h = Ok h' ->
  match_type h' = match_type h /\ detection_method h' = detection_method h
  /\ suggestion h' = suggestion h.
Proof.
  unfold enhance_hit. destruct (1 <? match_count h rbr).
  - intros Hn. apply new_Hit_Ok in Hn as [-> _]. simpl. tauto.
  - intros [= <-]. tauto.
Qed.

Lemma weight_hit_fields cfg h h' :
  weight_hit cfg h = Ok h' ->
  match_type h' = match_type h /\ detection_method h' = detection_method h
  /\ suggestion h' = suggestion h.
Proof.
  unfold weight_hit. intros Hn. apply new_Hit_Ok in Hn as [-> _]. simpl. tauto.
Qed.

Lemma result_of_hit_fields h r :
  result_of_hit h = Ok r ->
  r_match_type r = match_type h /\ r_detection_method r = detection_method h
  /\ r_suggestion r = suggestion h.
Proof.
  unfold result_of_hit. intros Hn.
  apply new_DetectionResultItem_Ok in Hn as [-> _]. simpl. tauto.
Qed.

(** X3. [arbitrate] invents nothing: every result it returns repeats the
    word, category, match type, detection method and suggestion of an item
    some rule reported, and carries exactly one span, which is one of that
    item's spans or, for an item without spans, [0 .. len(word)). *)
Theorem arbitrate_results_come_from_input :
  forall (cfg : ArbitrationConfig) (rbr : dict (list DetectionResultItem))
         (final : list DetectionResultItem) (summ : DetectionSummary)
         (r : DetectionResultItem),
    arbitrate cfg rbr = Ok (final, summ) ->
    In r final ->
    exists rule_name rs r0,
      In (rule_name, rs) rbr /\ In r0 rs
      /\ matched_word r = matched_word r0
      /\ r_category r = r_category r0
      /\ r_match_type r = r_match_type r0
      /\ r_detection_method r = r_detection_method r0
      /\ r_suggestion r = r_suggestion r0
      /\ exists p,
           r_positions r = [p]
           /\ (In p (r_positions r0)
               \/ (r_positions r0 = []
                   /\ p = mkPosition 0 (len (matched_word r0)))).
Proof.
  intros cfg rbr final summ r Harb Hin.
  pose proof (arbitrate_Ok _ _ _ _ Harb) as (all_hits & _ & _ & _ & Hc & _).
  destruct (arbitrate_item_origin _ _ _ _ _ _ Hc Harb Hin)
    as (h0 & h1 & h2 & Hin0 & He & _ & Hw & Hr).
  assert (Hall : In h0 all_hits).
  { unfold merged_hits_of in Hin0. destruct (enable_max_matching cfg); [|assumption].
    apply merge_hits_greedy_incl, Hin0. }
  destruct (hits_of_result_in _ _ _ _ Hc Hall)
    as (rule_name & rs & r0 & l & Hrbr & Hr0 & Hl & Hh0).
  destruct (hits_of_result_fields _ _ _ _ _ Hl Hh0)
    as (F1 & F2 & F3 & F4 & F5 & Fpos).
  destruct (enhance_hit_inv _ _ _ _ He) as (E1 & E2 & E3 & E4 & _ & _).
  destruct (enhance_hit_fields _ _ _ _ He) as (E5 & E6 & E7).
  destruct (weight_hit_inv _ _ _ Hw) as (W1 & W2 & W3 & W4 & _ & Wwf & _).
  destruct (weight_hit_fields _ _ _ Hw) as (W5 & W6 & W7).
  destruct (result_of_hit_inv _ _ Hr) as (R1 & R2 & R3 & _ & _).
  destruct (result_of_hit_fields _ _ Hr) as (R5 & R6 & R7).
  exists rule_name, rs, r0.
  repeat (split; [solve [assumption | congruence]|]).
  exists (mkPosition (start h2) (end_ h2)). split.
  - rewrite R3. exact Wwf.
  - rewrite W2, W3, E2, E3. destruct Fpos as [Hp|(Hnil & Hs & He')].
    + left. exact Hp.
    + right. split; [exact Hnil|]. rewrite Hs, He'. reflexivity.
Qed.

Lemma arbitrate_results_come_from_input_witness :
  exists rule_name rs r0,
    In (rule_name, rs) sample_results_by_rule /\ In r0 rs
    /\ lit "xyz" = matched_word r0
    /\ lit "test" = r_category r0
    /\ EXACT = r_match_type r0
    /\ RULE = r_detection_method r0
    /\ None = r_suggestion r0
    /\ exists p,
         [mkPosition 10 13] = [p]
         /\ (In p (r_positions r0)
             \/ (r_positions r0 = []
                 /\ p = mkPosition 0 (len (matched_word r0)))).
Proof.
  apply (arbitrate_results_come_from_input sample_config sample_results_by_rule
           sample_final_results sample_summary
           (sample_item "xyz" (9 # 10) 10 13) eq_refl).
  left. reflexivity.
Defined.

(** X4. A result passed the threshold before its category was weighed:
    its confidence is at least [min(1.0, threshold * weight)], the product
    rounded as a float product is, for a non-negative weight of its
    category; so it is at least the threshold itself (when that is at
    most 1) for a category without a configured weight. *)
Theorem arbitrate_results_above_threshold :
  forall (cfg : ArbitrationConfig) (rbr : dict (list DetectionResultItem))
         (final : list DetectionResultItem) (summ : DetectionSummary)
         (r : DetectionResultItem),
    arbitrate cfg rbr = Ok (final, summ) ->
    In r final ->
    ((0 <= dict_get_default (category_weights cfg) (r_category r) 1)%Q ->
     (py_min 1 (fmul (confidence_threshold cfg)
                  (dict_get_default (category_weights cfg) (r_category r) 1%Q))
      <= r_confidence r)%Q)
    /\ (dict_get (category_weights cfg) (r_category r) = None ->
        (confidence_threshold cfg <= 1)%Q ->
        (confidence_threshold cfg <= r_confidence r)%Q).
Proof.
  intros cfg rbr final summ r Harb Hin.
  pose proof (arbitrate_Ok _ _ _ _ Harb) as (all_hits & _ & _ & _ & Hc & _).
  destruct (arbitrate_item_origin _ _ _ _ _ _ Hc Harb Hin)
    as (h0 & h1 & h2 & Hin0 & He & Hth & Hw & Hr).
  assert (Hd : binary64 (confidence h1)).
  { apply (enhance_hit_binary64 _ _ _ _ He).
    pose proof (convert_to_hits_binary64 _ _ _ Hc) as Hbin.
    rewrite Forall_forall in Hbin. apply Hbin.
    unfold merged_hits_of in Hin0. destruct (enable_max_matching cfg); [|assumption].
    apply merge_hits_greedy_incl, Hin0. }
  destruct (weight_hit_inv _ _ _ Hw) as (_ & _ & _ & W4 & _ & _ & Wq).
  destruct (result_of_hit_inv _ _ Hr) as (_ & R2 & _ & Rq & _).
  rewrite Rq, Wq, R2, W4.
  split.
  - intros Hw0. apply py_min_mono. apply fmul_mono_l; assumption.
  - intros Hnone Hle1. unfold dict_get_default. rewrite Hnone.
    rewrite fmul_1_r, Hd. apply py_min_ge; assumption.
Qed.

Lemma arbitrate_results_above_threshold_witness :
  ((0 <= dict_get_default (category_weights sample_config) (lit "test") 1)%Q ->
   (py_min 1 (fmul (confidence_threshold sample_config)
                (dict_get_default (category_weights sample_config) (lit "test")
                   1%Q))
    <= r_confidence (sample_item "abcd" (5 # 10) 0 4))%Q)
  /\ (dict_get (category_weights sample_config) (lit "test") = None ->
      (confidence_threshold sample_config <= 1)%Q ->
      (confidence_threshold sample_config
       <= r_confidence (sample_item "abcd" (5 # 10) 0 4))%Q).
Proof.
  apply (arbitrate_results_above_threshold sample_config sample_results_by_rule
           sample_final_results sample_summary
           (sample_item "abcd" (5 # 10) 0 4) eq_refl).
  right. left. reflexivity.
Defined.

(** ** What the merge drops, and merging twice *)

Lemma spec_scan_covers (l : list Hit) :
  StronglySorted (fun a b => start a <= start b) l ->
  forall (last : Z) (h : Hit),
    In h l ->
    In h (spec_scan last l)
    \/ start h < last
    \/ exists k, In k (spec_scan last l) /\ start k <= start h < end_ k.
Proof.
  induction 1 as [|x t Ht IH Hx]; intros last h Hin; [destruct Hin|].
  simpl. rewrite Forall_forall in Hx.
  destruct (last <=? start x) eqn:Hle.
  - destruct Hin as [<-|Hin]; [left; left; reflexivity|].
    destruct (IH (end_ x) h Hin) as [Hk|[Hlt|(k & Hk & Hov)]].
    + left. right. exact Hk.
    + right. right. exists x. split; [left; reflexivity|].
      specialize (Hx h Hin). lia.
    + right. right. exists k. split; [right; exact Hk|exact Hov].
  - apply Z.leb_gt in Hle. destruct Hin as [<-|Hin]; [right; left; exact Hle|].
    apply IH, Hin.
Qed.

(** X5. The merge drops a hit only for a kept one: every hit that starts
    at 0 or later is either kept or starts inside a kept hit. *)
Theorem merge_drops_only_covered_hits :
  forall (hits : list Hit) (h : Hit),
    In h hits -> 0 <= start h ->
    In h (_merge_hits_greedy hits)
    \/ exists k, In k (_merge_hits_greedy hits)
                 /\ start k <= start h < end_ k.
Proof.
  intros hits h Hin Hs. rewrite merge_hits_greedy_scan.
  assert (Hin' : In h (sorted tupleZ_lt merge_key hits)).
  { eapply Permutation_in; [|exact Hin].
    symmetry. apply (sorted_Permutation tupleZ_lt merge_key). }
  destruct (spec_scan_covers _ (sorted_hits_by_start hits) (-1) h Hin')
    as [Hk|[Hlt|Hcov]]; [auto|lia|auto].
Qed.

Lemma merge_drops_only_covered_hits_witness :
  In scenario_C_abc (_merge_hits_greedy [scenario_C_abc; scenario_C_abcd])
  \/ exists k, In k (_merge_hits_greedy [scenario_C_abc; scenario_C_abcd])
               /\ start k <= start scenario_C_abc < end_ k.
Proof.
  apply (merge_drops_only_covered_hits [scenario_C_abc; scenario_C_abcd]
           scenario_C_abc).
  - left. reflexivity.
  - simpl. lia.
Defined.

Lemma sorted_of_sorted {A K : Type} (lt : K -> K -> bool) (key : A -> K)
    (l : list A) :
  StronglySorted (not_after lt key) l -> sorted lt key l = l.
Proof.
  induction 1 as [|x t _ IH Hx]; simpl; [reflexivity|].
  fold (sorted lt key t). rewrite IH.
  destruct t as [|y t']; [reflexivity|]. simpl.
  inversion Hx as [|? ? Hxy _]; subst. unfold not_after in Hxy.
  rewrite Hxy. reflexivity.
Qed.

Lemma spec_scan_StronglySorted (R : Hit -> Hit -> Prop) (l : list Hit) :
  StronglySorted R l -> forall last, StronglySorted R (spec_scan last l).
Proof.
  induction 1 as [|x t _ IH Hx]; intros last; simpl; [constructor|].
  destruct (last <=? start x); [|apply IH].
  constructor; [apply IH|].
  rewrite Forall_forall in *. intros y Hy. apply Hx.
  eapply spec_scan_incl; exact Hy.
Qed.

Lemma spec_scan_fixed (l : list Hit) (last : Z) :
  spec_scan last (spec_scan last l) = spec_scan last l.
Proof.
  revert last. induction l as [|h t IH]; intros last; simpl; [reflexivity|].
  destruct (last <=? start h) eqn:Hle; [|apply IH].
  simpl. rewrite Hle, IH. reflexivity.
Qed.

(** X6. Merging is idempotent: merging the merged hits again changes
    nothing. *)
Theorem merge_hits_greedy_idempotent :
  forall hits : list Hit,
    _merge_hits_greedy (_merge_hits_greedy hits) = _merge_hits_greedy hits.
Proof.
  intros hits. rewrite (merge_hits_greedy_scan (_merge_hits_greedy hits)).
  rewrite sorted_of_sorted.
  - rewrite merge_hits_greedy_scan. apply spec_scan_fixed.
  - rewrite merge_hits_greedy_scan. apply spec_scan_StronglySorted.
    apply (sorted_StronglySorted tupleZ_lt merge_key
             (fun a b => tupleZ_lt_asym a b) not_after_merge_key_trans).
Qed.

(** ** Lower bounds on the risk level *)

Lemma py_max_fold_ge (xs : list Q) (m : Q) :
  (m <= fold_left (fun m y => if Qlt_bool m y then y else m) xs m)%Q
  /\ forall y, In y xs ->
               (y <= fold_left (fun m y => if Qlt_bool m y then y else m) xs m)%Q.
Proof.
  revert m. induction xs as [|x t IH]; intros m; simpl; [split; [lra|tauto]|].
  destruct (IH (if Qlt_bool m x then x else m)) as [Hm Hy].
  assert (Hstep : (m <= (if Qlt_bool m x then x else m))%Q
                  /\ (x <= (if Qlt_bool m x then x else m))%Q).
  { destruct (Qlt_bool m x) eqn:E; qprop; split; lra. }
  split; [lra|]. intros y [<-|Hin]; [lra|auto].
Qed.






(** The rational 9/10 is not a float and lies below the float 0.9: the
    code would not take it for "at least 0.9". *)
Example risk_level_floor_is_about_floats :
  ~ binary64 (9 # 10)
  /\ calculate_overall_risk_level light_config
       [mkDetectionResultItem (lit "abc") (lit "test") EXACT (9 # 10)
          [mkPosition 0 3] RULE None] = HIGH.
Proof. split; [vm_compute; discriminate|vm_compute; reflexivity]. Qed.

(** ** How much a hit can be boosted *)

Lemma match_count_fold_bounds (h : Hit) (vals : list (list DetectionResultItem))
    (n : Z) :
  n <= fold_left (fun n rule_results =>
                    if rule_matches h rule_results then n + 1 else n) vals n
    <= n + len vals.
Proof.
  revert n. induction vals as [|v t IH]; intros n; simpl.
  - unfold len; simpl. lia.
  - rewrite len_cons. destruct (rule_matches h v).
    + specialize (IH (n + 1)). lia.
    + specialize (IH n). lia.
Qed.

Lemma py_min_le_r (x : Q) : (py_min 1 x <= x)%Q.
Proof.
  unfold py_min. destruct (Qlt_bool x 1) eqn:E; [lra|].
  apply Qlt_bool_false_iff in E. exact E.
Qed.

(** X8. A rule counts at most once towards corroboration: the count lies
    between 0 and the number of rules, and with a non-negative boost factor
    the boosted confidence of a hit is at most what the float sum
    [confidence + factor * (rules - 1)] gives, the product and the sum
    rounded as the code rounds them. *)
Theorem boost_is_bounded_by_rule_count :
  forall (cfg : ArbitrationConfig) (rbr : dict (list DetectionResultItem))
         (h : Hit),
    0 <= match_count h rbr <= len rbr
    /\ forall h',
         enhance_hit cfg rbr h = Ok h' ->
         (0 <= confidence_boost_factor cfg)%Q ->
         binary64 (confidence h) ->
         (confidence h'
          <= fadd (confidence h)
               (fmul (confidence_boost_factor cfg)
                  (inject_Z (Z.max 0 (len rbr - 1)))))%Q.
Proof.
  intros cfg rbr h.
  assert (Hb : 0 <= match_count h rbr <= len rbr).
  { unfold match_count. pose proof (match_count_fold_bounds h (dict_values rbr) 0) as H.
    unfold dict_values in *. unfold len in *. rewrite length_map in H. lia. }
  split; [exact Hb|]. intros h' He Hf Hd.
  assert (Hextra : (0 <= fmul (confidence_boost_factor cfg)
                          (inject_Z (Z.max 0 (len rbr - 1))))%Q).
  { apply fmul_nonneg; [assumption|].
    change 0%Q with (inject_Z 0). rewrite <- Zle_Qle. lia. }
  unfold enhance_hit in He. destruct (1 <? match_count h rbr) eqn:Hn.
  - apply Z.ltb_lt in Hn. apply new_Hit_Ok in He as [-> _]. simpl.
    eapply Qle_trans; [apply py_min_le_r|].
    apply fadd_mono; [apply Qle_refl|].
    apply fmul_mono_r; [assumption|]. rewrite <- Zle_Qle. lia.
  - injection He as <-. apply fadd_ge_l; assumption.
Qed.

Lemma boost_is_bounded_by_rule_count_witness :
  0 <= match_count rule_a_hit corroborated_results_by_rule
    <= len corroborated_results_by_rule
  /\ (b64 (7 # 10)
      <= fadd (confidence rule_a_hit)
           (fmul (confidence_boost_factor sample_config)
              (inject_Z (Z.max 0 (len corroborated_results_by_rule - 1)))))%Q.
Proof.
  destruct (boost_is_bounded_by_rule_count sample_config
              corroborated_results_by_rule rule_a_hit) as [Hcount Hboost].
  split; [exact Hcount|].
  apply (Hboost (mkHit (lit "abc") 0 3 (lit "test") (lit "rule_a")
                   (b64 (7 # 10)) EXACT RULE None [mkPosition 0 3])).
  - vm_compute. reflexivity.
  - vm_compute. discriminate.
  - vm_compute. reflexivity.
Defined.

(** Two rules at 0.7 boost the kept hit to [0.7 + 0.1], which as a float
    is 0.7999999999999999: under the threshold 0.8 nothing is returned. *)
Example boosted_sum_below_threshold :
  arbitrate strict_config two_rules_at_0_7
  = Ok ([], mkDetectionSummary 0 [] None)
  /\ hit_outcome strict_config two_rules_at_0_7
       (mkHit (lit "abc") 0 3 (lit "test") (lit "rule_a") (b64 (7 # 10)) EXACT
          RULE None [mkPosition 0 3])
     = Ok None.
Proof. split; vm_compute; reflexivity. Qed.

(* ================================================================== *)
(** * More on the word-list registry *)

Lemma str_eqb_eq (a b : str) : str_eqb a b = true <-> a = b.
Proof.
  unfold str_eqb. destruct (str_eq_dec a b); split; congruence.
Qed.

(** A table built by successive assignments holds, under a key, the value
    of the last element that bears the key. *)
Lemma fold_dict_set_get {A V : Type} (kf : A -> str) (vf : A -> V)
    (l : list A) (d0 : dict V) (k : str) :
  dict_get (fold_left (fun d a => dict_set d (kf a) (vf a)) l d0) k
  = match find (fun a => str_eqb (kf a) k) (rev l) with
    | Some a => Some (vf a)
    | None => dict_get d0 k
    end.
Proof.
  induction l as [|a l IH] using rev_ind; [reflexivity|].
  rewrite fold_left_app, rev_app_distr. simpl.
  destruct (str_eqb (kf a) k) eqn:E.
  - apply str_eqb_eq in E. subst k. apply dict_get_set_same.
  - rewrite dict_get_set_other; [exact IH|].
    intros Heq. apply str_eqb_eq in Heq. congruence.
Qed.

Lemma find_unique {A : Type} (kf : A -> str) (l : list A) (a : A) :
  NoDup (map kf l) -> In a l ->
  find (fun x => str_eqb (kf x) (kf a)) l = Some a.
Proof.
  induction l as [|x t IH]; intros Hnd Hin; [destruct Hin|].
  simpl in Hnd. inversion Hnd as [|? ? Hnotin Hnd']; subst. simpl.
  destruct Hin as [->|Hin].
  - replace (str_eqb (kf a) (kf a)) with true
      by (symmetry; apply str_eqb_eq; reflexivity).
    reflexivity.
  - destruct (str_eqb (kf x) (kf a)) eqn:E; [|auto].
    apply str_eqb_eq in E. exfalso. apply Hnotin. rewrite E.
    apply in_map, Hin.
Qed.

Lemma find_rev_unique {A : Type} (kf : A -> str) (l : list A) (k : str) :
  NoDup (map kf l) ->
  find (fun x => str_eqb (kf x) k) (rev l) = find (fun x => str_eqb (kf x) k) l.
Proof.
  intros Hnd.
  destruct (find (fun x => str_eqb (kf x) k) l) as [a|] eqn:E.
  - apply find_some in E as [Hin Hk]. apply str_eqb_eq in Hk. subst k.
    apply find_unique.
    + rewrite map_rev. apply NoDup_rev, Hnd.
    + apply in_rev in Hin. exact Hin.
  - destruct (find (fun x => str_eqb (kf x) k) (rev l)) as [a|] eqn:E';
      [|reflexivity].
    apply find_some in E' as [Hin Hk]. apply in_rev in Hin.
    pose proof (find_none _ _ E a Hin) as Hno. simpl in Hno. congruence.
Qed.

Lemma normalized_weight_in_unit (wl : WordlistConfig) :
  0 <= weight wl <= 100 -> in_unit (get_normalized_weight wl).
Proof.
  intros [H0 H1]. unfold in_unit, get_normalized_weight, fdiv.
  assert (He : (0 <= inject_Z (weight wl) / 100 <= 1)%Q)
    by (unfold Qle, Qdiv, Qmult, Qinv, inject_Z; simpl; lia).
  split; [apply b64_nonneg|apply b64_le_1]; apply He.
Qed.

(** X9. With word-list weights within 0 .. 100 the arbitrator the service
    builds from the YAML table has category weights within [[0, 1]], and
    [arbitrate] then returns for every valid input. *)
Theorem yaml_weights_keep_arbitrate_total :
  forall (wordlists : list WordlistConfig),
    weights_in_range wordlists ->
    let cfg :=
      DetectionResultArbitrator_init None
        (Some (get_category_weights wordlists)) in
    (forall k v, dict_get (category_weights cfg) k = Some v -> in_unit v)
    /\ forall rbr, valid_input rbr ->
                   exists final summ, arbitrate cfg rbr = Ok (final, summ).
Proof.
  intros wordlists Hrange cfg.
  assert (Hcw : forall k v, dict_get (category_weights cfg) k = Some v -> in_unit v).
  { intros k v Hget.
    assert (Hget' : dict_get (get_category_weights wordlists) k = Some v).
    { unfold cfg, DetectionResultArbitrator_init in Hget. simpl in Hget.
      destruct (get_category_weights wordlists); [discriminate|exact Hget]. }
    unfold get_category_weights in Hget'.
    rewrite (fold_dict_set_get name get_normalized_weight) in Hget'.
    destruct (find _ (rev wordlists)) as [wl|] eqn:E; [|discriminate].
    injection Hget' as <-. apply find_some in E as [Hin _].
    apply in_rev in Hin. unfold weights_in_range in Hrange.
    rewrite Forall_forall in Hrange.
    apply normalized_weight_in_unit, Hrange, Hin. }
  split; [exact Hcw|].
  intros rbr Hv. apply arbitrate_returns; [exact Hv| |].
  - unfold cfg, DetectionResultArbitrator_init. simpl. lra.
  - intros k v Hget. apply (Hcw k v Hget).
Qed.

Lemma yaml_weights_keep_arbitrate_total_witness :
  (forall k v,
      dict_get (category_weights
                  (DetectionResultArbitrator_init None
                     (Some (get_category_weights
                              [sample_wordlist; disabled_wordlist])))) k
      = Some v -> in_unit v)
  /\ forall rbr, valid_input rbr ->
                 exists final summ,
                   arbitrate (DetectionResultArbitrator_init None
                                (Some (get_category_weights
                                         [sample_wordlist; disabled_wordlist])))
                     rbr = Ok (final, summ).
Proof.
  apply (yaml_weights_keep_arbitrate_total [sample_wordlist; disabled_wordlist]).
  repeat constructor; simpl; lia.
Defined.

(** X10. For word lists with distinct names, the weight table holds under
    each name the normalized weight of the word list
    [get_wordlist_by_name] finds, enabled or not, and nothing under other
    names. *)
Theorem category_weights_agree_with_lookup :
  forall (wordlists : list WordlistConfig) (n : str),
    NoDup (map name wordlists) ->
    dict_get (get_category_weights wordlists) n
    = option_map get_normalized_weight (get_wordlist_by_name wordlists n).
Proof.
  intros wordlists n Hnd. unfold get_category_weights, get_wordlist_by_name.
  rewrite (fold_dict_set_get name get_normalized_weight).
  rewrite (find_rev_unique name wordlists n Hnd).
  destruct (find _ wordlists); reflexivity.
Qed.

Lemma category_weights_agree_with_lookup_witness :
  dict_get (get_category_weights [sample_wordlist; disabled_wordlist]) (lit "off")
  = option_map get_normalized_weight
      (get_wordlist_by_name [sample_wordlist; disabled_wordlist] (lit "off")).
Proof.
  apply (category_weights_agree_with_lookup [sample_wordlist; disabled_wordlist]
           (lit "off")).
  simpl. repeat (constructor; [simpl; intuition discriminate|]). constructor.
Defined.

(** ** The words [load_words] returns *)

Lemma lstrip_In (l : str) (x : N) : In x (lstrip l) -> In x l.
Proof.
  destruct (lstrip_split l) as [h Hh]. intros Hin. rewrite Hh.
  apply in_or_app. right. exact Hin.
Qed.

Lemma rstrip_In (l : str) (x : N) : In x (rstrip l) -> In x l.
Proof.
  destruct (rstrip_split l) as [t Ht]. intros Hin. rewrite Ht.
  apply in_or_app. left. exact Hin.
Qed.

Lemma rstrip_no_trail (l : str) : no_lead (rev (rstrip l)).
Proof. unfold rstrip. rewrite rev_involutive. apply lstrip_no_lead. Qed.

Lemma rstrip_app_space (l : str) (c : N) :
  py_isspace c = true -> rstrip (l ++ [c]) = rstrip l.
Proof.
  intros Hc. unfold rstrip. rewrite rev_app_distr. simpl. rewrite Hc. reflexivity.
Qed.

(** A line read from a file holds a newline at its end only. *)
Lemma file_lines_shape (content cur line : str) :
  ~ In 10%N cur ->
  In line (file_lines cur content) ->
  exists body, ~ In 10%N body /\ (line = body \/ line = body ++ [10%N]).
Proof.
  revert cur. induction content as [|c t IH]; intros cur Hcur Hin; simpl in Hin.
  - destruct cur as [|c0 cur']; [destruct Hin|].
    destruct Hin as [<-|[]]. exists (rev (c0 :: cur')). split; [|auto].
    rewrite <- in_rev. exact Hcur.
  - destruct (c =? 10)%N eqn:Hc.
    + apply N.eqb_eq in Hc. subst c. destruct Hin as [<-|Hin].
      * exists (rev cur). split; [rewrite <- in_rev; exact Hcur|].
        right. reflexivity.
      * apply (IH []); [intros []|exact Hin].
    + apply N.eqb_neq in Hc. apply (IH (c :: cur)); [|exact Hin].
      intros [Heq|Hin']; [congruence|auto].
Qed.

Lemma strip_drops_final_newline (body : str) (x : N) :
  In x (strip (body ++ [10%N])) -> In x body.
Proof.
  unfold strip. intros Hin.
  destruct (lstrip_split (body ++ [10%N])) as [h Hh].
  remember (lstrip (body ++ [10%N])) as s eqn:Es. clear Es.
  assert (Hs : s = [] \/ exists s' c, s = s' ++ [c])
    by (induction s using rev_ind; eauto).
  destruct Hs as [->|(s' & c & ->)]; [destruct Hin|].
  rewrite app_assoc in Hh. apply app_inj_tail in Hh as [Hbody <-].
  rewrite rstrip_app_space in Hin by reflexivity.
  apply rstrip_In in Hin. rewrite Hbody. apply in_or_app. right. exact Hin.
Qed.

(** X11. Every word [load_words] reads from a file is a non-empty line of
    it without surrounding whitespace and without a newline. *)
Theorem load_words_are_stripped_lines :
  forall (self : WordlistConfig) (fs : filesystem) (w : str),
    _words self = None ->
    In w (fst (load_words self fs)) ->
    w <> [] /\ no_lead w /\ no_lead (rev w) /\ ~ In 10%N w.
Proof.
  intros self fs w Hcache Hin. unfold load_words in Hin. rewrite Hcache in Hin.
  destruct (fs (file self)) as [[content|e]|]; simpl in Hin; try destruct Hin.
  apply in_map_iff in Hin as (line & <- & Hline).
  apply filter_In in Hline as [Hline Hne].
  split; [|split; [|split]].
  - destruct (strip line); [discriminate|discriminate].
  - unfold strip. apply no_lead_rstrip, lstrip_no_lead.
  - unfold strip. apply rstrip_no_trail.
  - destruct (file_lines_shape content [] line) as (body & Hbody & [->| ->]);
      [intros []|exact Hline| |].
    + intros H10. apply Hbody. unfold strip in H10.
      apply rstrip_In, lstrip_In in H10. exact H10.
    + intros H10. apply Hbody. apply strip_drops_final_newline. exact H10.
Qed.

Lemma load_words_are_stripped_lines_witness :
  lit "spaced word" <> [] /\ no_lead (lit "spaced word")
  /\ no_lead (rev (lit "spaced word")) /\ ~ In 10%N (lit "spaced word").
Proof.
  apply (load_words_are_stripped_lines sample_wordlist padded_filesystem
           (lit "spaced word")).
  - reflexivity.
  - left. reflexivity.
Defined.

(** What the padded sample file loads as. *)
Example load_words_padded_sample :
  fst (load_words sample_wordlist padded_filesystem)
  = [lit "spaced word"; lit "last"].
Proof. reflexivity. Qed.

(** X12. [load_words] caches what it read: once a file was read, later
    calls return the same words whatever the files then hold, until
    [reload_words] reads anew; a missing or unreadable file gives no words
    and leaves the cache empty, so that the next call tries again. *)
Theorem load_words_cache :
  forall (self : WordlistConfig) (fs : filesystem),
    _words self = None ->
    (forall content,
        fs (file self) = Some (Ok content) ->
        forall fs',
          load_words (snd (load_words self fs)) fs' = load_words self fs
          /\ reload_words (snd (load_words self fs)) fs' = load_words self fs')
    /\ ((fs (file self) = None \/ exists e, fs (file self) = Some (Raise e)) ->
        load_words self fs = ([], self)).
Proof.
  intros self fs Hcache. split.
  - intros content Hfile fs'.
    set (ws := map strip
                 (filter (fun line => nonempty (strip line))
                    (file_lines [] content))).
    assert (Hload : load_words self fs
                    = (ws, mkWordlistConfig (name self) (file self)
                             (wl_enabled self) (weight self) (Some ws)))
      by (unfold load_words; rewrite Hcache, Hfile; reflexivity).
    rewrite Hload. cbn [snd]. split; [reflexivity|].
    unfold reload_words. cbn [name file wl_enabled weight].
    destruct self as [n f e w c]. simpl in Hcache. subst c. reflexivity.
  - intros [Hnone|[e Herr]]; unfold load_words; rewrite Hcache.
    + rewrite Hnone. reflexivity.
    + rewrite Herr. reflexivity.
Qed.

Lemma load_words_cache_witness :
  (forall content,
      sample_filesystem (file sample_wordlist) = Some (Ok content) ->
      forall fs',
        load_words (snd (load_words sample_wordlist sample_filesystem)) fs'
        = load_words sample_wordlist sample_filesystem
        /\ reload_words (snd (load_words sample_wordlist sample_filesystem)) fs'
           = load_words sample_wordlist fs')
  /\ ((sample_filesystem (file sample_wordlist) = None
       \/ exists e, sample_filesystem (file sample_wordlist) = Some (Raise e)) ->
      load_words sample_wordlist sample_filesystem = ([], sample_wordlist)).
Proof.
  apply (load_words_cache sample_wordlist sample_filesystem). reflexivity.
Defined.

(** ** Collections of words *)

Lemma fromkeys_In (l seen : list str) (x : str) :
  In x (fromkeys seen l) <-> In x l /\ ~ In x seen.
Proof.
  revert seen. induction l as [|y t IH]; intros seen; simpl; [tauto|].
  destruct (in_dec str_eq_dec y seen) as [Hin|Hnin].
  - rewrite IH. split.
    + tauto.
    + intros [[<-|Hx] Hns]; [contradiction|tauto].
  - simpl. rewrite IH. simpl. split.
    + intros [<-|(Hx & Hns)]; [tauto|tauto].
    + intros [[<-|Hx] Hns]; [auto|].
      destruct (str_eq_dec y x) as [->|Hne]; [auto|]. right. tauto.
Qed.

Lemma fromkeys_NoDup (l seen : list str) : NoDup (fromkeys seen l).
Proof.
  revert seen. induction l as [|y t IH]; intros seen; simpl; [constructor|].
  destruct (in_dec str_eq_dec y seen); [apply IH|].
  constructor; [|apply IH]. rewrite fromkeys_In. simpl. tauto.
Qed.

(** X13. [get_flattened_words] returns every word of every enabled word
    list exactly once, and nothing else. *)
Theorem flattened_words_distinct_and_complete :
  forall (wordlists : list WordlistConfig) (fs : filesystem),
    NoDup (get_flattened_words wordlists fs)
    /\ forall w,
         In w (get_flattened_words wordlists fs)
         <-> exists wl, In wl wordlists /\ wl_enabled wl = true
                        /\ In w (fst (load_words wl fs)).
Proof.
  intros wordlists fs. unfold get_flattened_words.
  split; [apply fromkeys_NoDup|].
  intros w. rewrite fromkeys_In, in_flat_map. unfold get_enabled_wordlists.
  split.
  - intros [(wl & Hwl & Hw) _]. apply filter_In in Hwl. exists wl. tauto.
  - intros (wl & Hwl & Hen & Hw). split; [|tauto].
    exists wl. split; [apply filter_In; tauto|exact Hw].
Qed.

(** X14. [get_all_words] has an entry exactly for the names of enabled
    word lists; where these names are distinct, the entry of a word list
    holds its words. *)
Theorem all_words_by_name :
  forall (wordlists : list WordlistConfig) (fs : filesystem),
    (forall n,
        (forall wl, In wl wordlists -> wl_enabled wl = true -> name wl <> n) ->
        dict_get (get_all_words wordlists fs) n = None)
    /\ (NoDup (map name (get_enabled_wordlists wordlists)) ->
        forall wl, In wl wordlists -> wl_enabled wl = true ->
                   dict_get (get_all_words wordlists fs) (name wl)
                   = Some (fst (load_words wl fs))).
Proof.
  intros wordlists fs. unfold get_all_words. split.
  - intros n Hno.
    rewrite (fold_dict_set_get name (fun wl => fst (load_words wl fs))).
    destruct (find _ (rev (get_enabled_wordlists wordlists))) as [wl|] eqn:E;
      [|reflexivity].
    apply find_some in E as [Hin Hk]. apply in_rev in Hin.
    apply filter_In in Hin as [Hin Hen]. apply str_eqb_eq in Hk.
    exfalso. exact (Hno wl Hin Hen Hk).
  - intros Hnd wl Hin Hen.
    rewrite (fold_dict_set_get name (fun wl => fst (load_words wl fs))).
    rewrite (find_rev_unique name _ _ Hnd).
    rewrite (find_unique name); [reflexivity|exact Hnd|].
    apply filter_In. auto.
Qed.

Lemma all_words_by_name_witness :
  (forall n,
      (forall wl, In wl [sample_wordlist; disabled_wordlist] ->
                  wl_enabled wl = true -> name wl <> n) ->
      dict_get (get_all_words [sample_wordlist; disabled_wordlist]
                  sample_filesystem) n = None)
  /\ (NoDup (map name (get_enabled_wordlists [sample_wordlist; disabled_wordlist])) ->
      forall wl, In wl [sample_wordlist; disabled_wordlist] ->
                 wl_enabled wl = true ->
                 dict_get (get_all_words [sample_wordlist; disabled_wordlist]
                             sample_filesystem) (name wl)
                 = Some (fst (load_words wl sample_filesystem))).
Proof.
  exact (all_words_by_name [sample_wordlist; disabled_wordlist] sample_filesystem).
Defined.

(** ** What reaches the rules *)





(** X16. [RuleBasedDetector.load_wordlists] adds to its automaton only
    words of enabled word lists that are non-empty and do not start with
    ['#'], each under its normalized form, which is not empty either, and
    tagged with the word list's name. *)
Theorem rule_detector_loads_no_comment :
  forall (convert : str -> result str) (lower : str -> str)
         (wordlists : list WordlistConfig) (fs : filesystem)
         (key word category : str),
    In (key, (word, category))
       (rule_detector_load_wordlists convert lower wordlists fs) ->
    startswith_hash word = false /\ word <> [] /\ key <> []
    /\ key = normalize convert lower (fun _ => false) word false
    /\ exists wl, In wl wordlists /\ wl_enabled wl = true
                  /\ name wl = category
                  /\ In word (fst (load_words wl fs)).
Proof.
  intros convert lower wordlists fs key word category Hin.
  unfold rule_detector_load_wordlists in Hin.
  apply in_flat_map in Hin as (wl & Hwl & Hin).
  apply filter_In in Hwl as [Hwl Hen].
  apply in_flat_map in Hin as (w & Hw & Hin).
  destruct (nonempty w && negb (startswith_hash w)) eqn:Hok; [|destruct Hin].
  apply andb_prop in Hok as [Hne Hhash]. apply negb_true_iff in Hhash.
  destruct (nonempty (normalize convert lower (fun _ => false) w false)) eqn:Hn;
    [|destruct Hin].
  destruct Hin as [Heq|[]]. injection Heq as <- <- <-.
  repeat split.
  - exact Hhash.
  - intros ->. discriminate.
  - intros Hk. rewrite Hk in Hn. discriminate.
  - exists wl. auto.
Qed.

Lemma rule_detector_loads_no_comment_witness :
  startswith_hash (lit "badword") = false /\ lit "badword" <> []
  /\ lit "badword" <> []
  /\ lit "badword"
     = normalize (table_convert one_entry_table) ascii_lower (fun _ => false)
         (lit "badword") false
  /\ exists wl, In wl [sample_wordlist] /\ wl_enabled wl = true
                /\ name wl = lit "test"
                /\ In (lit "badword") (fst (load_words wl sample_filesystem)).
Proof.
  apply (rule_detector_loads_no_comment (table_convert one_entry_table)
           ascii_lower [sample_wordlist] sample_filesystem).
  left. reflexivity.
Defined.

(* ================================================================== *)
(** * More on the text preprocessor *)

Lemma clean_for_matching_eq (t : str) :
  clean_for_matching t = remove_noise_chars t.
Proof. destruct t; reflexivity. Qed.

Lemma remove_noise_chars_all_noise (n : str) :
  Forall (fun c => is_noise c = true) n -> remove_noise_chars n = [].
Proof.
  induction 1 as [|c t Hc _ IH]; [reflexivity|].
  unfold remove_noise_chars in *. simpl. rewrite Hc. simpl. exact IH.
Qed.

(** X17. [clean_for_matching] leaves no noise character, is idempotent,
    and is blind to noise inserted anywhere in a text: the text with and
    without the inserted characters cleans to the same string. *)
Theorem clean_for_matching_ignores_noise :
  forall t : str,
    Forall (fun c => is_noise c = false) (clean_for_matching t)
    /\ clean_for_matching (clean_for_matching t) = clean_for_matching t
    /\ forall a n b,
         Forall (fun c => is_noise c = true) n ->
         clean_for_matching (a ++ n ++ b) = clean_for_matching (a ++ b).
Proof.
  intros t. rewrite !clean_for_matching_eq. unfold remove_noise_chars at 1 3.
  split; [|split].
  - apply Forall_forall. intros c Hc. apply filter_In in Hc as [_ Hc].
    apply negb_true_iff. exact Hc.
  - unfold remove_noise_chars. induction t as [|c t IH]; [reflexivity|]. simpl.
    destruct (negb (is_noise c)) eqn:E; simpl; [rewrite E, IH|]; auto.
  - intros a n b Hn. rewrite !clean_for_matching_eq.
    unfold remove_noise_chars. rewrite !filter_app.
    fold (remove_noise_chars n).
    rewrite (remove_noise_chars_all_noise n Hn). reflexivity.
Qed.

Lemma clean_for_matching_ignores_noise_witness :
  clean_for_matching (lit "bad" ++ lit " .* " ++ lit "word")
  = clean_for_matching (lit "bad" ++ lit "word").
Proof.
  apply (proj2 (proj2 (clean_for_matching_ignores_noise [])) (lit "bad")
           (lit " .* ") (lit "word")).
  repeat constructor.
Defined.

(** The repository's own test: U+654F . U+611F . U+8BCD cleans to the
    three characters. *)
Example clean_for_matching_test :
  clean_for_matching [25935; 46; 24863; 46; 35789]%N = [25935; 24863; 35789]%N.
Proof. reflexivity. Qed.

(** ** The size of the chunks *)

Lemma py_slice_length (s : str) (lo hi : Z) :
  0 <= lo < hi -> lo < len s ->
  1 <= len (py_slice s lo hi) <= hi - lo.
Proof.
  intros H Hlo. rewrite py_slice_forward by lia.
  unfold len in *. rewrite length_firstn, length_skipn. lia.
Qed.

Lemma split_loop_chunk_sizes (text : str) (max_length : Z) :
  1 <= max_length ->
  forall (fuel : nat) (start : Z) (acc chunks : list str),
    0 <= start ->
    split_loop fuel text max_length start acc = Some (Ok chunks) ->
    exists rest,
      chunks = acc ++ rest
      /\ Forall (fun c => 1 <= len c <= max_length + 1) rest.
Proof.
  intros Hm. induction fuel as [|fuel IH]; intros start acc chunks Hs Hrun.
  - simpl in Hrun. destruct (start <? len text); [discriminate|].
    injection Hrun as <-. exists []. rewrite app_nil_r. split; [reflexivity|constructor].
  - cbn [split_loop] in Hrun. destruct (start <? len text) eqn:Hlt.
    + apply Z.ltb_lt in Hlt.
      assert (Hhalf : 0 <= max_length / 2 < max_length).
      { split; [apply Z.div_pos; lia|apply Z.div_lt; lia]. }
      assert (Hend : exists o,
                 (if start + max_length <? len text
                  then find_split text (start + max_length)
                         (Z.to_nat (start + max_length - (start + max_length / 2)))
                  else Ok None) = Ok o
                 /\ start < match o with Some e => e | None => start + max_length end
                    <= start + max_length + 1).
      { destruct (start + max_length <? len text) eqn:Hin.
        - apply Z.ltb_lt in Hin.
          destruct (find_split_spec text
                      (Z.to_nat (start + max_length - (start + max_length / 2)))
                      (start + max_length)) as (o & Ho & He); [lia|lia|].
          exists o. split; [assumption|].
          destruct o as [e|]; [specialize (He e eq_refl)|]; lia.
        - exists None. split; [reflexivity|lia]. }
      destruct Hend as (o & Ho & Hend). rewrite Ho in Hrun.
      set (end1 := match o with Some e => e | None => start + max_length end) in *.
      destruct (IH end1 _ chunks ltac:(lia) Hrun) as (rest & -> & Hrest).
      exists (py_slice text start end1 :: rest). split.
      * rewrite <- app_assoc. reflexivity.
      * constructor; [|exact Hrest].
        pose proof (py_slice_length text start end1 ltac:(lia) Hlt). lia.
    + injection Hrun as <-. exists []. rewrite app_nil_r.
      split; [reflexivity|constructor].
Qed.

(** X18. For a maximum length of at least 1, no chunk [split_text]
    returns is longer than [max_length + 1] (a cut after a sentence end
    found at the window's end takes one character more than the window),
    and no chunk of a non-empty text is empty. *)
Theorem split_text_chunk_sizes :
  forall (fuel : nat) (text : str) (max_length : Z) (chunks : list str),
    1 <= max_length ->
    split_text fuel text max_length = Some (Ok chunks) ->
    Forall (fun c => len c <= max_length + 1) chunks
    /\ (text <> [] -> Forall (fun c => c <> []) chunks).
Proof.
  intros fuel text max_length chunks Hm Hrun. unfold split_text in Hrun.
  destruct (len text <=? max_length) eqn:Hle.
  - apply Z.leb_le in Hle. injection Hrun as <-. split.
    + constructor; [lia|constructor].
    + intros Hne. constructor; [exact Hne|constructor].
  - destruct (split_loop_chunk_sizes text max_length Hm fuel 0 [] chunks
                ltac:(lia) Hrun) as (rest & -> & Hrest).
    simpl. split.
    + eapply Forall_impl; [|exact Hrest]. simpl. intros c Hc. lia.
    + intros _. eapply Forall_impl; [|exact Hrest]. simpl.
      intros c Hc ->. unfold len in Hc. simpl in Hc. lia.
Qed.

Lemma split_text_chunk_sizes_witness :
  Forall (fun c => len c <= 4 + 1)
    [lit "ab" ++ [12290%N] ++ lit "c"; lit "defg" ++ [10%N]; lit "hi"]
  /\ (sample_text <> [] ->
      Forall (fun c => c <> [])
        [lit "ab" ++ [12290%N] ++ lit "c"; lit "defg" ++ [10%N]; lit "hi"]).
Proof.
  apply (split_text_chunk_sizes 11 sample_text 4).
  - lia.
  - reflexivity.
Defined.

(** ** The form of normalized text *)

(** X19. When the converter returns, [normalize] (without noise removal)
    yields text in which whitespace occurs only as single spaces between
    other characters, never at either end; when the converter raises,
    [normalize] returns its input unchanged. *)
Theorem normalize_output_form :
  forall (convert : str -> result str) (lower : str -> str)
         (isword : N -> bool) (t : str),
    (forall t1,
        convert t = Ok t1 ->
        single_spaced false (normalize convert lower isword t false)
        /\ no_lead (normalize convert lower isword t false)
        /\ no_lead (rev (normalize convert lower isword t false)))
    /\ (forall e remove_noise,
           convert t = Raise e ->
           normalize convert lower isword t remove_noise = t).
Proof.
  intros convert lower isword t. split.
  - intros t1 Hc. rewrite normalize_eq. destruct t as [|c t']; [simpl; auto|].
    rewrite Hc. split; [|split].
    + apply single_spaced_strip, sub_spaces_single_spaced.
    + unfold strip. apply no_lead_rstrip, lstrip_no_lead.
    + unfold strip. apply rstrip_no_trail.
  - intros e rn Hc. unfold normalize. destruct t; [reflexivity|].
    rewrite Hc. reflexivity.
Qed.

Lemma normalize_output_form_witness :
  single_spaced false (lit "hello world " ++ [22269%N])
  /\ no_lead (lit "hello world " ++ [22269%N])
  /\ no_lead (rev (lit "hello world " ++ [22269%N])).
Proof.
  exact (proj1 (normalize_output_form (table_convert one_entry_table)
                  ascii_lower (fun _ => false)
                  (lit "  Hello   World " ++ [22283%N]))
           _ eq_refl).
Defined.

(* ================================================================== *)
(** * More on the orchestrator *)

(** X20. A request in HYBRID mode (the default of [DetectionConfig]) whose
    text passes the length check always fails: selecting the rules raises
    [AttributeError], which leaves [detect] as a [DetectionError]; no rule
    is called. *)
Theorem hybrid_mode_always_fails :
  forall (self : EnhancedDetectionService) (request : DetectionRequest)
         (elapsed_ms : Z),
    detection_mode (config request) = HYBRID ->
    len (text request) <= max_text_length self ->
    service_detect self request elapsed_ms
    = (Raise (DetectionError (DetectFailed AttributeError)), counted self, []).
Proof.
  intros self request elapsed_ms Hmode Hlen.
  unfold service_detect, _execute_multi_rule_detection, _get_rules_for_mode.
  replace (max_text_length self <? len (text request)) with false
    by (symmetry; apply Z.ltb_ge; exact Hlen).
  rewrite Hmode. reflexivity.
Qed.

Lemma hybrid_mode_always_fails_witness :
  service_detect sample_service
    (mkDetectionRequest (lit "abc") (mkDetectionConfig HYBRID [] true false)) 3
  = (Raise (DetectionError (DetectFailed AttributeError)),
     counted sample_service, []).
Proof.
  apply (hybrid_mode_always_fails sample_service
           (mkDetectionRequest (lit "abc")
              (mkDetectionConfig HYBRID [] true false)) 3).
  - reflexivity.
  - unfold len. simpl. lia.
Defined.

(** ** Which rules run *)

Lemma dict_keys_set_new {V : Type} (d : dict V) (k : str) (v : V) :
  ~ In k (dict_keys d) -> dict_keys (dict_set d k v) = dict_keys d ++ [k].
Proof.
  unfold dict_keys. induction d as [|[k' v'] d IH]; simpl; intros Hnin;
    [reflexivity|].
  destruct (str_eq_dec k' k) as [->|Hne]; [tauto|].
  simpl. f_equal. apply IH. tauto.
Qed.

Lemma run_rules_keys (request : DetectionRequest) (l : dict BaseDetectionRule) :
  NoDup (dict_keys l) ->
  forall rbr0 calls0 rbr calls,
    (forall n, In n (dict_keys l) -> ~ In n (dict_keys rbr0)) ->
    fold_left (run_rule request) l (rbr0, calls0) = (rbr, calls) ->
    dict_keys rbr
    = dict_keys rbr0 ++ map fst (filter (fun e => enabled (snd e)) l)
    /\ map fst calls
       = map fst calls0 ++ map fst (filter (fun e => enabled (snd e)) l).
Proof.
  induction l as [|[n0 rule0] l IH]; intros Hnd rbr0 calls0 rbr calls Hfresh Hf.
  - simpl in Hf. injection Hf as <- <-. simpl. rewrite !app_nil_r. auto.
  - simpl in Hnd. inversion Hnd as [|? ? Hnotin Hnd']; subst.
    cbn [fold_left] in Hf. rewrite run_rule_eq in Hf. simpl.
    assert (Hn0 : ~ In n0 (dict_keys rbr0)) by (apply Hfresh; left; reflexivity).
    destruct (enabled rule0) eqn:Hen.
    + assert (Hfresh' : forall n, In n (dict_keys l) ->
                          ~ In n (dict_keys (dict_set rbr0 n0
                                               (contribution request rule0)))).
      { intros n Hn. rewrite dict_keys_set_new by exact Hn0.
        intros Hin. apply in_app_or in Hin as [Hin|[<-|[]]].
        - apply (Hfresh n); [right; exact Hn|exact Hin].
        - apply Hnotin, Hn. }
      destruct (IH Hnd' _ _ _ _ Hfresh' Hf) as [Hk Hc].
      rewrite Hk, Hc. rewrite dict_keys_set_new by exact Hn0.
      rewrite map_app. simpl. rewrite <- !app_assoc. auto.
    + apply (IH Hnd' _ _ _ _ (fun n Hn => Hfresh n (or_intror Hn)) Hf).
Qed.

Lemma filter_filter {A : Type} (f g : A -> bool) (l : list A) :
  filter f (filter g l) = filter (fun x => f x && g x) l.
Proof.
  induction l as [|x t IH]; simpl; [reflexivity|].
  destruct (g x); simpl.
  - rewrite andb_true_r. destruct (f x); simpl; rewrite IH; reflexivity.
  - rewrite andb_false_r. exact IH.
Qed.

(** X21. In RULE mode the per-rule map has one entry for each enabled,
    non-semantic rule, in the order the rules were registered, and exactly
    these rules are called, each once: a disabled or semantic rule is
    neither called nor present in the map. *)
Theorem rule_mode_runs_enabled_rules :
  forall (self : EnhancedDetectionService) (request : DetectionRequest)
         (rbr : dict (list DetectionResultItem)) (calls : list call),
    detection_mode (config request) = RULE_MODE ->
    NoDup (dict_keys (rules self)) ->
    _execute_multi_rule_detection self request = (Ok rbr, calls) ->
    dict_keys rbr = map fst (filter runs_in_rule_mode (rules self))
    /\ map fst calls = map fst (filter runs_in_rule_mode (rules self)).
Proof.
  intros self request rbr calls Hmode Hnd Hex.
  unfold _execute_multi_rule_detection, _get_rules_for_mode in Hex.
  rewrite Hmode in Hex.
  set (use := filter (fun '(_, rule) =>
                        negb (str_eqb (rule_type rule) (lit "semantic")))
                     (rules self)) in *.
  destruct (fold_left (run_rule request) use ([], [])) as [rbr' calls'] eqn:Hf.
  injection Hex as <- <-.
  destruct (run_rules_keys request use (NoDup_keys_filter _ _ Hnd) _ _ _ _
              (fun n _ (H : In n (dict_keys [])) => H) Hf) as [Hk Hc].
  simpl in Hk, Hc.
  assert (Heq : filter (fun e => enabled (snd e)) use
                = filter runs_in_rule_mode (rules self)).
  { unfold use. rewrite filter_filter. apply filter_ext.
    intros [n rule]. reflexivity. }
  rewrite Heq in Hk, Hc. auto.
Qed.

Lemma rule_mode_runs_enabled_rules_witness :
  dict_keys [(lit "default_exact", [sample_item "abc" (6 # 10) 0 3])]
  = map fst (filter runs_in_rule_mode (rules mixed_service))
  /\ map fst [(lit "default_exact", true)]
     = map fst (filter runs_in_rule_mode (rules mixed_service)).
Proof.
  apply (rule_mode_runs_enabled_rules mixed_service sample_request).
  - reflexivity.
  - unfold dict_keys. simpl.
    repeat (constructor; [simpl; intuition discriminate|]). constructor.
  - reflexivity.
Defined.

(** ** Responses *)

Lemma build_response_inv (self : EnhancedDetectionService)
    (request : DetectionRequest) (elapsed_ms : Z)
    (rbr : dict (list DetectionResultItem)) (response : DetectionResponse) :
  build_response self request elapsed_ms rbr = Ok response ->
  exists final summ,
    arbitrate (arbitrator self) rbr = Ok (final, summ)
    /\ response
       = mkDetectionResponse (nonempty final)
           (calculate_overall_risk_level (arbitrator self) final)
           (match final with
            | [] => 0%Q
            | first :: rest => py_max (r_confidence first) (map r_confidence rest)
            end)
           elapsed_ms (detection_mode (config request)) final summ
    /\ 0 <= elapsed_ms.
Proof.
  unfold build_response.
  destruct (arbitrate (arbitrator self) rbr) as [[final summ]|] eqn:Harb;
    simpl; [|discriminate].
  unfold new_DetectionResponse.
  destruct (Qle_bool 0 _ && Qle_bool _ 1 && (0 <=? elapsed_ms)) eqn:Hv;
    [|discriminate].
  intros [= <-]. exists final, summ.
  apply andb_prop in Hv as [_ Hms]. apply Z.leb_le in Hms. auto.
Qed.

Lemma service_detect_Ok (self : EnhancedDetectionService)
    (request : DetectionRequest) (elapsed_ms : Z)
    (response : DetectionResponse) (self' : EnhancedDetectionService)
    (calls : list call) :
  service_detect self request elapsed_ms = (Ok response, self', calls) ->
  self' = counted self
  /\ len (text request) <= max_text_length self
  /\ exists rbr,
       _execute_multi_rule_detection self request = (Ok rbr, calls)
       /\ build_response self request elapsed_ms rbr = Ok response.
Proof.
  intros Hdet.
  destruct (max_text_length self <? len (text request)) eqn:Hlen.
  { apply Z.ltb_lt in Hlen. rewrite (service_detect_too_long _ _ _ Hlen) in Hdet.
    discriminate. }
  rewrite (service_detect_eq _ _ _ Hlen) in Hdet.
  destruct (_execute_multi_rule_detection self request) as [[rbr|e] calls'];
    simpl in Hdet; [|discriminate].
  destruct (build_response self request elapsed_ms rbr) as [resp|e] eqn:Hb;
    [|discriminate].
  injection Hdet as <- <- <-. apply Z.ltb_ge in Hlen. eauto.
Qed.

(** X22. A response [detect] returns is consistent: it is flagged
    sensitive exactly when it has results, its overall score lies in
    [[0, 1]] and is at least every result's confidence (0 without
    results), its summary counts the results, its risk level is the one
    computed from the results (LOW without results), and the request
    counter has advanced by one. *)
Theorem detect_response_consistent :
  forall (self : EnhancedDetectionService) (request : DetectionRequest)
         (elapsed_ms : Z) (response : DetectionResponse)
         (self' : EnhancedDetectionService) (calls : list call),
    service_detect self request elapsed_ms = (Ok response, self', calls) ->
    is_sensitive response = nonempty (results response)
    /\ in_unit (overall_score response)
    /\ (forall r, In r (results response) ->
                  (r_confidence r <= overall_score response)%Q)
    /\ total_matches (summary response) = len (results response)
    /\ risk_level response
       = calculate_overall_risk_level (arbitrator self) (results response)
    /\ (results response = [] ->
        overall_score response = 0%Q /\ risk_level response = LOW)
    /\ detection_time_ms response = elapsed_ms
    /\ request_count self' = request_count self + 1.
Proof.
  intros self request elapsed_ms response self' calls Hdet.
  apply service_detect_Ok in Hdet as (-> & _ & rbr & _ & Hb).
  apply build_response_inv in Hb as (final & summ & Harb & -> & Hms).
  cbn [is_sensitive overall_score results summary risk_level detection_time_ms].
  assert (Hunit : Forall (fun r => in_unit (r_confidence r)) final).
  { pose proof (arbitrate_Ok _ _ _ _ Harb)
      as (? & ? & ? & items & _ & _ & _ & Hi & -> & _).
    apply sort_results_Forall. apply mapM_Forall2 in Hi.
    clear -Hi. induction Hi as [|h r ? ? Hr _ IH]; constructor; [|assumption].
    apply result_of_hit_inv in Hr. unfold in_unit. tauto. }
  pose proof (arbitrate_Ok _ _ _ _ Harb) as (? & ? & ? & ? & _ & _ & _ & _ & _ & ->).
  split; [reflexivity|]. split; [|split; [|split; [|split; [|split; [|split]]]]].
  - destruct final as [|first rest]; [unfold in_unit; lra|].
    pose proof (py_max_in (r_confidence first) (map r_confidence rest)) as Hin.
    change (r_confidence first :: map r_confidence rest)
      with (map r_confidence (first :: rest)) in Hin.
    apply in_map_iff in Hin as (r & <- & Hr).
    rewrite Forall_forall in Hunit. apply Hunit, Hr.
  - intros r Hr. destruct final as [|first rest]; [destruct Hr|].
    unfold py_max.
    destruct (py_max_fold_ge (map r_confidence rest) (r_confidence first))
      as [Hm Hy].
    destruct Hr as [<-|Hr]; [exact Hm|]. apply Hy, in_map, Hr.
  - destruct final; reflexivity.
  - reflexivity.
  - intros ->. split; reflexivity.
  - reflexivity.
  - simpl. reflexivity.
Qed.

Lemma detect_response_consistent_witness :
  exists response,
    fst (fst (service_detect sample_service sample_request 3)) = Ok response
    /\ is_sensitive response = nonempty (results response)
    /\ in_unit (overall_score response)
    /\ (forall r, In r (results response) ->
                  (r_confidence r <= overall_score response)%Q)
    /\ total_matches (summary response) = len (results response)
    /\ risk_level response
       = calculate_overall_risk_level (arbitrator sample_service)
           (results response)
    /\ (results response = [] ->
        overall_score response = 0%Q /\ risk_level response = LOW)
    /\ detection_time_ms response = 3
    /\ request_count (counted sample_service)
       = request_count sample_service + 1.
Proof.
  eexists. split; [vm_compute; reflexivity|].
  apply (detect_response_consistent sample_service sample_request 3 _
           (counted sample_service)
           (snd (service_detect sample_service sample_request 3))).
  vm_compute. reflexivity.
Defined.

(** ** Nothing found *)

Lemma dict_set_all_empty {A : Type} (d : dict (list A)) (k : str) :
  Forall (fun e => snd e = []) d ->
  Forall (fun e => snd e = []) (dict_set d k []).
Proof.
  induction d as [|[k' v'] d IH]; simpl; intros H.
  - constructor; [reflexivity|constructor].
  - inversion H as [|? ? Hv Hd]; subst.
    destruct (str_eq_dec k' k); constructor; simpl; auto.
Qed.

Lemma run_rules_all_empty (request : DetectionRequest)
    (l : dict BaseDetectionRule) :
  (forall n rule, In (n, rule) l -> enabled rule = true ->
                  contribution request rule = []) ->
  forall rbr0 calls0 rbr calls,
    Forall (fun e => snd e = []) rbr0 ->
    fold_left (run_rule request) l (rbr0, calls0) = (rbr, calls) ->
    Forall (fun e => snd e = []) rbr.
Proof.
  induction l as [|[n0 rule0] l IH]; intros Hempty rbr0 calls0 rbr calls H0 Hf.
  - simpl in Hf. injection Hf as <- _. exact H0.
  - cbn [fold_left] in Hf. rewrite run_rule_eq in Hf.
    destruct (enabled rule0) eqn:Hen.
    + eapply IH; [|  |exact Hf].
      * intros n rule Hin. apply (Hempty n). right. exact Hin.
      * rewrite (Hempty n0 rule0 (or_introl eq_refl) Hen).
        apply dict_set_all_empty, H0.
    + eapply IH; [|exact H0|exact Hf].
      intros n rule Hin. apply (Hempty n). right. exact Hin.
Qed.

Lemma convert_to_hits_all_empty (cfg : ArbitrationConfig)
    (rbr : dict (list DetectionResultItem)) :
  Forall (fun e => snd e = []) rbr -> _convert_to_hits cfg rbr = Ok [].
Proof.
  intros H. unfold _convert_to_hits.
  assert (Hm : mapM (fun '(rule_name, rs) =>
                       hs <- mapM (hits_of_result cfg rule_name) rs ;;
                       Ok (concat hs)) rbr
               = Ok (map (fun _ => []) rbr)).
  { induction H as [|[k v] d Hv _ IH]; [reflexivity|].
    simpl in Hv. subst v. simpl. rewrite IH. reflexivity. }
  rewrite Hm. simpl. f_equal.
  clear. induction rbr as [|e d IH]; [reflexivity|exact IH].
Qed.

(** X23. When no rule that runs reports anything (each returns an empty
    list or raises), a RULE-mode request within the length limit is
    answered: not sensitive, no results, score 0, risk LOW, an empty
    summary. *)
Theorem nothing_found_is_not_sensitive :
  forall (self : EnhancedDetectionService) (request : DetectionRequest)
         (elapsed_ms : Z),
    detection_mode (config request) = RULE_MODE ->
    len (text request) <= max_text_length self ->
    0 <= elapsed_ms ->
    (forall n rule, In (n, rule) (rules self) -> enabled rule = true ->
                    contribution request rule = []) ->
    fst (fst (service_detect self request elapsed_ms))
    = Ok (mkDetectionResponse false LOW 0 elapsed_ms RULE_MODE []
            (mkDetectionSummary 0 [] None)).
Proof.
  intros self request elapsed_ms Hmode Hlen Hms Hempty.
  rewrite service_detect_eq by (apply Z.ltb_ge; exact Hlen).
  cbn [fst]. unfold _execute_multi_rule_detection, _get_rules_for_mode.
  rewrite Hmode.
  set (use := filter _ (rules self)).
  destruct (fold_left (run_rule request) use ([], [])) as [rbr calls] eqn:Hf.
  cbn [fst bind].
  assert (Hall : Forall (fun e => snd e = []) rbr).
  { eapply (run_rules_all_empty request use); [|constructor|exact Hf].
    intros n rule Hin. apply filter_In in Hin as [Hin _]. eauto. }
  assert (Harb : arbitrate (arbitrator self) rbr
                 = Ok ([], mkDetectionSummary 0 [] None)).
  { apply (arbitrate_stages (arbitrator self) rbr [] [] [] []).
    - apply convert_to_hits_all_empty, Hall.
    - unfold merged_hits_of. destruct (enable_max_matching _); reflexivity.
    - reflexivity.
    - reflexivity. }
  unfold build_response. rewrite Harb. cbn.
  unfold new_DetectionResponse. cbn.
  replace (0 <=? elapsed_ms) with true by (symmetry; apply Z.leb_le; exact Hms).
  rewrite Hmode. reflexivity.
Qed.

Lemma nothing_found_is_not_sensitive_witness :
  fst (fst (service_detect quiet_service sample_request 3))
  = Ok (mkDetectionResponse false LOW 0 3 RULE_MODE []
          (mkDetectionSummary 0 [] None)).
Proof.
  apply (nothing_found_is_not_sensitive quiet_service sample_request 3).
  - reflexivity.
  - unfold len. simpl. lia.
  - lia.
  - intros n rule [H|[H|[]]] _; injection H as _ <-; reflexivity.
Defined.

(* ================================================================== *)
(** * services/detection_service.py *)

Lemma replace_if_better_keys (r : DetectionResultItem)
    (u : list DetectionResultItem) :
  map result_key (replace_if_better r u) = map result_key u.
Proof.
  induction u as [|x t IH]; [reflexivity|].
  cbn [replace_if_better map].
  destruct (key_eq_dec (result_key x) (result_key r)) as [Hk|Hk].
  - destruct (Qlt_bool _ _); cbn [map]; congruence.
  - cbn [map]. congruence.
Qed.

Lemma replace_if_better_In (r : DetectionResultItem)
    (u : list DetectionResultItem) (x : DetectionResultItem) :
  In x (replace_if_better r u) -> x = r \/ In x u.
Proof.
  induction u as [|y t IH]; [intros []|].
  cbn [replace_if_better].
  destruct (key_eq_dec (result_key y) (result_key r)).
  - destruct (Qlt_bool _ _); intros [<-|H]; simpl; auto.
  - intros [<-|H]; simpl; [auto|]. destruct (IH H); auto.
Qed.

Lemma replace_if_better_keeps (r : DetectionResultItem)
    (u : list DetectionResultItem) (x : DetectionResultItem) :
  In x u ->
  exists x', In x' (replace_if_better r u) /\ result_key x' = result_key x
             /\ (r_confidence x <= r_confidence x')%Q.
Proof.
  induction u as [|y t IH]; [intros []|].
  cbn [replace_if_better]. intros [Heq|Hin].
  - subst y.
    destruct (key_eq_dec (result_key x) (result_key r)) as [Hk|Hk].
    + destruct (Qlt_bool (r_confidence x) (r_confidence r)) eqn:E.
      * exists r. qprop. split; [left; reflexivity|].
        split; [symmetry; exact Hk|lra].
      * exists x. split; [left; reflexivity|]. split; [reflexivity|lra].
    + exists x. split; [left; reflexivity|]. split; [reflexivity|lra].
  - destruct (key_eq_dec (result_key y) (result_key r)).
    + destruct (Qlt_bool _ _); exists x;
        (split; [right; exact Hin|]); (split; [reflexivity|lra]).
    + destruct (IH Hin) as (x' & Hx' & Hk & Hc). exists x'.
      split; [right; exact Hx'|]. split; assumption.
Qed.

Lemma replace_if_better_covers (r : DetectionResultItem)
    (u : list DetectionResultItem) :
  In (result_key r) (map result_key u) ->
  exists r', In r' (replace_if_better r u) /\ result_key r' = result_key r
             /\ (r_confidence r <= r_confidence r')%Q.
Proof.
  induction u as [|y t IH]; [intros []|].
  cbn [replace_if_better map].
  destruct (key_eq_dec (result_key y) (result_key r)) as [Hk|Hk].
  - intros _. destruct (Qlt_bool (r_confidence y) (r_confidence r)) eqn:E.
    + exists r. split; [left; reflexivity|]. split; [reflexivity|lra].
    + exists y. qprop. split; [left; reflexivity|]. split; [exact Hk|lra].
  - intros [Heq|Hin]; [contradiction|].
    destruct (IH Hin) as (r' & Hr' & Hk' & Hc). exists r'.
    split; [right; exact Hr'|]. split; assumption.
Qed.

Lemma dedup_step_inv (seen : list (str * str))
    (unique done : list DetectionResultItem) (r : DetectionResultItem) :
  dedup_inv seen unique done ->
  dedup_inv (fst (dedup_step (seen, unique) r))
            (snd (dedup_step (seen, unique) r)) (done ++ [r]).
Proof.
  intros (Hseen & Hnd & Hsub & Hcov). unfold dedup_step.
  destruct (in_dec key_eq_dec (result_key r) seen) as [Hin|Hnin]; simpl.
  - (* a repeated key *)
    split; [|split; [|split]].
    + intros k. rewrite replace_if_better_keys. apply Hseen.
    + rewrite replace_if_better_keys. exact Hnd.
    + intros x Hx. apply in_or_app.
      apply replace_if_better_In in Hx as [->|Hx]; [right; left; reflexivity|].
      left. apply Hsub, Hx.
    + intros x Hx. apply in_app_or in Hx as [Hx|[<-|[]]].
      * destruct (Hcov x Hx) as (x' & Hx' & Hk & Hc).
        destruct (replace_if_better_keeps r unique x' Hx') as (x'' & Hx'' & Hk' & Hc').
        exists x''. split; [exact Hx''|]. split; [congruence|lra].
      * apply replace_if_better_covers. apply Hseen, Hin.
  - (* a new key *)
    split; [|split; [|split]].
    + intros k. rewrite map_app, in_app_iff. simpl. rewrite <- Hseen. tauto.
    + rewrite map_app. simpl.
      apply NoDup_app; [exact Hnd|repeat constructor; intros []|].
      intros k Hk [<-|[]]. apply Hnin, Hseen, Hk.
    + intros x Hx. apply in_app_or in Hx as [Hx|[<-|[]]]; apply in_or_app.
      * left. apply Hsub, Hx.
      * right. left. reflexivity.
    + intros x Hx. apply in_app_or in Hx as [Hx|[<-|[]]].
      * destruct (Hcov x Hx) as (x' & Hx' & Hk & Hc).
        exists x'. split; [apply in_or_app; auto|auto].
      * exists r. split; [apply in_or_app; right; left; reflexivity|].
        split; [reflexivity|lra].
Qed.

Lemma dedup_fold_inv (l : list DetectionResultItem) :
  forall seen unique done,
    dedup_inv seen unique done ->
    dedup_inv (fst (fold_left dedup_step l (seen, unique)))
              (snd (fold_left dedup_step l (seen, unique))) (done ++ l).
Proof.
  induction l as [|r t IH]; intros seen unique done Hinv.
  - simpl. rewrite app_nil_r. exact Hinv.
  - cbn [fold_left].
    pose proof (dedup_step_inv seen unique done r Hinv) as Hstep.
    destruct (dedup_step (seen, unique) r) as [seen' unique'].
    cbn [fst snd] in Hstep.
    replace (done ++ r :: t) with ((done ++ [r]) ++ t)
      by (rewrite <- app_assoc; reflexivity).
    apply IH, Hstep.
Qed.

Lemma by_confidence_sorted (l : list DetectionResultItem) :
  StronglySorted (fun a b => (r_confidence b <= r_confidence a)%Q)
    (sorted (fun a b => Qlt_bool b a) r_confidence l).
Proof.
  assert (H : StronglySorted
                (not_after (fun a b => Qlt_bool b a) r_confidence)
                (sorted (fun a b => Qlt_bool b a) r_confidence l)).
  { apply sorted_StronglySorted.
    - intros a b Hab. qprop. lra.
    - unfold not_after. intros x y z Hxy Hyz. qprop. lra. }
  induction H as [|x t _ IH Hx]; constructor; [assumption|].
  eapply Forall_impl; [|exact Hx]. unfold not_after. intros y Hy. qprop. lra.
Qed.

(** X24. [_merge_and_deduplicate_results] keeps one result per word and
    category: the results it returns have distinct keys, each is one of
    the input results, every input result is represented by a returned one
    with its key that is at least as confident, and the returned results
    are in order of non-increasing confidence. *)
Theorem merge_and_deduplicate_spec :
  forall rs : list DetectionResultItem,
    NoDup (map result_key (_merge_and_deduplicate_results rs))
    /\ (forall r, In r (_merge_and_deduplicate_results rs) -> In r rs)
    /\ (forall r, In r rs ->
                  exists r', In r' (_merge_and_deduplicate_results rs)
                             /\ result_key r' = result_key r
                             /\ (r_confidence r <= r_confidence r')%Q)
    /\ StronglySorted (fun a b => (r_confidence b <= r_confidence a)%Q)
         (_merge_and_deduplicate_results rs).
Proof.
  intros rs. destruct rs as [|r0 t].
  { simpl. repeat split; try constructor; tauto. }
  unfold _merge_and_deduplicate_results.
  set (l := r0 :: t).
  assert (Hinit : dedup_inv [] [] []).
  { repeat split; simpl; try tauto. constructor. }
  pose proof (dedup_fold_inv l [] [] [] Hinit) as (_ & Hnd & Hsub & Hcov).
  simpl app in *.
  set (unique := snd (fold_left dedup_step l ([], []))) in *.
  pose proof (sorted_Permutation (fun a b => Qlt_bool b a) r_confidence unique)
    as Hperm.
  split; [|split; [|split]].
  - eapply Permutation_NoDup; [|exact Hnd].
    apply Permutation_map. symmetry. exact Hperm.
  - intros r Hr. apply Hsub. eapply Permutation_in; [exact Hperm|exact Hr].
  - intros r Hr. destruct (Hcov r Hr) as (r' & Hr' & Hk & Hc).
    exists r'. split; [|auto].
    eapply Permutation_in; [symmetry; exact Hperm|exact Hr'].
  - apply by_confidence_sorted.
Qed.

(** The sample: of the two reports of ["abc"] the more confident one
    stays, at the place of the first. *)
Example merge_and_deduplicate_sample :
  _merge_and_deduplicate_results repeated_results
  = [sample_item "abc" (9 # 10) 20 23; sample_item "xyz" (7 # 10) 10 13].
Proof. reflexivity. Qed.

(** X25. The legacy risk level is LOW exactly when there are no results:
    any result at all gives at least MEDIUM whatever the score, three or
    more give at least HIGH, five or more give CRITICAL. *)
Theorem legacy_risk_level_by_count :
  forall (overall_score : Q) (rs : list DetectionResultItem),
    (_calculate_risk_level overall_score rs = LOW <-> rs = [])
    /\ (3 <= len rs ->
        _calculate_risk_level overall_score rs = HIGH
        \/ _calculate_risk_level overall_score rs = CRITICAL)
    /\ (5 <= len rs -> _calculate_risk_level overall_score rs = CRITICAL).
Proof.
  intros score rs. destruct rs as [|r t].
  { unfold len; simpl. repeat split; auto; lia. }
  unfold _calculate_risk_level. set (l := r :: t).
  assert (H1 : 1 <= len l) by (unfold l; rewrite len_cons; unfold len; lia).
  split; [|split].
  - split; [|discriminate].
    destruct (Qle_bool (b64 (9 # 10)) score || (5 <=? len l)); [discriminate|].
    destruct (Qle_bool (b64 (7 # 10)) score || (3 <=? len l)); [discriminate|].
    replace (1 <=? len l) with true by (symmetry; apply Z.leb_le; exact H1).
    rewrite orb_true_r. discriminate.
  - intros H3. destruct (Qle_bool (b64 (9 # 10)) score || (5 <=? len l)); [auto|].
    replace (3 <=? len l) with true by (symmetry; apply Z.leb_le; exact H3).
    rewrite orb_true_r. auto.
  - intros H5.
    replace (5 <=? len l) with true by (symmetry; apply Z.leb_le; exact H5).
    rewrite orb_true_r. reflexivity.
Qed.

Lemma legacy_risk_level_by_count_witness :
  (_calculate_risk_level (1 # 10) repeated_results = LOW <-> repeated_results = [])
  /\ (3 <= len repeated_results ->
      _calculate_risk_level (1 # 10) repeated_results = HIGH
      \/ _calculate_risk_level (1 # 10) repeated_results = CRITICAL)
  /\ (5 <= len repeated_results ->
      _calculate_risk_level (1 # 10) repeated_results = CRITICAL).
Proof. exact (legacy_risk_level_by_count (1 # 10) repeated_results). Defined.

(* ================================================================== *)
(** * services/rule_engine.py *)

Lemma startswith_app (p x : str) : startswith (p ++ x) p = true.
Proof.
  induction p as [|a p IH]; [destruct x; reflexivity|].
  simpl. rewrite N.eqb_refl. exact IH.
Qed.

Lemma startswith_firstn (p s : str) :
  startswith s p = true -> firstn (List.length p) s = p.
Proof.
  revert s. induction p as [|a p IH]; intros s H; [reflexivity|].
  destruct s as [|b s]; [discriminate|]. simpl in H.
  apply andb_prop in H as [Hab Hs]. apply N.eqb_eq in Hab. subst b.
  simpl. f_equal. apply IH, Hs.
Qed.

Lemma find_from_here (l sub : str) (i : Z) :
  startswith l sub = true -> find_from l sub i = i.
Proof. intros H. destruct l; cbn [find_from]; rewrite H; reflexivity. Qed.

Lemma find_from_spec (l sub : str) :
  forall i j, 0 <= i -> find_from l sub i = j -> j <> -1 ->
    exists k : nat, j = i + Z.of_nat k /\ (k <= List.length l)%nat
                    /\ startswith (skipn k l) sub = true.
Proof.
  induction l as [|c t IH]; intros i j Hi Hf Hj.
  - cbn [find_from] in Hf. destruct (startswith [] sub) eqn:E; [|congruence].
    exists 0%nat. simpl. split; [lia|]. split; [lia|exact E].
  - cbn [find_from] in Hf. destruct (startswith (c :: t) sub) eqn:E.
    + exists 0%nat. simpl skipn. split; [lia|]. split; [simpl; lia|exact E].
    + destruct (IH (i + 1) j ltac:(lia) Hf Hj) as (k & Hk & Hle & Hs).
      exists (S k). simpl. split; [lia|]. split; [lia|exact Hs].
Qed.

Lemma py_find_spec (s sub : str) (start j : Z) :
  0 <= start -> py_find s sub start = j -> j <> -1 ->
  start <= j <= len s /\ startswith (skipn (Z.to_nat j) s) sub = true.
Proof.
  intros Hs Hf Hj. unfold py_find in Hf.
  replace (start <? 0) with false in Hf by (symmetry; apply Z.ltb_ge; lia).
  destruct (len s <? start) eqn:E; [congruence|]. apply Z.ltb_ge in E.
  destruct (find_from_spec _ _ _ _ Hs Hf Hj) as (k & Hk & Hle & Hsw).
  rewrite length_skipn in Hle. rewrite skipn_skipn in Hsw.
  unfold len in *. split; [lia|].
  replace (Z.to_nat j) with (k + Z.to_nat start)%nat by lia. exact Hsw.
Qed.

Lemma py_find_at (pre word post : str) :
  py_find (pre ++ word ++ post) word (len pre) = len pre.
Proof.
  unfold py_find, len.
  replace (Z.of_nat (List.length pre) <? 0) with false
    by (symmetry; apply Z.ltb_ge; lia).
  replace (Z.of_nat (List.length (pre ++ word ++ post))
           <? Z.of_nat (List.length pre)) with false
    by (symmetry; apply Z.ltb_ge; rewrite length_app; lia).
  rewrite Nat2Z.id, skipn_app, skipn_all, Nat.sub_diag. simpl.
  apply find_from_here, startswith_app.
Qed.

Lemma py_slice_found (s sub : str) (j : Z) :
  0 <= j <= len s -> startswith (skipn (Z.to_nat j) s) sub = true ->
  py_slice s j (j + len sub) = sub.
Proof.
  intros Hj Hsw. apply startswith_firstn in Hsw.
  assert (Hlen : (List.length sub <= List.length (skipn (Z.to_nat j) s))%nat).
  { rewrite <- Hsw at 1. rewrite length_firstn. lia. }
  rewrite length_skipn in Hlen.
  rewrite py_slice_forward by (unfold len in *; lia).
  unfold len in *.
  replace (Z.to_nat (Z.min (j + Z.of_nat (List.length sub))
                       (Z.of_nat (List.length s)) - j))
    with (List.length sub) by lia.
  exact Hsw.
Qed.

Lemma strip_nonempty (word : str) :
  nonempty (strip word) = true -> 1 <= len word.
Proof. destruct word; [discriminate|]. intros _. rewrite len_cons. unfold len. lia. Qed.

Lemma jieba_confidence_in_unit : (0 <= b64 (9 # 10) <= 1)%Q.
Proof. split; vm_compute; discriminate. Qed.

(** One token and one category: nothing is raised, and what is appended
    is about this token and this category. *)
Lemma jieba_check_category_sound (self : JiebaRule) (config : DetectionConfig)
    (processed_text word : str) (current_pos : Z) (category : str) :
  0 <= current_pos -> 1 <= len word ->
  exists rs,
    jieba_check_category self config processed_text word current_pos category
    = Ok rs
    /\ forall r, In r rs ->
         matched_word r = word /\ r_category r = category
         /\ jieba_item self config processed_text r.
Proof.
  intros Hpos Hword. unfold jieba_check_category.
  destruct (dict_get (word_sets self) category) as [word_set|] eqn:Hget;
    [|exists []; split; [reflexivity|intros r []]].
  destruct (in_dec str_eq_dec word word_set) as [Hin|_];
    [|exists []; split; [reflexivity|intros r []]].
  destruct (py_find processed_text word current_pos =? -1) eqn:Hfind;
    [exists []; split; [reflexivity|intros r []]|].
  apply Z.eqb_neq in Hfind.
  destruct (py_find_spec _ _ _ _ Hpos eq_refl Hfind) as [Hj Hsw].
  set (start_pos := py_find processed_text word current_pos) in *.
  replace (start_pos + len word - 1 + 1) with (start_pos + len word) by lia.
  assert (Hslice : py_slice processed_text start_pos (start_pos + len word)
                   = word) by (apply py_slice_found; [lia|exact Hsw]).
  unfold jieba_item.
  destruct (return_positions config).
  - rewrite new_Position_valid by lia. cbn [bind].
    rewrite new_DetectionResultItem_valid by exact jieba_confidence_in_unit.
    cbn [bind]. eexists. split; [reflexivity|].
    intros r [<-|[]]. cbn.
    split; [reflexivity|]. split; [reflexivity|].
    split; [exists word_set; auto|]. repeat (split; [reflexivity|]).
    exists start_pos. split; [reflexivity|]. split; [lia|exact Hslice].
  - cbn [bind].
    rewrite new_DetectionResultItem_valid by exact jieba_confidence_in_unit.
    cbn [bind]. eexists. split; [reflexivity|].
    intros r [<-|[]]. cbn.
    split; [reflexivity|]. split; [reflexivity|].
    split; [exists word_set; auto|]. repeat (split; [reflexivity|]).
    reflexivity.
Qed.

Lemma jieba_scan_sound (self : JiebaRule) (config : DetectionConfig)
    (processed_text : str) (cats : list str) (word_list : list str) :
  forall current_pos, 0 <= current_pos ->
    exists rs,
      jieba_scan self config processed_text cats word_list current_pos = Ok rs
      /\ forall r, In r rs ->
           In (matched_word r) word_list /\ In (r_category r) cats
           /\ jieba_item self config processed_text r.
Proof.
  induction word_list as [|word rest IH]; intros current_pos Hpos.
  - exists []. split; [reflexivity|intros r []].
  - cbn [jieba_scan].
    assert (Hnext : 0 <= current_pos + len word) by (unfold len; lia).
    destruct (IH _ Hnext) as (later & Hlater & Hl).
    destruct (nonempty (strip word)) eqn:Hne.
    + apply strip_nonempty in Hne.
      destruct (mapM_total
                  (jieba_check_category self config processed_text word
                     current_pos) cats) as [found Hfound].
      { apply Forall_forall. intros c _.
        destruct (jieba_check_category_sound self config processed_text word
                    current_pos c Hpos Hne) as (rs & Hrs & _).
        exists rs. exact Hrs. }
      rewrite Hfound, Hlater. cbn [bind]. eexists. split; [reflexivity|].
      intros r Hr. apply in_app_or in Hr as [Hr|Hr].
      * apply in_concat in Hr as (rs & Hrs & Hr).
        apply mapM_Forall2 in Hfound.
        destruct (Forall2_in_right _ _ _ _ Hfound Hrs) as (c & Hc & Hcr).
        destruct (jieba_check_category_sound self config processed_text word
                    current_pos c Hpos Hne) as (rs' & Hrs' & Hprop).
        rewrite Hcr in Hrs'. injection Hrs' as <-.
        destruct (Hprop r Hr) as (Hw & Hcat & Hitem).
        split; [left; symmetry; exact Hw|]. split; [rewrite Hcat; exact Hc|].
        exact Hitem.
      * destruct (Hl r Hr) as (Hw & Hrest). split; [right; exact Hw|exact Hrest].
    + exists later. split; [exact Hlater|].
      intros r Hr. destruct (Hl r Hr) as (Hw & Hrest).
      split; [right; exact Hw|exact Hrest].
Qed.

(** X26. [JiebaRule.detect] raises nothing, whatever the segmenter
    returns.  Every result it gives is about a token of the segmenter that
    is a word of the result's category, which is one of the categories
    checked; it has match type EXACT and confidence 0.9; and when
    positions are asked for it carries one span [(s, s + len(word))] at
    which the processed text reads the word. *)
Theorem jieba_detect_sound :
  forall (lower : str -> str) (cut : str -> bool -> bool -> list str)
         (self : JiebaRule) (text : str) (config : DetectionConfig),
    exists rs,
      jieba_detect lower cut self text config = Ok rs
      /\ forall r, In r rs ->
           let processed_text := jieba_preprocess_text lower self text in
           In (matched_word r)
              (cut processed_text (cut_all self) (use_hmm self))
           /\ In (r_category r) (categories_to_check config (word_sets self))
           /\ jieba_item self config processed_text r.
Proof.
  intros lower cut self text config. unfold jieba_detect.
  destruct (nonempty (strip text));
    [|exists []; split; [reflexivity|intros r []]].
  apply jieba_scan_sound. lia.
Qed.

(** A flagged token at the head of what is left of the text is found where
    it stands. *)
Lemma jieba_check_category_hit (self : JiebaRule) (config : DetectionConfig)
    (pre word post : str) (category : str) (word_set : list str) :
  1 <= len word ->
  dict_get (word_sets self) category = Some word_set -> In word word_set ->
  exists r,
    jieba_check_category self config (pre ++ word ++ post) word (len pre)
      category = Ok [r]
    /\ matched_word r = word /\ r_category r = category
    /\ (return_positions config = true ->
        r_positions r = [mkPosition (len pre) (len pre + len word)]).
Proof.
  intros Hword Hget Hin. unfold jieba_check_category.
  rewrite Hget. destruct (in_dec str_eq_dec word word_set) as [_|Hn];
    [|contradiction].
  rewrite py_find_at.
  replace (len pre =? -1) with false
    by (symmetry; apply Z.eqb_neq; unfold len; lia).
  replace (len pre + len word - 1 + 1) with (len pre + len word) by lia.
  destruct (return_positions config).
  - rewrite new_Position_valid by (unfold len in *; lia). cbn [bind].
    rewrite new_DetectionResultItem_valid by exact jieba_confidence_in_unit.
    eexists. split; [reflexivity|]. cbn. auto.
  - cbn [bind].
    rewrite new_DetectionResultItem_valid by exact jieba_confidence_in_unit.
    eexists. split; [reflexivity|]. cbn. repeat split. discriminate.
Qed.

Lemma jieba_scan_complete (self : JiebaRule) (config : DetectionConfig)
    (cats : list str) (category : str) (word_set : list str) (word : str) :
  In category cats ->
  dict_get (word_sets self) category = Some word_set -> In word word_set ->
  nonempty (strip word) = true ->
  forall (before after : list str) (pre_text : str) (rs : list DetectionResultItem),
    jieba_scan self config (pre_text ++ concat (before ++ word :: after)) cats
      (before ++ word :: after) (len pre_text) = Ok rs ->
    exists r, In r rs /\ matched_word r = word /\ r_category r = category
              /\ (return_positions config = true ->
                  r_positions r
                  = [mkPosition (len pre_text + len (concat before))
                       (len pre_text + len (concat before) + len word)]).
Proof.
  intros Hcat Hget Hin Hne.
  induction before as [|w before IH]; intros after pre_text rs Hscan.
  - cbn [app concat] in Hscan. cbn [jieba_scan] in Hscan. rewrite Hne in Hscan.
    destruct (mapM _ cats) as [found|] eqn:Hfound; [|discriminate].
    cbn [bind] in Hscan.
    destruct (jieba_scan _ _ _ _ after _) as [later|]; [|discriminate].
    cbn [bind] in Hscan. injection Hscan as <-.
    apply mapM_Forall2 in Hfound.
    destruct (Forall2_in_left _ _ _ _ Hfound Hcat) as (found_c & Hfc & Hc).
    destruct (jieba_check_category_hit self config pre_text word
                (concat after) category word_set
                (strip_nonempty _ Hne) Hget Hin)
      as (r & Hr & Hw & Hrc & Hpos).
    rewrite Hr in Hc. injection Hc as <-.
    exists r. split.
    + apply in_or_app. left. apply in_concat. exists [r].
      split; [exact Hfc|left; reflexivity].
    + split; [exact Hw|]. split; [exact Hrc|].
      intros Hp. rewrite (Hpos Hp). unfold len. simpl.
      repeat f_equal; lia.
  - cbn [app concat] in Hscan. cbn [jieba_scan] in Hscan.
    assert (Hlater : exists found later,
               jieba_scan self config
                 (pre_text ++ w ++ concat (before ++ word :: after)) cats
                 (before ++ word :: after) (len pre_text + len w) = Ok later
               /\ rs = found ++ later).
    { destruct (nonempty (strip w)).
      - destruct (mapM _ cats) as [found|]; [|discriminate].
        cbn [bind] in Hscan.
        destruct (jieba_scan _ _ _ _ (before ++ word :: after) _)
          as [later|]; [|discriminate].
        cbn [bind] in Hscan. injection Hscan as <-.
        exists (concat found), later. auto.
      - exists [], rs. auto. }
    destruct Hlater as (found & later & Hl & ->).
    replace (len pre_text + len w) with (len (pre_text ++ w)) in Hl
      by (unfold len; rewrite length_app; lia).
    rewrite app_assoc in Hl.
    destruct (IH after (pre_text ++ w) later Hl) as (r & Hr & Hw & Hrc & Hpos).
    exists r. split; [apply in_or_app; right; exact Hr|].
    split; [exact Hw|]. split; [exact Hrc|].
    intros Hp. rewrite (Hpos Hp). cbn [concat]. unfold len.
    rewrite !length_app. do 2 f_equal; lia.
Qed.

(** X27. When the segmenter's tokens spell the processed text, every
    token that is a word of a checked category is reported, at the offset
    at which the token stands in the processed text. *)
Theorem jieba_detect_reports_flagged_tokens :
  forall (lower : str -> str) (cut : str -> bool -> bool -> list str)
         (self : JiebaRule) (text : str) (config : DetectionConfig)
         (before after : list str) (word category : str)
         (word_set : list str),
    nonempty (strip text) = true ->
    cut (jieba_preprocess_text lower self text) (cut_all self) (use_hmm self)
    = before ++ word :: after ->
    concat (before ++ word :: after) = jieba_preprocess_text lower self text ->
    nonempty (strip word) = true ->
    In category (categories_to_check config (word_sets self)) ->
    dict_get (word_sets self) category = Some word_set ->
    In word word_set ->
    exists rs r,
      jieba_detect lower cut self text config = Ok rs
      /\ In r rs /\ matched_word r = word /\ r_category r = category
      /\ (return_positions config = true ->
          r_positions r
          = [mkPosition (len (concat before))
               (len (concat before) + len word)]).
Proof.
  intros lower cut self text config before after word category word_set
    Htext Hcut Hspell Hne Hcat Hget Hin.
  destruct (jieba_scan_sound self config
              (jieba_preprocess_text lower self text)
              (categories_to_check config (word_sets self))
              (before ++ word :: after) 0 ltac:(lia)) as (rs & Hrs & _).
  exists rs.
  assert (Hdetect : jieba_detect lower cut self text config = Ok rs).
  { unfold jieba_detect. rewrite Htext, Hcut. exact Hrs. }
  rewrite <- Hspell in Hrs.
  destruct (jieba_scan_complete self config _ category word_set word
              Hcat Hget Hin Hne before after [] rs Hrs)
    as (r & Hr & Hw & Hrc & Hpos).
  exists r. split; [exact Hdetect|]. split; [exact Hr|].
  split; [exact Hw|]. split; [exact Hrc|].
  intros Hp. rewrite (Hpos Hp). change (len (@nil N)) with 0.
  repeat f_equal; lia.
Qed.

Lemma jieba_detect_reports_flagged_tokens_witness :
  exists rs r,
    jieba_detect ascii_lower space_cut sample_jieba_rule jieba_sample_text
      positions_config = Ok rs
    /\ In r rs /\ matched_word r = lit "badword" /\ r_category r = lit "test"
    /\ (return_positions positions_config = true ->
        r_positions r
        = [mkPosition (len (concat [lit "a"; lit " "]))
             (len (concat [lit "a"; lit " "]) + len (lit "badword"))]).
Proof.
  apply (jieba_detect_reports_flagged_tokens ascii_lower space_cut
           sample_jieba_rule jieba_sample_text positions_config
           [lit "a"; lit " "] [lit " "; lit "xyz"] (lit "badword")
           (lit "test") [lit "badword"; lit "xyz"]).
  - reflexivity.
  - reflexivity.
  - reflexivity.
  - reflexivity.
  - left. reflexivity.
  - reflexivity.
  - left. reflexivity.
Defined.

(** A loop whose body either appends nothing or raises [e]: it raises
    [e] when the body does so for some element, and appends nothing
    otherwise. *)
Lemma mapM_nothing_or_raise {A B : Type} (f : A -> result (list B))
    (b : A -> bool) (e : exn) (l : list A) :
  (forall x, f x = if b x then Raise e else Ok []) ->
  (x <- mapM f l ;; Ok (concat x))
  = if existsb b l then Raise e else Ok [].
Proof.
  intros Hf. induction l as [|x t IH]; [reflexivity|].
  cbn [mapM existsb]. rewrite Hf. destruct (b x); [reflexivity|].
  cbn [bind orb]. destruct (mapM f t) as [ys|e']; cbn [bind] in *.
  - destruct (existsb b t); [discriminate|]. exact IH.
  - exact IH.
Qed.

(** X28. [RegexRule.detect] never reports anything: building a result
    evaluates [MatchType.REGEX], which the enumeration does not have, so
    the call raises [AttributeError] as soon as a pattern of a checked
    category matches the processed text, and returns the empty list
    otherwise. *)
Theorem regex_detect_raises_on_any_match :
  forall (Pattern : Type) (finditer : Pattern -> str -> list (str * Z * Z))
         (lower : str -> str) (patterns : dict (list Pattern))
         (case_sensitive : bool) (text : str) (config : DetectionConfig),
    regex_detect Pattern finditer lower patterns case_sensitive text config
    = if nonempty (strip text)
         && regex_has_match Pattern finditer patterns
              (categories_to_check config patterns)
              (if case_sensitive then text else lower text)
      then Raise AttributeError
      else Ok [].
Proof.
  intros Pattern finditer lower patterns case_sensitive text config.
  unfold regex_detect, regex_has_match.
  destruct (nonempty (strip text)); [|reflexivity]. cbn [andb].
  set (processed_text := if case_sensitive then text else lower text).
  apply mapM_nothing_or_raise. intros category.
  destruct (dict_get patterns category) as [pattern_list|]; [|reflexivity].
  apply mapM_nothing_or_raise. intros pattern.
  destruct (finditer pattern processed_text) as [|m ms]; reflexivity.
Qed.

(** With the word itself as pattern and a match at the start of the text,
    the rule raises; a text that does not start with the word gives the
    empty list. *)
Example regex_detect_sample :
  regex_detect str prefix_finditer ascii_lower
    [(lit "test", [lit "badword"])] false (lit "Badword here") positions_config
  = Raise AttributeError
  /\ regex_detect str prefix_finditer ascii_lower
       [(lit "test", [lit "badword"])] false (lit "a badword") positions_config
     = Ok [].
Proof. split; reflexivity. Qed.
